(** * Wave function collapse: a shallow embedding of [main.py]

    The solver of the repository (classes [CompatibilityOracle],
    [Wavefunction], [Model] and the helper [valid_dirs]) is embedded as
    executable Rocq definitions, and the properties of its specification
    are stated and settled on them.  The example parser
    [parse_example_matrix] and the renderer [render_colors] are embedded
    the same way; further properties of all of them close the file.

    Modelling conventions.
    - A Python [int] is a [Z]; a tuple is a pair; a [list] is a [list]
      indexed the way Python does (negative indices count from the end,
      anything else out of range raises [IndexError]).
    - A [set] of tiles is a [gset string].  Iterating a set goes through
      [elements]; the results proved below do not depend on that order.
    - The [dict] of weights is an association list in insertion order,
      which is the order [weights.items()] enumerates.
    - An exception is a value [Raise e] of the [result] type.
    - [random.random()] reads the next element of a stream of draws that
      is threaded through the functions calling it.
    - Floating point occurs in the entropy of a cell, in the noise added
      to it and in the weighted choice of [collapse]; its operations are
      kept abstract behind the class [FloatOps], so that what is proved
      holds for any floating-point arithmetic, binary64 with its
      rounding included.
    - An [int] that meets a [float] is converted first, and the
      conversion raises [OverflowError] from [2 ^ 1024 - 2 ^ 970] on.
    - The two [while] loops take a number of turns they may run for and
      answer [None] when it does not suffice; both are proved to end
      within a bound that [propagate] and [run] supply.
    - [print] appends a line to the list of the lines printed so far,
      which [render_colors] takes and returns. *)

From Stdlib Require Import ZArith QArith Lia Lqa.
From stdpp Require Import base gmap sets list strings.

Local Open Scope Z_scope.

(** ** Types *)

Abbreviation Tile := string (only parsing).
Abbreviation Coordinates := (Z * Z)%type (only parsing).
Abbreviation Direction := (Z * Z)%type (only parsing).
Abbreviation Compatibility := (string * string * (Z * Z))%type (only parsing).
Abbreviation Weights := (list (string * Z)) (only parsing).
Abbreviation Coefficients := (gset string) (only parsing).
Abbreviation CoefficientMatrix := (list (list (gset string))) (only parsing).

Definition UP : Direction := (1, 0).
Definition DOWN : Direction := (-1, 0).
Definition LEFT : Direction := (0, -1).
Definition RIGHT : Direction := (0, 1).
Definition DIRS : list Direction := [UP; DOWN; LEFT; RIGHT].

(** ** Exceptions *)

Inductive PyError : Set :=
  | IndexError | KeyError | AssertionError | ValueError | OverflowError.

Inductive result (A : Type) : Type :=
  | Ok (a : A)
  | Raise (e : PyError).
Arguments Ok {A} a.
Arguments Raise {A} e.

#[global] Instance result_ret : MRet result := λ A a, Ok a.
#[global] Instance result_bind : MBind result := λ A B f m,
  match m with Ok a => f a | Raise e => Raise e end.

#[global] Instance PyError_eq_dec : EqDecision PyError.
Proof. solve_decision. Defined.

(** A [for] loop whose body may raise: the state is threaded from left to
    right and the first exception ends the loop. *)
Fixpoint for_each {A S : Type} (body : S → A → result S) (l : list A) (s : S)
  : result S :=
  match l with
  | [] => Ok s
  | a :: l' => s' ← body s a; for_each body l' s'
  end.

(** ** Python sequences *)

(** [range(n)] *)
Definition py_range (n : Z) : list Z :=
  (λ i : nat, Z.of_nat i) <$> seq 0 (Z.to_nat n).

(** Position designated by index [i] in a sequence of length [n]. *)
Definition norm_index (n : nat) (i : Z) : result nat :=
  let j := if bool_decide (i < 0) then i + Z.of_nat n else i in
  if bool_decide (0 ≤ j < Z.of_nat n) then Ok (Z.to_nat j) else Raise IndexError.

(** [l[i]] *)
Definition py_index {A : Type} (l : list A) (i : Z) : result A :=
  j ← norm_index (length l) i;
  match l !! j with
  | Some a => Ok a
  | None => Raise IndexError
  end.

(** [sum(l)] *)
Definition py_sum (l : list Z) : Z := foldr Z.add 0 l.

(** ** The compatibility oracle *)

Record CompatibilityOracle : Type := mkOracle {
  data : gset Compatibility
}.

Definition check (o : CompatibilityOracle) (tile1 tile2 : Tile)
    (direction : Direction) : bool :=
  bool_decide ((tile1, tile2, direction) ∈ data o).

(** ** The wavefunction *)

Record Wavefunction : Type := mkWavefunction {
  coefficient_matrix : CoefficientMatrix;
  weights : Weights
}.

(** [weights.keys()] *)
Definition keys (w : Weights) : list Tile := w.*1.

(** [weights[k]] *)
Fixpoint dict_get (w : Weights) (k : Tile) : result Z :=
  match w with
  | [] => Raise KeyError
  | (k', v) :: w' => if decide (k' = k) then Ok v else dict_get w' k
  end.

Definition init_coefficient_matrix (size : Z * Z) (tiles : list Tile)
  : CoefficientMatrix :=
  (λ _, (λ _, list_to_set tiles) <$> py_range size.1) <$> py_range size.2.

Definition mk (size : Z * Z) (w : Weights) : Wavefunction :=
  mkWavefunction (init_coefficient_matrix size (keys w)) w.

(** [self.coefficient_matrix[y][x]] *)
Definition get (wf : Wavefunction) (co_ords : Coordinates) : result Coefficients :=
  let '(y, x) := co_ords in
  row ← py_index (coefficient_matrix wf) y;
  py_index row x.

(** [self.coefficient_matrix[y][x] = v], and likewise the in-place
    mutation of the set stored there. *)
Definition set_cell (wf : Wavefunction) (co_ords : Coordinates)
    (v : Coefficients) : result Wavefunction :=
  let '(y, x) := co_ords in
  let m := coefficient_matrix wf in
  i ← norm_index (length m) y;
  match m !! i with
  | None => Raise IndexError
  | Some row =>
      j ← norm_index (length row) x;
      Ok (mkWavefunction (<[i := <[j := v]> row]> m) (weights wf))
  end.

Definition get_collapsed (wf : Wavefunction) (co_ords : Coordinates)
  : result Tile :=
  options ← get wf co_ords;
  if bool_decide (size options = 1%nat) then
    match elements options with
    | t :: _ => Ok t
    | [] => Raise AssertionError
    end
  else Raise AssertionError.

Definition get_all_collapsed (wf : Wavefunction) : result (list (list Tile)) :=
  let height := Z.of_nat (length (coefficient_matrix wf)) in
  row0 ← py_index (coefficient_matrix wf) 0;
  let width := Z.of_nat (length row0) in
  for_each (λ collapsed y,
      row ← for_each (λ row x,
                t ← get_collapsed wf (y, x); Ok (row ++ [t]))
             (py_range width) [];
      Ok (collapsed ++ [row]))
    (py_range height) [].

Definition is_fully_collapsed (wf : Wavefunction) : bool :=
  forallb (λ row, forallb (λ sq : Coefficients, negb (1 <? size sq)%nat) row)
          (coefficient_matrix wf).

(** ** Random draws and floating point *)

(** The stream of values that successive calls of [random.random()]
    return. *)
Definition Rng : Type := nat → Q.

Definition draw (rng : Rng) : Q * Rng := (rng 0%nat, λ n, rng (S n)).

(** The floating-point operations of [collapse], of [shannon_entropy] and
    of the noise added in [min_entropy_co_ords]. *)
Class FloatOps (F : Type) : Type := {
  float_of_int : Z → F;
  float_of_draw : Q → F;
  flog : F → F;
  fadd : F → F → F;
  fsub : F → F → F;
  fmul : F → F → F;
  fdiv : F → F → F;
  flt : F → F → bool
}.

(** An [int] that meets a [float] in [*], [-] or [/] is first converted
    to a [float], rounding to nearest, ties to even; the conversion
    raises [OverflowError] when the rounded value would be [2 ^ 1024] or
    more, which is the case from [2 ^ 1024 - 2 ^ 970] on. *)
Definition float_limit : Z := 2 ^ 1024 - 2 ^ 970.

Definition py_float `{FloatOps F} (n : Z) : result F :=
  if bool_decide (Z.abs n < float_limit) then Ok (float_of_int n)
  else Raise OverflowError.

(** [math.log] of an [int]: it raises [ValueError] unless its argument is
    positive, and takes an [int] of any size.  An [int] beyond
    [float_limit] makes the operation that follows in [shannon_entropy]
    raise, so that the value given here for it is never used. *)
Definition math_log `{FloatOps F} (n : Z) : result F :=
  if bool_decide (n ≤ 0) then Raise ValueError else Ok (flog (float_of_int n)).

(** The [for tile, weight in ...: rand_weight -= weight; if rand_weight < 0]
    loop of [collapse], entered with [chosen] set: it leaves through
    [break] with the tile it is at, or runs to its end and leaves
    [chosen] as it was. *)
Fixpoint pick `{FloatOps F} (l : list (Tile * Z)) (rand_weight : F)
    (chosen : Tile) : result Tile :=
  match l with
  | [] => Ok chosen
  | (tile, weight) :: l' =>
      w ← py_float weight;
      let rand_weight := fsub rand_weight w in
      if flt rand_weight (float_of_int 0) then Ok tile
      else pick l' rand_weight chosen
  end.

Definition filtered_tiles_with_weights (wf : Wavefunction)
    (options : Coefficients) : list (Tile * Z) :=
  filter (λ tw, tw.1 ∈ options) (weights wf).

(** [collapse], given the value [r] that [random.random()] returns. *)
Definition collapse `{FloatOps F} (wf : Wavefunction) (co_ords : Coordinates)
    (r : Q) : result Wavefunction :=
  options ← get wf co_ords;
  let filtered := filtered_tiles_with_weights wf options in
  let total_weights := py_sum filtered.*2 in
  total ← py_float total_weights;
  let rand_weight := fmul (float_of_draw r) total in
  first ← py_index filtered 0;
  chosen ← pick filtered rand_weight first.1;
  set_cell wf co_ords {[ chosen ]}.

Definition constrain (wf : Wavefunction) (co_ords : Coordinates)
    (forbidden_tile : Tile) : result Wavefunction :=
  options ← get wf co_ords;
  if bool_decide (forbidden_tile ∈ options)
  then set_cell wf co_ords (options ∖ {[ forbidden_tile ]})
  else Raise KeyError.

Definition shannon_entropy `{FloatOps F} (wf : Wavefunction)
    (co_ords : Coordinates) : result F :=
  options ← get wf co_ords;
  sums ← for_each (λ (acc : Z * F) option,
            weight ← dict_get (weights wf) option;
            log_weight ← math_log weight;
            float_weight ← py_float weight;
            Ok (acc.1 + weight, fadd acc.2 (fmul float_weight log_weight)))
          (elements options) (0, float_of_int 0);
  log_sum ← math_log sums.1;
  float_sum ← py_float sums.1;
  Ok (fsub log_sum (fdiv sums.2 float_sum)).

(** ** [valid_dirs] *)

Definition valid_dirs (cur_co_ords : Coordinates) (matrix_size : Z * Z)
  : list Direction :=
  let '(y, x) := cur_co_ords in
  let '(width, height) := matrix_size in
  (if bool_decide (y < height - 1) then [UP] else []) ++
  (if bool_decide (y > 0) then [DOWN] else []) ++
  (if bool_decide (x > 0) then [LEFT] else []) ++
  (if bool_decide (x < width - 1) then [RIGHT] else []).

(** ** The model *)

Record Model : Type := mkModel {
  output_size : Z * Z;
  compatibility_oracle : CompatibilityOracle;
  wavefunction : Wavefunction
}.

(** [Model.__init__] *)
Definition Model_init (output_size : Z * Z) (w : Weights)
    (o : CompatibilityOracle) : Model :=
  mkModel output_size o (mk output_size w).

Definition with_wavefunction (m : Model) (wf : Wavefunction) : Model :=
  mkModel (output_size m) (compatibility_oracle m) wf.

(** State of the scan of [min_entropy_co_ords]: [min_entropy],
    [min_entropy_co_ords] and the random stream. *)
Definition scan_state (F : Type) : Type := (option F * Coordinates * Rng)%type.

Definition scan_cell `{FloatOps F} (m : Model) (y : Z)
    (st : scan_state F) (x : Z) : result (scan_state F) :=
  let '(min_entropy, min_co_ords, rng) := st in
  options ← get (wavefunction m) (y, x);
  if bool_decide (size options = 1%nat) then Ok st
  else
    entropy ← shannon_entropy (wavefunction m) (y, x);
    let '(r, rng') := draw rng in
    let entropy_plus_noise :=
      fsub entropy (fdiv (float_of_draw r) (float_of_int 1000)) in
    if match min_entropy with
       | None => true
       | Some e => flt entropy_plus_noise e
       end
    then Ok (Some entropy_plus_noise, (y, x), rng')
    else Ok (min_entropy, min_co_ords, rng').

Definition min_entropy_co_ords `{FloatOps F} (m : Model) (rng : Rng)
  : result (Coordinates * Rng) :=
  let '(width, height) := output_size m in
  st ← for_each (λ st y, for_each (scan_cell m y) (py_range width) st)
         (py_range height) (None, (0, 0), rng);
  Ok (st.1.2, st.2).

(** *** Propagation

    The stack is a list whose head is the top: [stack.append] conses and
    [stack.pop()] takes the head. *)

Definition prop_state : Type := (Wavefunction * list Coordinates)%type.

(** Body of the loop over the tiles of the adjacent cell.
    [cur_possible_tiles] is the set object stored at [cur_co_ords], so it
    is read from the current wavefunction. *)
Definition propagate_tile (o : CompatibilityOracle)
    (cur_co_ords : Coordinates) (d : Direction) (other_co_ords : Coordinates)
    (st : prop_state) (other_tile : Tile) : result prop_state :=
  let '(wf, stack) := st in
  cur_possible_tiles ← get wf cur_co_ords;
  let other_tile_is_possible :=
    existsb (λ cur_tile, check o cur_tile other_tile d)
            (elements cur_possible_tiles) in
  if other_tile_is_possible then Ok st
  else
    wf' ← constrain wf other_co_ords other_tile;
    Ok (wf', other_co_ords :: stack).

(** Body of the loop over the valid directions; the tiles iterated are
    those of the copy [set(self.wavefunction.get(other_co_ords))]. *)
Definition propagate_dir (o : CompatibilityOracle) (cur_co_ords : Coordinates)
    (st : prop_state) (d : Direction) : result prop_state :=
  let other_co_ords := (cur_co_ords.1 + d.1, cur_co_ords.2 + d.2) in
  others ← get st.1 other_co_ords;
  for_each (propagate_tile o cur_co_ords d other_co_ords) (elements others) st.

(** One turn of the [while] loop, after [cur_co_ords] was popped. *)
Definition propagate_step (m : Model) (st : prop_state)
    (cur_co_ords : Coordinates) : result prop_state :=
  _ ← get st.1 cur_co_ords;
  for_each (propagate_dir (compatibility_oracle m) cur_co_ords)
           (valid_dirs cur_co_ords (output_size m)) st.

(** The [while len(stack) > 0] loop, run for at most [fuel] turns; [None]
    when the fuel does not suffice. *)
Fixpoint propagate_loop (fuel : nat) (m : Model) (wf : Wavefunction)
    (stack : list Coordinates) : option (result Wavefunction) :=
  match stack with
  | [] => Some (Ok wf)
  | cur_co_ords :: stack' =>
      match fuel with
      | O => None
      | S fuel' =>
          match propagate_step m (wf, stack') cur_co_ords with
          | Ok (wf', stack'') => propagate_loop fuel' m wf' stack''
          | Raise e => Some (Raise e)
          end
      end
  end.

(** Number of tiles still possible, summed over the cells. *)
Definition total_size (wf : Wavefunction) : nat :=
  sum_list ((λ row : list Coefficients, sum_list (size <$> row))
              <$> coefficient_matrix wf).

(** Turns of the loop that always suffice: every turn pops one
    co-ordinate, and every push goes with the removal of a tile. *)
Definition propagate_bound (wf : Wavefunction) (stack : list Coordinates) : nat :=
  (length stack + total_size wf)%nat.

Definition propagate (m : Model) (co_ords : Coordinates)
  : option (result Model) :=
  match propagate_loop (propagate_bound (wavefunction m) [co_ords]) m
          (wavefunction m) [co_ords] with
  | Some (Ok wf) => Some (Ok (with_wavefunction m wf))
  | Some (Raise e) => Some (Raise e)
  | None => None
  end.

Definition iterate `{FloatOps F} (m : Model) (rng : Rng)
  : option (result (Model * Rng)) :=
  match min_entropy_co_ords m rng with
  | Raise e => Some (Raise e)
  | Ok (co_ords, rng1) =>
      let '(r, rng2) := draw rng1 in
      match collapse (wavefunction m) co_ords r with
      | Raise e => Some (Raise e)
      | Ok wf =>
          match propagate (with_wavefunction m wf) co_ords with
          | Some (Ok m') => Some (Ok (m', rng2))
          | Some (Raise e) => Some (Raise e)
          | None => None
          end
      end
  end.

(** [run], allowing at most [fuel] calls of [iterate]. *)
Fixpoint run_loop `{FloatOps F} (fuel : nat) (m : Model) (rng : Rng)
  : option (result (list (list Tile))) :=
  if is_fully_collapsed (wavefunction m)
  then Some (get_all_collapsed (wavefunction m))
  else
    match fuel with
    | O => None
    | S fuel' =>
        match iterate m rng with
        | Some (Ok (m', rng')) => run_loop fuel' m' rng'
        | Some (Raise e) => Some (Raise e)
        | None => None
        end
    end.

(** Number of cells of the coefficient matrix. *)
Definition cell_count (wf : Wavefunction) : nat :=
  sum_list (length <$> coefficient_matrix wf).

Definition run `{FloatOps F} (m : Model) (rng : Rng)
  : option (result (list (list Tile))) :=
  run_loop (cell_count (wavefunction m)) m rng.

(** ** The example parser *)

(** [enumerate(l)] *)
Definition enumerate {A : Type} (l : list A) : list (Z * A) :=
  zip (py_range (Z.of_nat (length l))) l.

(** [weights[k] = v]: an existing key keeps its place, a new one goes to
    the end. *)
Fixpoint dict_set (w : Weights) (k : Tile) (v : Z) : Weights :=
  match w with
  | [] => [(k, v)]
  | (k', v') :: w' =>
      if decide (k' = k) then (k, v) :: w' else (k', v') :: dict_set w' k v
  end.

(** State of [parse_example_matrix]: [compatibilities] and [weights]. *)
Definition parse_state : Type := (gset Compatibility * Weights)%type.

(** Body of the loop over the valid directions at [(y, x)]. *)
Definition parse_dir (matrix : list (list Tile)) (y x : Z) (cur_tile : Tile)
    (compatibilities : gset Compatibility) (d : Direction)
  : result (gset Compatibility) :=
  row ← py_index matrix (y + d.1);
  other_tile ← py_index row (x + d.2);
  Ok ({[ (cur_tile, other_tile, d) ]} ∪ compatibilities).

(** Body of the loop over the tiles of a row. *)
Definition parse_cell (matrix : list (list Tile)) (matrix_size : Z * Z) (y : Z)
    (st : parse_state) (cell : Z * Tile) : result parse_state :=
  let '(x, cur_tile) := cell in
  let '(compatibilities, weights) := st in
  let weights :=
    if bool_decide (cur_tile ∈ keys weights) then weights
    else dict_set weights cur_tile 0 in
  count ← dict_get weights cur_tile;
  let weights := dict_set weights cur_tile (count + 1) in
  compatibilities ←
    for_each (parse_dir matrix y x cur_tile)
             (valid_dirs (y, x) matrix_size) compatibilities;
  Ok (compatibilities, weights).

Definition parse_example_matrix (matrix : list (list Tile))
  : result parse_state :=
  let matrix_height := Z.of_nat (length matrix) in
  row0 ← py_index matrix 0;
  let matrix_width := Z.of_nat (length row0) in
  for_each (λ st (line : Z * list Tile),
              for_each (parse_cell matrix (matrix_width, matrix_height) line.1)
                       (enumerate line.2) st)
           (enumerate matrix) (∅, []).

(** ** The renderer *)

(** [render_colors], with the lines already printed as state: it returns
    the lines printed when it ends and how it ends.  [reset] stands for
    [colorama.Style.RESET_ALL]. *)
Definition render_row (reset : string) (colors : gmap string string)
    (row : list Tile) : result (list string) :=
  for_each (λ output_row val,
              match colors !! val with
              | Some color =>
                  Ok (output_row ++ [String.append color (String.append val reset)])
              | None => Raise KeyError
              end)
           row [].

Fixpoint render_colors (reset : string) (matrix : list (list Tile))
    (colors : gmap string string) (printed : list string)
  : list string * result unit :=
  match matrix with
  | [] => (printed, Ok tt)
  | row :: rest =>
      match render_row reset colors row with
      | Ok output_row =>
          render_colors reset rest colors
                        (printed ++ [String.concat EmptyString output_row])
      | Raise e => (printed, Raise e)
      end
  end.

(** * Notions used to state the properties *)

(** ** Cells of the coefficient matrix *)

Definition cell_at (M : CoefficientMatrix) (i j : nat) : option Coefficients :=
  M !! i ≫= λ row, row !! j.

Definition set_at (M : CoefficientMatrix) (i j : nat) (v : Coefficients)
  : CoefficientMatrix :=
  alter (λ row, <[j := v]> row) i M.

(** List positions that a pair of Python indices designates. *)
Definition locate (M : CoefficientMatrix) (co_ords : Coordinates)
  : result (nat * nat) :=
  i ← norm_index (length M) co_ords.1;
  match M !! i with
  | None => Raise IndexError
  | Some row => j ← norm_index (length row) co_ords.2; Ok (i, j)
  end.

(** The matrix has [height] rows of [width] cells, for
    [size = (width, height)]. *)
Definition shape_ok (size : Z * Z) (M : CoefficientMatrix) : Prop :=
  length M = Z.to_nat size.2 ∧
  Forall (λ row : list Coefficients, length row = Z.to_nat size.1) M.

(** [(y, x)] designates a cell of a grid of that size. *)
Definition in_grid (size : Z * Z) (c : Coordinates) : Prop :=
  0 ≤ c.1 < size.2 ∧ 0 ≤ c.2 < size.1.

(** The tiles possible at a cell of the grid; empty outside the matrix. *)
Definition tiles_at (wf : Wavefunction) (c : Coordinates) : Coefficients :=
  default ∅ (cell_at (coefficient_matrix wf) (Z.to_nat c.1) (Z.to_nat c.2)).

Definition neighbour (c : Coordinates) (d : Direction) : Coordinates :=
  (c.1 + d.1, c.2 + d.2).

(** The tile of a returned grid at non-negative co-ordinates. *)
Definition grid_at (grid : list (list Tile)) (c : Coordinates) : option Tile :=
  if bool_decide (0 ≤ c.1 ∧ 0 ≤ c.2)
  then grid !! Z.to_nat c.1 ≫= λ row, row !! Z.to_nat c.2
  else None.

(** ** Shrinking *)

(** [shrinks M M']: [M'] has the cells of [M], each holding a subset of
    what it held in [M]. *)
Definition shrinks (M M' : CoefficientMatrix) : Prop :=
  Forall2 (Forall2 (λ old new : Coefficients, new ⊆ old)) M M'.

(** The operations that mutate a wavefunction. *)
Inductive wf_op : Type :=
  | OpCollapse (co_ords : Coordinates) (r : Q)
  | OpConstrain (co_ords : Coordinates) (forbidden_tile : Tile).

Definition apply_op `{FloatOps F} (wf : Wavefunction) (op : wf_op)
  : result Wavefunction :=
  match op with
  | OpCollapse c r => collapse wf c r
  | OpConstrain c t => constrain wf c t
  end.

(** Every possible tile of every cell is a key of the weights. *)
Definition tiles_have_weights (wf : Wavefunction) : Prop :=
  Forall (Forall (λ sq : Coefficients, ∀ t, t ∈ sq → t ∈ keys (weights wf)))
         (coefficient_matrix wf).

(** ** The weighted choice *)



(** The [int] converts to a [float]. *)
Definition fits (n : Z) : Prop := Z.abs n < float_limit.

(** Weights none of which is negative and whose sum converts to [float]:
    then each weight, and the sum of any of them, converts too. *)
Definition small_weights (w : Weights) : Prop :=
  Forall (λ tw : Tile * Z, 0 ≤ tw.2) w ∧ py_sum w.*2 < float_limit.

(** ** The scan for the minimal entropy *)

(** The cell is in the grid, is not collapsed and has an entropy. *)
Definition uncollapsed `{FloatOps F} (m : Model) (c : Coordinates) : Prop :=
  in_grid (output_size m) c ∧
  ∃ s, get (wavefunction m) c = Ok s ∧ size s ≠ 1%nat ∧
       ∃ e : F, shannon_entropy (wavefunction m) c = Ok e.

Definition collapsed (m : Model) (c : Coordinates) : Prop :=
  ∃ s, get (wavefunction m) c = Ok s ∧ size s = 1%nat.

(** The scan either has a minimum, found at an uncollapsed cell, or has
    none and still holds the origin. *)
Definition scan_ok `{FloatOps F} (m : Model) (st : scan_state F) : Prop :=
  match st.1.1 with
  | Some _ => uncollapsed m st.1.2
  | None => st.1.2 = (0, 0)
  end.

(** The scan has a minimum, or the cell [c] is collapsed. *)
Definition scan_seen {F : Type} (m : Model) (c : Coordinates)
    (st : scan_state F) : Prop :=
  is_Some st.1.1 ∨ collapsed m c.

(** The two nested loops of [min_entropy_co_ords]. *)
Definition scan_rows `{FloatOps F} (m : Model) (rng : Rng)
  : result (scan_state F) :=
  for_each (λ st y, for_each (scan_cell m y) (py_range (output_size m).1) st)
           (py_range (output_size m).2) (None, (0, 0), rng).

(** ** Measures *)

(** What is conserved by the body of the propagation loop: pushes are
    paid for by removals, cells only lose tiles and the weights stay. *)
Definition prop_conserves (st st' : prop_state) : Prop :=
  (length st'.2 + total_size st'.1 = length st.2 + total_size st.1)%nat ∧
  shrinks (coefficient_matrix st.1) (coefficient_matrix st'.1) ∧
  weights st'.1 = weights st.1.

Definition open_cell (sq : Coefficients) : nat :=
  if (1 <? size sq)%nat then 1%nat else 0%nat.

Definition open_row (row : list Coefficients) : nat :=
  sum_list (open_cell <$> row).

(** Number of cells that still have more than one possible tile. *)
Definition open_cells (M : CoefficientMatrix) : nat :=
  sum_list (open_row <$> M).

(** ** Support between adjacent cells *)

(** Some tile possible at [cur] is compatible with [t] in direction [d]. *)
Definition has_support (o : CompatibilityOracle) (wf : Wavefunction)
    (cur : Coordinates) (d : Direction) (t : Tile) : Prop :=
  ∃ a, a ∈ tiles_at wf cur ∧ check o a t d = true.

(** Every tile possible at the neighbour of [c] in direction [d] is
    compatible, in that direction, with some tile possible at [c]. *)
Definition supported (o : CompatibilityOracle) (wf : Wavefunction)
    (c : Coordinates) (d : Direction) : Prop :=
  ∀ t', t' ∈ tiles_at wf (neighbour c d) →
        ∃ t, t ∈ tiles_at wf c ∧ check o t t' d = true.

Definition settled (o : CompatibilityOracle) (size : Z * Z)
    (wf : Wavefunction) (c : Coordinates) : Prop :=
  ∀ d, d ∈ valid_dirs c size → supported o wf c d.

(** Invariant of the propagation: a cell of the grid is on the stack,
    or still has the tiles [U] it was created with, or supports all its
    neighbours. *)
Definition prop_inv (o : CompatibilityOracle) (size : Z * Z)
    (U : Coefficients) (wf : Wavefunction) (stack : list Coordinates) : Prop :=
  ∀ c, in_grid size c → c ∈ stack ∨ tiles_at wf c = U ∨ settled o size wf c.

(** Invariant of the loop over the tiles of the adjacent cell [other],
    started at [(wf, stack)], [pre] being the tiles already iterated. *)
Definition dir_inv (o : CompatibilityOracle) (size : Z * Z)
    (wf : Wavefunction) (stack : list Coordinates)
    (cur other : Coordinates) (d : Direction)
    (pre : list Tile) (st : prop_state) : Prop :=
  shape_ok size (coefficient_matrix st.1) ∧
  (∀ c, in_grid size c → c ≠ other → tiles_at st.1 c = tiles_at wf c) ∧
  tiles_at st.1 other ⊆ tiles_at wf other ∧
  (∀ t, t ∈ pre → t ∈ tiles_at st.1 other → has_support o wf cur d t) ∧
  (∀ c, c ∈ st.2 ↔
        c ∈ stack ∨ (c = other ∧ tiles_at st.1 other ≠ tiles_at wf other)).

(** Invariant of the loop over the directions at the popped cell [cur],
    [pre] being the directions already iterated. *)
Definition step_inv (m : Model) (U : Coefficients) (wf0 : Wavefunction)
    (cur : Coordinates) (pre : list Direction) (st : prop_state) : Prop :=
  shape_ok (output_size m) (coefficient_matrix st.1) ∧
  Forall (in_grid (output_size m)) st.2 ∧
  tiles_at st.1 cur = tiles_at wf0 cur ∧
  (∀ d, d ∈ pre → supported (compatibility_oracle m) st.1 cur d) ∧
  (∀ c, in_grid (output_size m) c → c ≠ cur →
        c ∈ st.2 ∨ tiles_at st.1 c = U ∨
        settled (compatibility_oracle m) (output_size m) st.1 c).

(** Between two calls of [iterate]: the matrix has the shape of the
    output size and every cell of the grid either still has the tiles
    [U] or supports all its neighbours. *)
Definition run_inv (U : Coefficients) (m : Model) : Prop :=
  shape_ok (output_size m) (coefficient_matrix (wavefunction m)) ∧
  prop_inv (compatibility_oracle m) (output_size m) U (wavefunction m) [].

(** ** Notions for the further properties *)

(** The direction that leads back. *)
Definition opposite (d : Direction) : Direction := (- d.1, - d.2).

(** An assignment of a tile to every cell in which all adjacent cells of
    the grid are compatible. *)
Definition solution (o : CompatibilityOracle) (size : Z * Z)
    (g : Coordinates → Tile) : Prop :=
  ∀ c d, in_grid size c → d ∈ valid_dirs c size →
         check o (g c) (g (neighbour c d)) d = true.

(** The assignment only uses tiles that are still possible. *)
Definition within (size : Z * Z) (wf : Wavefunction)
    (g : Coordinates → Tile) : Prop :=
  ∀ c, in_grid size c → g c ∈ tiles_at wf c.

Definition positive_weights (w : Weights) : Prop :=
  Forall (λ tw : Tile * Z, 0 < tw.2) w.

(** A matrix of tiles with [height] rows of [width] tiles, for
    [size = (width, height)]. *)
Definition rectangular (size : Z * Z) (matrix : list (list Tile)) : Prop :=
  length matrix = Z.to_nat size.2 ∧
  Forall (λ row : list Tile, length row = Z.to_nat size.1) matrix.

(** Number of cells of the matrix that hold the tile. *)
Definition occurrences (t : Tile) (matrix : list (list Tile)) : Z :=
  Z.of_nat (length (filter (λ t', t' = t) (concat matrix))).

(** The weights count the tiles [seen]: their keys are the tiles seen,
    each with its number of occurrences, and they add up to the number of
    tiles seen. *)
Definition counts (seen : list Tile) (w : Weights) : Prop :=
  NoDup (keys w) ∧
  (∀ t, t ∈ keys w ↔ t ∈ seen) ∧
  (∀ t, t ∈ seen →
        dict_get w t = Ok (Z.of_nat (length (filter (λ t', t' = t) seen)))) ∧
  py_sum w.*2 = Z.of_nat (length seen).

(** The triple is read off the matrix at some cell of the grid and its
    neighbour in a valid direction. *)
Definition observed (dims : Z * Z) (matrix : list (list Tile))
    (triple : Compatibility) : Prop :=
  ∃ c, in_grid dims c ∧ triple.2 ∈ valid_dirs c dims ∧
       grid_at matrix c = Some triple.1.1 ∧
       grid_at matrix (neighbour c triple.2) = Some triple.1.2.

(** ** Rendering *)

(** Every tile of the row has a colour. *)
Definition coloured (colors : gmap string string) (row : list Tile) : Prop :=
  Forall (λ t, is_Some (colors !! t)) row.

(** The line that shows a row: each tile between its colour and the reset
    code. *)
Definition painted (reset : string) (colors : gmap string string)
    (row : list Tile) : string :=
  String.concat EmptyString
    ((λ t, String.append (default EmptyString (colors !! t))
                         (String.append t reset)) <$> row).

(** ** Examples *)

(** Exact rational arithmetic standing in for floating point where an
    example has to be run.  It is no model of binary64: there is no
    rounding, and the logarithm is replaced by the identity.  It is only
    used on examples in which the cells compared have the same weights,
    hence the same entropy whatever the logarithm, and in which the
    choice of [collapse] does not depend on rounding.  No property below
    is proved for this instance only. *)
#[global] Instance exact_arith : FloatOps Q := {|
  float_of_int := inject_Z;
  float_of_draw := λ r, r;
  flog := λ x, x;
  fadd := Qplus;
  fsub := Qminus;
  fmul := Qmult;
  fdiv := Qdiv;
  flt := λ a b, negb (Qle_bool b a)
|}.

Definition scenario_oracle : CompatibilityOracle :=
  mkOracle {[ ("X"%string, "Y"%string, RIGHT); ("Y"%string, "X"%string, LEFT) ]}.

(** The 1×2 grid of the scenario: one row of two cells, weights
    [{X: 1, Y: 1}]. *)
Definition scenario_model : Model :=
  Model_init (2, 1) [("X"%string, 1); ("Y"%string, 1)] scenario_oracle.

Definition U_XY : Coefficients := list_to_set ["X"%string; "Y"%string].

(** A grid of one row and two cells, a single tile ["X"] and an oracle
    that allows nothing. *)
Definition single_tile_model : Model :=
  Model_init (2, 1) [("X"%string, 1)] (mkOracle ∅).

(** A 1×1 grid whose cell is collapsed. *)
Definition collapsed_model : Model :=
  mkModel (1, 1) (mkOracle ∅)
          (mkWavefunction [[{[ "X"%string ]}]] [("X"%string, 5)]).

(** The grid of the scenario once solved. *)
Definition solved_model : Model :=
  mkModel (2, 1) scenario_oracle
          (mkWavefunction [[{[ "X"%string ]}; {[ "Y"%string ]}]]
                          [("X"%string, 1); ("Y"%string, 1)]).

(** The wavefunction of a 1×1 grid whose only cell has no possible tile
    left. *)
Definition wf_contradiction : Wavefunction :=
  mkWavefunction [[∅]] [("X"%string, 1)].

(** * Properties *)

(** ** Loops and sequences *)

Lemma bind_Ok {A B : Type} (f : A → result B) (r : result A) (b : B) :
  r ≫= f = Ok b ↔ ∃ a, r = Ok a ∧ f a = Ok b.
Proof.
  destruct r as [a|e]; simpl; split.
  - intros Hf. by exists a.
  - by intros (a' & [= <-] & Hf).
  - discriminate.
  - by intros (a' & Hr & _).
Qed.

Lemma bind_Ok_l {A B : Type} (f : A → result B) (a : A) : Ok a ≫= f = f a.
Proof. done. Qed.

(** An invariant indexed by the part of the sequence already iterated. *)
Lemma for_each_prefix_inv {A S : Type} (P : list A → S → Prop)
    (body : S → A → result S) (l : list A) (s s' : S) :
  P [] s →
  (∀ pre a post st st', l = pre ++ a :: post → P pre st →
     body st a = Ok st' → P (pre ++ [a]) st') →
  for_each body l s = Ok s' → P l s'.
Proof.
  intros H0 Hstep.
  assert (Hgen : ∀ post pre st, l = pre ++ post → P pre st →
                   for_each body post st = Ok s' → P l s').
  { induction post as [|a post IH]; intros pre st Hl HP Hrun; simpl in Hrun.
    - injection Hrun as <-. rewrite Hl, app_nil_r. exact HP.
    - apply bind_Ok in Hrun as (st1 & Hb & Hrun).
      apply (IH (pre ++ [a]) st1); [by rewrite <- app_assoc| |done].
      by eapply Hstep. }
  by apply (Hgen l [] s).
Qed.

Lemma for_each_inv {A S : Type} (P : S → Prop)
    (body : S → A → result S) (l : list A) (s s' : S) :
  P s →
  (∀ a st st', a ∈ l → P st → body st a = Ok st' → P st') →
  for_each body l s = Ok s' → P s'.
Proof.
  intros H0 Hstep.
  apply (for_each_prefix_inv (λ _, P)); [done|].
  intros pre a post st st' -> HP Hb. eapply Hstep; [|done..].
  set_solver.
Qed.

Lemma elem_of_py_range (n i : Z) : i ∈ py_range n ↔ 0 ≤ i < n.
Proof.
  unfold py_range. rewrite list_elem_of_fmap. split.
  - intros (k & -> & Hk). apply elem_of_seq in Hk. lia.
  - intros Hi. exists (Z.to_nat i). split; [lia|]. apply elem_of_seq. lia.
Qed.

Lemma norm_index_lt (n : nat) (i : Z) (j : nat) :
  norm_index n i = Ok j → (j < n)%nat.
Proof.
  unfold norm_index. repeat case_bool_decide; intros [= <-]; lia.
Qed.

Lemma norm_index_nonneg (n : nat) (i : Z) :
  0 ≤ i < Z.of_nat n → norm_index n i = Ok (Z.to_nat i).
Proof.
  intros Hi. unfold norm_index. repeat case_bool_decide; (done || lia).
Qed.

Lemma norm_index_raise (n : nat) (i : Z) (e : PyError) :
  norm_index n i = Raise e → e = IndexError.
Proof. unfold norm_index. repeat case_bool_decide; congruence. Qed.

Lemma py_index_Ok {A : Type} (l : list A) (i : Z) (a : A) :
  py_index l i = Ok a ↔ ∃ j, norm_index (length l) i = Ok j ∧ l !! j = Some a.
Proof.
  unfold py_index. rewrite bind_Ok. split.
  - intros (j & Hj & Hl). exists j. split; [done|].
    destruct (l !! j); congruence.
  - intros (j & Hj & Hl). exists j. by rewrite Hl.
Qed.

(** ** Cells of the coefficient matrix *)

Lemma locate_cell (M : CoefficientMatrix) (c : Coordinates) (i j : nat) :
  locate M c = Ok (i, j) → is_Some (cell_at M i j).
Proof.
  unfold locate, cell_at. rewrite bind_Ok. intros (i' & Hi & Hrow).
  destruct (M !! i') as [row|] eqn:Hr; [|done].
  apply bind_Ok in Hrow as (j' & Hj & [= <- <-]).
  rewrite Hr. simpl. apply lookup_lt_is_Some. by eapply norm_index_lt.
Qed.

Lemma locate_raise (M : CoefficientMatrix) (c : Coordinates) (e : PyError) :
  locate M c = Raise e → e = IndexError.
Proof.
  unfold locate. destruct (norm_index (length M) c.1) as [i|e'] eqn:Hi; simpl.
  - destruct (M !! i) as [row|]; [|congruence].
    destruct (norm_index (length row) c.2) as [j|e''] eqn:Hj; simpl; [done|].
    intros [= <-]. by eapply norm_index_raise.
  - intros [= <-]. by eapply norm_index_raise.
Qed.

Lemma get_locate (wf : Wavefunction) (c : Coordinates) :
  get wf c =
  match locate (coefficient_matrix wf) c with
  | Ok (i, j) =>
      match cell_at (coefficient_matrix wf) i j with
      | Some s => Ok s
      | None => Raise IndexError
      end
  | Raise e => Raise e
  end.
Proof.
  destruct c as [y x]. unfold get, locate, py_index, cell_at. simpl.
  destruct (norm_index _ y) as [i|e]; simpl; [|done].
  destruct (coefficient_matrix wf !! i) as [row|] eqn:Hr; simpl; [|done].
  destruct (norm_index _ x) as [j|e]; simpl; [|done].
  by rewrite Hr.
Qed.

Lemma get_Ok (wf : Wavefunction) (c : Coordinates) (s : Coefficients) :
  get wf c = Ok s ↔
  ∃ i j, locate (coefficient_matrix wf) c = Ok (i, j) ∧
         cell_at (coefficient_matrix wf) i j = Some s.
Proof.
  rewrite get_locate. split.
  - destruct (locate _ c) as [[i j]|] eqn:Hl; [|done].
    destruct (cell_at _ i j) eqn:Hc; [|done]. intros [= <-]. eauto.
  - intros (i & j & -> & ->). done.
Qed.

Lemma get_raise (wf : Wavefunction) (c : Coordinates) (e : PyError) :
  get wf c = Raise e → e = IndexError.
Proof.
  rewrite get_locate. destruct (locate _ c) as [[i j]|e'] eqn:Hl.
  - destruct (cell_at _ i j); congruence.
  - intros [= <-]. by eapply locate_raise.
Qed.

Lemma set_cell_locate (wf : Wavefunction) (c : Coordinates) (v : Coefficients) :
  set_cell wf c v =
  match locate (coefficient_matrix wf) c with
  | Ok (i, j) => Ok (mkWavefunction (set_at (coefficient_matrix wf) i j v)
                                    (weights wf))
  | Raise e => Raise e
  end.
Proof.
  destruct c as [y x]. unfold set_cell, locate, set_at. simpl.
  destruct (norm_index _ y) as [i|e]; simpl; [|done].
  destruct (coefficient_matrix wf !! i) as [row|] eqn:Hr; simpl; [|done].
  destruct (norm_index _ x) as [j|e]; simpl; [|done].
  do 2 f_equal. apply list_eq. intros k.
  destruct (decide (k = i)) as [->|Hne].
  - rewrite list_lookup_insert_eq by (by eapply lookup_lt_Some).
    rewrite list_lookup_alter_eq, Hr. done.
  - rewrite list_lookup_insert_ne, list_lookup_alter_ne by done. done.
Qed.

Lemma cell_at_set_at (M : CoefficientMatrix) (i j i' j' : nat) (v : Coefficients) :
  is_Some (cell_at M i j) →
  cell_at (set_at M i j v) i' j' =
  if decide ((i', j') = (i, j)) then Some v else cell_at M i' j'.
Proof.
  unfold cell_at, set_at. intros [s Hs].
  destruct (M !! i) as [row|] eqn:Hr; [|done]. simpl in Hs.
  destruct (decide (i' = i)) as [->|Hi].
  - rewrite list_lookup_alter_eq, Hr. simpl.
    destruct (decide (j' = j)) as [->|Hj].
    + rewrite decide_True by done.
      apply list_lookup_insert_eq. by eapply lookup_lt_Some.
    + rewrite decide_False by congruence. by apply list_lookup_insert_ne.
  - rewrite list_lookup_alter_ne by done.
    rewrite decide_False by congruence. done.
Qed.

(** ** Shrinking of the coefficient matrix *)

Lemma shrinks_refl (M : CoefficientMatrix) : shrinks M M.
Proof.
  apply Forall_Forall2_diag, Forall_forall. intros row _.
  apply Forall_Forall2_diag, Forall_forall. intros s _. done.
Qed.

Lemma shrinks_trans (M1 M2 M3 : CoefficientMatrix) :
  shrinks M1 M2 → shrinks M2 M3 → shrinks M1 M3.
Proof.
  unfold shrinks. apply Forall2_trans. intros r1 r2 r3.
  apply Forall2_trans. intros s1 s2 s3 H12 H23. set_solver.
Qed.

Lemma set_at_shrinks (M : CoefficientMatrix) (i j : nat) (s v : Coefficients) :
  cell_at M i j = Some s → v ⊆ s → shrinks M (set_at M i j v).
Proof.
  intros Hs Hv. unfold set_at. apply Forall2_alter_r; [apply shrinks_refl|].
  intros row row' Hr Hr' _. assert (row' = row) as -> by congruence.
  unfold cell_at in Hs. rewrite Hr in Hs. simpl in Hs.
  apply Forall2_same_length_lookup_2; [by rewrite length_insert|].
  intros k a b Ha Hb. destruct (decide (k = j)) as [->|Hne].
  - rewrite list_lookup_insert_eq in Hb by (by eapply lookup_lt_Some).
    by simplify_eq.
  - rewrite list_lookup_insert_ne in Hb by done.
    by simplify_eq.
Qed.

Lemma shrinks_cell (M M' : CoefficientMatrix) (i j : nat) :
  shrinks M M' →
  match cell_at M i j, cell_at M' i j with
  | Some s, Some s' => s' ⊆ s
  | None, None => True
  | _, _ => False
  end.
Proof.
  intros H. unfold cell_at.
  pose proof (proj1 (Forall2_lookup _ _ _) H i) as Hi.
  destruct Hi as [row row' Hrow|]; simpl; [|done].
  pose proof (proj1 (Forall2_lookup _ _ _) Hrow j) as Hj.
  destruct Hj; done.
Qed.

Lemma shrinks_locate (M M' : CoefficientMatrix) (c : Coordinates) :
  shrinks M M' → locate M' c = locate M c.
Proof.
  intros H. unfold locate. rewrite <- (Forall2_length _ _ _ H).
  destruct (norm_index (length M) c.1) as [i|e]; simpl; [|done].
  pose proof (proj1 (Forall2_lookup _ _ _) H i) as Hi.
  destruct Hi as [row row' Hrow|]; [|done].
  by rewrite <- (Forall2_length _ _ _ Hrow).
Qed.

(** What a successful write into a cell does. *)
Lemma set_cell_Ok (wf wf' : Wavefunction) (c : Coordinates) (v : Coefficients) :
  set_cell wf c v = Ok wf' →
  ∃ i j, locate (coefficient_matrix wf) c = Ok (i, j) ∧
         coefficient_matrix wf' = set_at (coefficient_matrix wf) i j v ∧
         weights wf' = weights wf.
Proof.
  rewrite set_cell_locate.
  destruct (locate _ c) as [[i j]|] eqn:Hl; [|done].
  intros [= <-]. exists i, j. done.
Qed.

Lemma constrain_Ok (wf wf' : Wavefunction) (c : Coordinates) (t : Tile) :
  constrain wf c t = Ok wf' →
  ∃ i j s, locate (coefficient_matrix wf) c = Ok (i, j) ∧
           cell_at (coefficient_matrix wf) i j = Some s ∧ t ∈ s ∧
           coefficient_matrix wf' =
             set_at (coefficient_matrix wf) i j (s ∖ {[ t ]}) ∧
           weights wf' = weights wf.
Proof.
  unfold constrain. rewrite bind_Ok. intros (s & Hget & Hset).
  case_bool_decide as Hin; [|done].
  apply get_Ok in Hget as (i & j & Hl & Hc).
  apply set_cell_Ok in Hset as (i' & j' & Hl' & HM & Hw).
  assert (i' = i ∧ j' = j) as [-> ->] by (split; congruence).
  exists i, j, s. done.
Qed.

Lemma constrain_shrinks (wf wf' : Wavefunction) (c : Coordinates) (t : Tile) :
  constrain wf c t = Ok wf' →
  shrinks (coefficient_matrix wf) (coefficient_matrix wf').
Proof.
  intros H. apply constrain_Ok in H as (i & j & s & _ & Hc & _ & -> & _).
  eapply set_at_shrinks; [done|set_solver].
Qed.

Lemma filtered_elem_of (wf : Wavefunction) (s : Coefficients) (t : Tile) :
  t ∈ (filtered_tiles_with_weights wf s).*1 ↔ t ∈ s ∧ t ∈ keys (weights wf).
Proof.
  unfold filtered_tiles_with_weights, keys.
  rewrite !list_elem_of_fmap. split.
  - intros ([t' w] & -> & Hf). apply list_elem_of_filter in Hf as [Hs Hw].
    simpl in *. split; [done|]. by exists (t', w).
  - intros [Hs ([t' w] & -> & Hw)]. exists (t', w). split; [done|].
    by apply list_elem_of_filter.
Qed.

Lemma py_float_Ok `{FloatOps F} (n : Z) (x : F) :
  py_float n = Ok x ↔ fits n ∧ x = float_of_int n.
Proof.
  unfold py_float, fits. case_bool_decide; split.
  - by intros [= <-].
  - by intros [_ ->].
  - done.
  - by intros [? _].
Qed.

Lemma py_float_fits `{FloatOps F} (n : Z) :
  fits n → py_float n = Ok (float_of_int n).
Proof. intros Hn. by apply py_float_Ok. Qed.

Lemma py_float_Raise `{FloatOps F} (n : Z) (e : PyError) :
  py_float (F:=F) n = Raise e ↔ ¬ fits n ∧ e = OverflowError.
Proof.
  unfold py_float, fits. case_bool_decide; split.
  - done.
  - by intros [? _].
  - by intros [= <-].
  - by intros [_ ->].
Qed.

Lemma pick_elem_of `{FloatOps F} (l : list (Tile * Z)) (v : F)
    (chosen t : Tile) :
  pick l v chosen = Ok t → t = chosen ∨ t ∈ l.*1.
Proof.
  revert v. induction l as [|[t' w] l IH]; intros v; cbn [pick].
  - intros [= <-]. by left.
  - destruct (py_float w) as [fw|e]; [rewrite bind_Ok_l|done]. cbv zeta.
    destruct (flt _ _).
    + intros [= <-]. right. set_solver.
    + intros [->|Hin]%IH; [by left|]. right. set_solver.
Qed.

Lemma collapse_Ok `{FloatOps F} (wf wf' : Wavefunction) (c : Coordinates)
    (r : Q) :
  collapse wf c r = Ok wf' →
  ∃ i j s chosen,
    locate (coefficient_matrix wf) c = Ok (i, j) ∧
    cell_at (coefficient_matrix wf) i j = Some s ∧
    chosen ∈ s ∧ chosen ∈ keys (weights wf) ∧
    coefficient_matrix wf' = set_at (coefficient_matrix wf) i j {[ chosen ]} ∧
    weights wf' = weights wf.
Proof.
  unfold collapse. rewrite bind_Ok. intros (s & Hget & Hrest).
  apply bind_Ok in Hrest as (total & _ & Hrest).
  apply bind_Ok in Hrest as ([t0 w0] & Hfirst & Hrest).
  apply bind_Ok in Hrest as (chosen & Hpick & Hset).
  apply get_Ok in Hget as (i & j & Hl & Hc).
  apply set_cell_Ok in Hset as (i' & j' & Hl' & HM & Hw).
  assert (i' = i ∧ j' = j) as [-> ->] by (split; congruence).
  assert (Hin : chosen ∈ (filtered_tiles_with_weights wf s).*1).
  { apply py_index_Ok in Hfirst as (k & _ & Hk).
    apply list_elem_of_lookup_2 in Hk.
    apply pick_elem_of in Hpick as [->|?]; [|done].
    apply list_elem_of_fmap. by exists (t0, w0). }
  apply filtered_elem_of in Hin as [? ?].
  by exists i, j, s, chosen.
Qed.

Lemma collapse_shrinks `{FloatOps F} (wf wf' : Wavefunction) (c : Coordinates)
    (r : Q) :
  collapse wf c r = Ok wf' →
  shrinks (coefficient_matrix wf) (coefficient_matrix wf').
Proof.
  intros Hcol.
  apply collapse_Ok in Hcol as (i & j & s & t & _ & Hc & Ht & _ & -> & _).
  eapply set_at_shrinks; [done|set_solver].
Qed.

(** C3. Whatever sequence of [collapse] and [constrain] calls is applied
    to a wavefunction, the cells stay the same in number and place and
    each one ends up holding a subset of the tiles it held before: its
    size has not grown and no tile has come back. *)
Theorem possibilities_only_shrink `{FloatOps F} (ops : list wf_op)
    (wf wf' : Wavefunction) :
  for_each apply_op ops wf = Ok wf' →
  shrinks (coefficient_matrix wf) (coefficient_matrix wf') ∧
  Forall2 (Forall2 (λ old new : Coefficients, (size new ≤ size old)%nat))
          (coefficient_matrix wf) (coefficient_matrix wf').
Proof.
  intros Hrun.
  assert (Hs : shrinks (coefficient_matrix wf) (coefficient_matrix wf')).
  { revert Hrun. apply (for_each_inv
      (λ w, shrinks (coefficient_matrix wf) (coefficient_matrix w)));
      [apply shrinks_refl|].
    intros op st st' _ Hst Hop. eapply shrinks_trans; [exact Hst|].
    destruct op; simpl in Hop;
      [by eapply collapse_shrinks|by eapply constrain_shrinks]. }
  split; [exact Hs|].
  eapply Forall2_impl; [exact Hs|]. intros row row' Hrow.
  eapply Forall2_impl; [exact Hrow|]. intros s s' Hsub.
  by apply subseteq_size.
Qed.

(** ** [constrain] *)

(** C7. At a cell that exists, [constrain] raises if and only if the tile
    is absent from the cell, and the exception is then [KeyError]; when
    the tile is present the cell loses exactly that tile and every other
    cell, and the weights, are left as they were. *)
Theorem constrain_removes_or_raises (wf : Wavefunction) (c : Coordinates)
    (t : Tile) (s : Coefficients) :
  get wf c = Ok s →
  (t ∈ s →
     ∃ wf' i j,
       constrain wf c t = Ok wf' ∧
       locate (coefficient_matrix wf) c = Ok (i, j) ∧
       get wf' c = Ok (s ∖ {[ t ]}) ∧
       (∀ i' j', (i', j') ≠ (i, j) →
          cell_at (coefficient_matrix wf') i' j' =
          cell_at (coefficient_matrix wf) i' j') ∧
       weights wf' = weights wf) ∧
  (t ∉ s ↔ constrain wf c t = Raise KeyError) ∧
  (t ∉ s ↔ ∃ e, constrain wf c t = Raise e).
Proof.
  intros Hget. pose proof Hget as Hg.
  apply get_Ok in Hg as (i & j & Hl & Hc).
  assert (Hpresent : t ∈ s →
            constrain wf c t =
            Ok (mkWavefunction
                  (set_at (coefficient_matrix wf) i j (s ∖ {[ t ]}))
                  (weights wf))).
  { intros Hin. unfold constrain. rewrite Hget. simpl.
    rewrite bool_decide_eq_true_2 by done. by rewrite set_cell_locate, Hl. }
  assert (Habsent : t ∉ s → constrain wf c t = Raise KeyError).
  { intros Hin. unfold constrain. rewrite Hget. simpl.
    by rewrite bool_decide_eq_false_2. }
  split; [|split].
  - intros Hin. eexists _, i, j. split; [by apply Hpresent|].
    split; [done|]. split; [|split; [|done]].
    + apply get_Ok. exists i, j. simpl. split.
      * rewrite <- Hl. apply shrinks_locate.
        eapply set_at_shrinks; [done|set_solver].
      * rewrite cell_at_set_at by (by rewrite Hc). by rewrite decide_True.
    + intros i' j' Hne. simpl.
      rewrite cell_at_set_at by (by rewrite Hc). by rewrite decide_False.
  - split; [done|]. intros Hr Hin. rewrite Hpresent in Hr; done.
  - split; [eauto|]. intros [e Hr] Hin. rewrite Hpresent in Hr; done.
Qed.

(** ** [is_fully_collapsed] *)

Lemma is_fully_collapsed_true (wf : Wavefunction) :
  is_fully_collapsed wf = true ↔
  Forall (Forall (λ sq : Coefficients, (size sq ≤ 1)%nat)) (coefficient_matrix wf).
Proof.
  unfold is_fully_collapsed.
  induction (coefficient_matrix wf) as [|row M IH]; simpl.
  - split; [constructor|done].
  - rewrite andb_true_iff, Forall_cons, IH.
    apply and_iff_compat_r.
    induction row as [|sq row IHrow]; simpl.
    + split; [constructor|done].
    + rewrite andb_true_iff, Forall_cons, IHrow.
      apply and_iff_compat_r.
      rewrite negb_true_iff, Nat.ltb_ge. done.
Qed.

(** C2, as the code has it.  [is_fully_collapsed] answers true if and
    only if no cell has more than one possible tile, so an empty cell
    counts as collapsed; when no cell is empty this is to say that every
    cell has exactly one possible tile. *)
Theorem is_fully_collapsed_at_most_one (wf : Wavefunction) :
  (is_fully_collapsed wf = true ↔
   Forall (Forall (λ sq : Coefficients, (size sq ≤ 1)%nat))
          (coefficient_matrix wf)) ∧
  (Forall (Forall (λ sq : Coefficients, sq ≠ ∅)) (coefficient_matrix wf) →
   (is_fully_collapsed wf = true ↔
    Forall (Forall (λ sq : Coefficients, size sq = 1%nat))
           (coefficient_matrix wf))).
Proof.
  split; [apply is_fully_collapsed_true|].
  intros Hne. rewrite is_fully_collapsed_true.
  rewrite !Forall_forall in *. split; intros H row Hrow.
  - specialize (H row Hrow). specialize (Hne row Hrow).
    rewrite Forall_forall in *. intros sq Hsq.
    specialize (H sq Hsq). specialize (Hne sq Hsq).
    assert (size sq ≠ 0%nat); [|lia].
    intros H0. apply size_empty_iff in H0. apply Hne. by apply leibniz_equiv.
  - specialize (H row Hrow). rewrite Forall_forall in *.
    intros sq Hsq. specialize (H sq Hsq). lia.
Qed.

(** C2 as stated fails on a contradiction: the cell is empty, yet
    [is_fully_collapsed] answers true. *)
Lemma is_fully_collapsed_empty_cell :
  ¬ (is_fully_collapsed wf_contradiction = true ↔
     Forall (Forall (λ sq : Coefficients, size sq = 1%nat))
            (coefficient_matrix wf_contradiction)).
Proof.
  intros [H _]. specialize (H eq_refl).
  apply Forall_cons_1 in H as [H _]. apply Forall_cons_1 in H as [H _].
  rewrite size_empty in H. discriminate.
Qed.

Lemma is_fully_collapsed_at_most_one_witness :
  is_fully_collapsed (mkWavefunction [[{[ "X"%string ]}]] []) = true ↔
  Forall (Forall (λ sq : Coefficients, size sq = 1%nat)) [[{[ "X"%string ]}]].
Proof.
  apply (is_fully_collapsed_at_most_one
           (mkWavefunction [[{[ "X"%string ]}]] [])).
  simpl. repeat constructor. set_solver.
Defined.

(** ** Shape of the grid and [valid_dirs] *)

Lemma locate_in_grid (size : Z * Z) (M : CoefficientMatrix) (c : Coordinates) :
  shape_ok size M → in_grid size c →
  locate M c = Ok (Z.to_nat c.1, Z.to_nat c.2).
Proof.
  intros [Hh Hw] [Hy Hx]. unfold locate.
  rewrite norm_index_nonneg by lia. simpl.
  destruct (lookup_lt_is_Some_2 M (Z.to_nat c.1)) as [row Hr]; [lia|].
  rewrite Hr. rewrite Forall_forall in Hw.
  rewrite (Hw row) by (by eapply list_elem_of_lookup_2).
  rewrite norm_index_nonneg by lia. done.
Qed.

Lemma elem_of_valid_dirs (d : Direction) (y x width height : Z) :
  d ∈ valid_dirs (y, x) (width, height) ↔
  (d = UP ∧ y < height - 1) ∨ (d = DOWN ∧ y > 0) ∨
  (d = LEFT ∧ x > 0) ∨ (d = RIGHT ∧ x < width - 1).
Proof.
  unfold valid_dirs. rewrite !elem_of_app.
  repeat case_bool_decide; rewrite ?elem_of_nil, ?list_elem_of_singleton;
    naive_solver.
Qed.

Lemma valid_dirs_in_grid (y x width height : Z) (d : Direction) :
  0 ≤ y < height → 0 ≤ x < width →
  d ∈ valid_dirs (y, x) (width, height) →
  d ∈ DIRS ∧ in_grid (width, height) (y + d.1, x + d.2).
Proof.
  intros Hy Hx Hd. apply elem_of_valid_dirs in Hd.
  unfold in_grid, DIRS, UP, DOWN, LEFT, RIGHT in *. simpl.
  destruct Hd as [[-> ?]|[[-> ?]|[[-> ?]|[-> ?]]]]; simpl;
    (split; [set_solver|lia]).
Qed.

(** C8. From a cell of the grid every direction of [valid_dirs] leads to
    a cell of the grid; a direction is listed exactly when the cell is not
    on the matching edge; and in a matrix of the grid's shape the
    neighbour is found at its own non-negative indices, so that no index
    wraps around. *)
Theorem valid_dirs_stay_in_grid (y x width height : Z) :
  0 ≤ y < height → 0 ≤ x < width →
  (∀ d, d ∈ valid_dirs (y, x) (width, height) →
     d ∈ DIRS ∧ in_grid (width, height) (y + d.1, x + d.2) ∧
     ∀ M, shape_ok (width, height) M →
          locate M (y + d.1, x + d.2) =
          Ok (Z.to_nat (y + d.1), Z.to_nat (x + d.2))) ∧
  (UP ∈ valid_dirs (y, x) (width, height) ↔ y < height - 1) ∧
  (DOWN ∈ valid_dirs (y, x) (width, height) ↔ y > 0) ∧
  (LEFT ∈ valid_dirs (y, x) (width, height) ↔ x > 0) ∧
  (RIGHT ∈ valid_dirs (y, x) (width, height) ↔ x < width - 1).
Proof.
  intros Hy Hx. split.
  - intros d Hd.
    destruct (valid_dirs_in_grid y x width height d Hy Hx Hd) as [HD Hin].
    split; [done|]. split; [done|].
    intros M HM. by apply (locate_in_grid (width, height)).
  - rewrite !elem_of_valid_dirs. unfold UP, DOWN, LEFT, RIGHT.
    repeat split; naive_solver.
Qed.

Lemma valid_dirs_stay_in_grid_witness :
  UP ∈ valid_dirs (0, 1) (2, 3) ↔ 0 < 3 - 1.
Proof.
  apply (valid_dirs_stay_in_grid 0 1 2 3); lia.
Defined.

(** ** Every possible tile has a weight *)

Lemma cell_at_elem_of (M : CoefficientMatrix) (i j : nat) (s : Coefficients) :
  cell_at M i j = Some s → ∃ row, row ∈ M ∧ s ∈ row.
Proof.
  unfold cell_at. destruct (M !! i) as [row|] eqn:Hr; [|done]. simpl.
  intros Hs. exists row. split; by eapply list_elem_of_lookup_2.
Qed.

Lemma elem_of_cell_at (M : CoefficientMatrix) (row : list Coefficients)
    (s : Coefficients) :
  row ∈ M → s ∈ row → ∃ i j, cell_at M i j = Some s.
Proof.
  intros [i Hi]%list_elem_of_lookup_1 [j Hj]%list_elem_of_lookup_1.
  exists i, j. unfold cell_at. by rewrite Hi.
Qed.

Lemma tiles_have_weights_cell (wf : Wavefunction) (i j : nat) (s : Coefficients) :
  tiles_have_weights wf → cell_at (coefficient_matrix wf) i j = Some s →
  ∀ t, t ∈ s → t ∈ keys (weights wf).
Proof.
  intros Hinv (row & Hrow & Hs)%cell_at_elem_of.
  unfold tiles_have_weights in Hinv. rewrite Forall_forall in Hinv.
  specialize (Hinv row Hrow). rewrite Forall_forall in Hinv. by apply Hinv.
Qed.

Lemma tiles_have_weights_shrinks (wf wf' : Wavefunction) :
  shrinks (coefficient_matrix wf) (coefficient_matrix wf') →
  weights wf' = weights wf →
  tiles_have_weights wf → tiles_have_weights wf'.
Proof.
  intros Hs Hw Hinv. unfold tiles_have_weights. rewrite Hw.
  apply Forall_forall. intros row Hrow. apply Forall_forall. intros s' Hs' t Ht.
  destruct (elem_of_cell_at _ _ _ Hrow Hs') as (i & j & Hc).
  pose proof (shrinks_cell _ _ i j Hs) as Hcell. rewrite Hc in Hcell.
  destruct (cell_at (coefficient_matrix wf) i j) as [s|] eqn:Hc0; [|done].
  eapply tiles_have_weights_cell; [done..|]. by apply Hcell.
Qed.

Lemma init_coefficient_matrix_eq (size : Z * Z) (tiles : list Tile) :
  init_coefficient_matrix size tiles =
  replicate (Z.to_nat size.2) (replicate (Z.to_nat size.1) (list_to_set tiles)).
Proof.
  unfold init_coefficient_matrix.
  assert (Hconst : ∀ {A : Type} (a : A) n,
            (λ _ : Z, a) <$> py_range n = replicate (Z.to_nat n) a).
  { intros A a n. unfold py_range. rewrite <- list_fmap_compose.
    generalize 0%nat. induction (Z.to_nat n) as [|k IH]; intros b; simpl;
      [done|]. by rewrite IH. }
  by rewrite !Hconst.
Qed.

Lemma mk_cells (size : Z * Z) (w : Weights) :
  Forall (Forall (λ sq : Coefficients, sq = list_to_set (keys w)))
         (coefficient_matrix (mk size w)).
Proof.
  simpl. rewrite init_coefficient_matrix_eq.
  apply Forall_replicate, Forall_replicate. done.
Qed.

Lemma mk_shape_ok (size : Z * Z) (w : Weights) :
  shape_ok size (coefficient_matrix (mk size w)).
Proof.
  simpl. rewrite init_coefficient_matrix_eq. split.
  - by rewrite length_replicate.
  - apply Forall_replicate. by rewrite length_replicate.
Qed.

Lemma mk_tiles_have_weights (size : Z * Z) (w : Weights) :
  tiles_have_weights (mk size w).
Proof.
  unfold tiles_have_weights. eapply Forall_impl; [apply mk_cells|].
  intros row Hrow. eapply Forall_impl; [exact Hrow|].
  intros sq -> t Ht. simpl. by apply elem_of_list_to_set in Ht.
Defined.

Lemma dict_get_Ok (w : Weights) (t : Tile) :
  t ∈ keys w → ∃ v, dict_get w t = Ok v.
Proof.
  unfold keys. induction w as [|[k v] w IH]; simpl; [by intros ?%elem_of_nil|].
  intros Hin. case_decide; [eauto|]. apply IH. set_solver.
Qed.

Lemma for_each_Raise {A S : Type} (body : S → A → result S) (l : list A)
    (s : S) (e : PyError) :
  for_each body l s = Raise e → ∃ a st, a ∈ l ∧ body st a = Raise e.
Proof.
  revert s. induction l as [|a l IH]; intros s; simpl; [done|].
  destruct (body s a) as [s'|e'] eqn:Hb; simpl.
  - intros (a' & st & Hin & Hr)%IH. exists a', st. set_solver.
  - intros [= <-]. exists a, s. set_solver.
Qed.

Lemma math_log_Raise `{FloatOps F} (n : Z) (e : PyError) :
  math_log n = Raise e → e = ValueError.
Proof. unfold math_log. case_bool_decide; congruence. Qed.

(** C10. [Wavefunction.mk] puts in every cell exactly the set of the keys
    of the weights; [collapse] and [constrain] keep every cell within
    that set; and while the cells are within it, [shannon_entropy] never
    fails to find a weight and the enumeration of [collapse] lists every
    possible tile of the cell with a weight. *)
Theorem possible_tiles_have_weights `{FloatOps F} :
  (∀ size w,
     Forall (Forall (λ sq : Coefficients, sq = list_to_set (keys w)))
            (coefficient_matrix (mk size w)) ∧
     weights (mk size w) = w ∧
     tiles_have_weights (mk size w)) ∧
  (∀ wf wf' c r, tiles_have_weights wf → collapse wf c r = Ok wf' →
     tiles_have_weights wf' ∧ weights wf' = weights wf) ∧
  (∀ wf wf' c t, tiles_have_weights wf → constrain wf c t = Ok wf' →
     tiles_have_weights wf' ∧ weights wf' = weights wf) ∧
  (∀ wf c, tiles_have_weights wf →
     shannon_entropy (F:=F) wf c ≠ Raise KeyError ∧
     ∀ s, get wf c = Ok s →
       (∀ t, t ∈ s → ∃ v, dict_get (weights wf) t = Ok v) ∧
       (∀ t, t ∈ s → t ∈ (filtered_tiles_with_weights wf s).*1)).
Proof.
  split; [|split; [|split]].
  - intros size w. split; [apply mk_cells|]. split; [done|].
    apply mk_tiles_have_weights.
  - intros wf wf' c r Hinv Hc.
    assert (Hw : weights wf' = weights wf).
    { by apply collapse_Ok in Hc as (? & ? & ? & ? & _ & _ & _ & _ & _ & ?). }
    split; [|done]. eapply tiles_have_weights_shrinks; [|done..].
    by eapply collapse_shrinks.
  - intros wf wf' c t Hinv Hc.
    assert (Hw : weights wf' = weights wf).
    { by apply constrain_Ok in Hc as (? & ? & ? & _ & _ & _ & _ & ?). }
    split; [|done]. eapply tiles_have_weights_shrinks; [|done..].
    by eapply constrain_shrinks.
  - intros wf c Hinv.
    assert (Hcell : ∀ s, get wf c = Ok s → ∀ t, t ∈ s → t ∈ keys (weights wf)).
    { intros s (i & j & _ & Hc)%get_Ok. by eapply tiles_have_weights_cell. }
    split.
    + unfold shannon_entropy. destruct (get wf c) as [s|e] eqn:Hget.
      * rewrite bind_Ok_l. specialize (Hcell s eq_refl).
        destruct (for_each _ (elements s) _) as [sums|e] eqn:Hloop.
        -- rewrite bind_Ok_l. destruct (math_log sums.1) as [l|e] eqn:Hlog.
           ++ rewrite bind_Ok_l.
              destruct (py_float sums.1) as [fs|e] eqn:Hfs; [done|].
              apply py_float_Raise in Hfs as [_ ->]. done.
           ++ simpl. apply math_log_Raise in Hlog as ->. done.
        -- simpl. intros [= ->].
           apply for_each_Raise in Hloop as (t & acc & Ht & Hbody).
           apply elem_of_elements, Hcell, dict_get_Ok in Ht as [v Hv].
           rewrite Hv, bind_Ok_l in Hbody.
           destruct (math_log v) as [l|e] eqn:Hlog.
           ++ rewrite bind_Ok_l in Hbody.
              destruct (py_float v) as [fv|e] eqn:Hfv; simpl in Hbody; [done|].
              apply py_float_Raise in Hfv as [_ Hfv]. congruence.
           ++ apply math_log_Raise in Hlog as ->. done.
      * simpl. apply get_raise in Hget as ->. done.
    + intros s Hget. specialize (Hcell s Hget). split.
      * intros t Ht. by apply dict_get_Ok, Hcell.
      * intros t Ht. apply filtered_elem_of. auto.
Qed.

(** ** [collapse] *)


Lemma pick_fits `{FloatOps F} (l : list (Tile * Z)) (v : F) (chosen : Tile) :
  Forall (λ tw : Tile * Z, fits tw.2) l → ∃ t, pick l v chosen = Ok t.
Proof.
  revert v. induction l as [|[t' w'] l IH]; intros v Hl; cbn [pick]; [eauto|].
  apply Forall_cons_1 in Hl as [Hw Hl]. simpl in Hw.
  rewrite (py_float_fits w') by done. rewrite bind_Ok_l. cbv zeta.
  destruct (flt _ _); eauto.
Qed.

Lemma pick_Raise `{FloatOps F} (l : list (Tile * Z)) (v : F) (chosen : Tile)
    (e : PyError) :
  pick l v chosen = Raise e →
  e = OverflowError ∧ ∃ tw, tw ∈ l ∧ ¬ fits tw.2.
Proof.
  revert v. induction l as [|[t' w'] l IH]; intros v; cbn [pick]; [done|].
  destruct (py_float w') as [fw|e'] eqn:Hfw.
  - rewrite bind_Ok_l. cbv zeta. destruct (flt _ _); [done|].
    intros [-> (tw & Hin & Htw)]%IH. split; [done|]. exists tw. set_solver.
  - simpl. intros [= <-]. apply py_float_Raise in Hfw as [Hno ->].
    split; [done|]. exists (t', w'). set_solver.
Qed.

Lemma filtered_nil (wf : Wavefunction) (s : Coefficients) :
  filtered_tiles_with_weights wf s = [] ↔
  ∀ t, t ∈ s → t ∉ keys (weights wf).
Proof.
  split.
  - intros Hnil t Ht Hk.
    assert (Hin : t ∈ (filtered_tiles_with_weights wf s).*1)
      by (by apply filtered_elem_of).
    rewrite Hnil in Hin. by apply elem_of_nil in Hin.
  - intros Hno.
    destruct (filtered_tiles_with_weights wf s) as [|[t w] l] eqn:Hf; [done|].
    exfalso.
    assert (Hin : t ∈ (filtered_tiles_with_weights wf s).*1)
      by (rewrite Hf; set_solver).
    apply filtered_elem_of in Hin as [Hs Hk]. by apply (Hno t).
Qed.



(** [collapse] written out at a cell that exists. *)
Lemma collapse_eq `{FloatOps F} (wf : Wavefunction) (c : Coordinates)
    (s : Coefficients) (r : Q) (i j : nat) :
  get wf c = Ok s →
  locate (coefficient_matrix wf) c = Ok (i, j) →
  collapse wf c r =
  (total ← py_float (py_sum (filtered_tiles_with_weights wf s).*2);
   first ← py_index (filtered_tiles_with_weights wf s) 0;
   chosen ← pick (filtered_tiles_with_weights wf s)
                 (fmul (float_of_draw r) total) first.1;
   Ok (mkWavefunction (set_at (coefficient_matrix wf) i j {[ chosen ]})
                      (weights wf))).
Proof.
  intros Hget Hl. unfold collapse. rewrite Hget, bind_Ok_l. cbv zeta.
  destruct (py_float _) as [total|e]; [rewrite !bind_Ok_l|done].
  destruct (py_index _ 0) as [first|e]; [rewrite !bind_Ok_l|done].
  destruct (pick _ _ _) as [chosen|e]; [rewrite !bind_Ok_l|done].
  by rewrite set_cell_locate, Hl.
Qed.

Lemma py_index_head {A : Type} (a : A) (l : list A) :
  py_index (a :: l) 0 = Ok a.
Proof.
  apply py_index_Ok. exists 0%nat. split; [|done].
  apply norm_index_nonneg. simpl. lia.
Qed.

(** [collapse] returns when some possible tile has a weight and the
    weights met convert to [float]. *)
Lemma collapse_fits `{FloatOps F} (wf : Wavefunction) (c : Coordinates)
    (s : Coefficients) (r : Q) :
  get wf c = Ok s →
  filtered_tiles_with_weights wf s ≠ [] →
  fits (py_sum (filtered_tiles_with_weights wf s).*2) →
  Forall (λ tw : Tile * Z, fits tw.2) (filtered_tiles_with_weights wf s) →
  ∃ wf', collapse wf c r = Ok wf'.
Proof.
  intros Hget Hne Htotal Hall.
  pose proof Hget as Hg. apply get_Ok in Hg as (i & j & Hl & _).
  rewrite (collapse_eq wf c s r i j Hget Hl).
  rewrite (py_float_fits _ Htotal), bind_Ok_l.
  destruct (filtered_tiles_with_weights wf s) as [|first rest] eqn:Hf; [done|].
  rewrite py_index_head, bind_Ok_l.
  destruct (pick_fits (first :: rest)
              (fmul (float_of_draw r)
                    (float_of_int (py_sum (first :: rest).*2)))
              first.1 Hall) as [t ->].
  rewrite bind_Ok_l. eauto.
Qed.

(** The exceptions of [collapse] at a cell that exists. *)
Lemma collapse_Raise `{FloatOps F} (wf : Wavefunction) (c : Coordinates)
    (s : Coefficients) (r : Q) (e : PyError) :
  get wf c = Ok s →
  collapse wf c r = Raise e →
  (e = IndexError ∧ filtered_tiles_with_weights wf s = []) ∨
  (e = OverflowError ∧
   (¬ fits (py_sum (filtered_tiles_with_weights wf s).*2) ∨
    ∃ tw, tw ∈ filtered_tiles_with_weights wf s ∧ ¬ fits tw.2)).
Proof.
  intros Hget.
  pose proof Hget as Hg. apply get_Ok in Hg as (i & j & Hl & _).
  rewrite (collapse_eq wf c s r i j Hget Hl).
  destruct (py_float _) as [total|e'] eqn:Htotal.
  - rewrite bind_Ok_l.
    destruct (filtered_tiles_with_weights wf s) as [|first rest] eqn:Hf.
    + intros [= <-]. by left.
    + rewrite py_index_head, bind_Ok_l.
      destruct (pick _ _ _) as [t|e'] eqn:Hp; [done|].
      simpl. intros [= <-]. apply pick_Raise in Hp as [-> Htw]. right. auto.
  - simpl. intros [= <-]. apply py_float_Raise in Htotal as [Hno ->].
    right. auto.
Qed.

Lemma collapse_no_candidate `{FloatOps F} (wf : Wavefunction) (c : Coordinates)
    (s : Coefficients) (r : Q) :
  get wf c = Ok s →
  filtered_tiles_with_weights wf s = [] →
  collapse wf c r = Raise IndexError.
Proof.
  intros Hget Hnil.
  pose proof Hget as Hg. apply get_Ok in Hg as (i & j & Hl & _).
  rewrite (collapse_eq wf c s r i j Hget Hl), Hnil.
  rewrite py_float_fits by (by vm_compute). done.
Qed.





(** ** [min_entropy_co_ords] *)

Lemma for_each_elem {A S : Type} (R : S → Prop) (body : S → A → result S)
    (l : list A) (a : A) (s s' : S) :
  a ∈ l →
  (∀ st st', body st a = Ok st' → R st') →
  (∀ b st st', b ∈ l → R st → body st b = Ok st' → R st') →
  for_each body l s = Ok s' → R s'.
Proof.
  intros Ha Hhit Hkeep. revert s Ha Hkeep.
  induction l as [|b l IH]; intros s Ha Hkeep; [by apply elem_of_nil in Ha|].
  simpl. intros (s1 & Hb & Hrun)%bind_Ok.
  apply elem_of_cons in Ha as [<-|Ha].
  - revert Hrun. apply for_each_inv; [by eapply Hhit|].
    intros b st st' Hin. apply Hkeep. set_solver.
  - apply (IH s1); [done| |done].
    intros b' st st' Hin. apply Hkeep. set_solver.
Qed.

Lemma for_each_skip {A S : Type} (body : S → A → result S) (l : list A) (s : S) :
  (∀ a, a ∈ l → body s a = Ok s) → for_each body l s = Ok s.
Proof.
  induction l as [|a l IH]; intros Hid; simpl; [done|].
  rewrite Hid by set_solver. rewrite bind_Ok_l. apply IH.
  intros b Hb. apply Hid. set_solver.
Qed.

Section min_entropy.
Context `{FloatOps F}.
Variable m : Model.

Lemma scan_cell_Ok (y x : Z) (st st' : scan_state F) :
  scan_cell m y st x = Ok st' →
  (collapsed m (y, x) ∧ st' = st) ∨
  (∃ s e, get (wavefunction m) (y, x) = Ok s ∧ size s ≠ 1%nat ∧
          (∃ e' : F, shannon_entropy (wavefunction m) (y, x) = Ok e') ∧
          st'.1.1 = Some e ∧
          (st'.1.2 = (y, x) ∨ (is_Some st.1.1 ∧ st'.1 = st.1))).
Proof.
  destruct st as [[min_entropy co] rng]. unfold scan_cell.
  intros (s & Hget & Hrest)%bind_Ok.
  case_bool_decide as Hsz.
  - left. injection Hrest as <-. split; [by exists s|done].
  - right. apply bind_Ok in Hrest as (e & He & Hrest).
    simpl in Hrest. destruct min_entropy as [e0|].
    + destruct (flt _ e0); injection Hrest as <-; simpl;
        eexists s, _; (do 2 (split; [done|])); (split; [by exists e|]);
        (split; [done|]); eauto.
    + injection Hrest as <-. simpl. eexists s, _.
      do 2 (split; [done|]). split; [by exists e|]. eauto.
Qed.

Lemma scan_cell_ok (y x : Z) (st st' : scan_state F) :
  0 ≤ y < (output_size m).2 → 0 ≤ x < (output_size m).1 →
  scan_ok m st → scan_cell m y st x = Ok st' → scan_ok m st'.
Proof.
  intros Hy Hx Hok [[_ ->]|(s & e & Hget & Hsz & He & Hmin & Hco)]%scan_cell_Ok;
    [done|].
  unfold scan_ok. rewrite Hmin. destruct Hco as [->|[[e0 He0] Heq]].
  - split; [done|]. by exists s.
  - unfold scan_ok in Hok. rewrite He0 in Hok. by rewrite Heq.
Qed.

Lemma scan_cell_seen (c : Coordinates) (y x : Z) (st st' : scan_state F) :
  scan_seen m c st → scan_cell m y st x = Ok st' → scan_seen m c st'.
Proof.
  intros Hs [[_ ->]|(s & e & _ & _ & _ & Hmin & _)]%scan_cell_Ok; [done|].
  left. by rewrite Hmin.
Qed.

Lemma scan_cell_hit (y x : Z) (st st' : scan_state F) :
  scan_cell m y st x = Ok st' → scan_seen m (y, x) st'.
Proof.
  intros [[Hc ->]|(s & e & _ & _ & _ & Hmin & _)]%scan_cell_Ok; [by right|].
  left. by rewrite Hmin.
Qed.

Lemma min_entropy_co_ords_scan (rng : Rng) :
  min_entropy_co_ords m rng = st ← scan_rows m rng; Ok (st.1.2, st.2).
Proof.
  unfold min_entropy_co_ords, scan_rows. by destruct (output_size m).
Qed.

Lemma scan_rows_ok (rng : Rng) (st : scan_state F) :
  scan_rows m rng = Ok st → scan_ok m st.
Proof.
  apply for_each_inv; [done|].
  intros y st1 st2 Hy%elem_of_py_range Hok. apply for_each_inv; [done|].
  intros x st3 st4 Hx%elem_of_py_range. by apply scan_cell_ok.
Qed.

Lemma scan_rows_seen (rng : Rng) (st : scan_state F) (c : Coordinates) :
  in_grid (output_size m) c → scan_rows m rng = Ok st → scan_seen m c st.
Proof.
  destruct c as [y x]. intros [Hy Hx]. simpl in *.
  apply (for_each_elem (scan_seen m (y, x)) _ _ y);
    [by apply elem_of_py_range| |].
  - intros st1 st2.
    apply (for_each_elem (scan_seen m (y, x)) _ _ x);
      [by apply elem_of_py_range|apply scan_cell_hit|].
    intros x' st3 st4 _. apply scan_cell_seen.
  - intros y' st1 st2 _ Hseen. apply for_each_inv; [done|].
    intros x' st3 st4 _. apply scan_cell_seen.
Qed.

Lemma scan_rows_all_collapsed (rng : Rng) :
  (∀ c, in_grid (output_size m) c → collapsed m c) →
  scan_rows m rng = Ok (None, (0, 0), rng).
Proof.
  intros Hall. apply for_each_skip. intros y Hy%elem_of_py_range.
  apply for_each_skip. intros x Hx%elem_of_py_range.
  destruct (Hall (y, x)) as (s & Hget & Hsz); [done|].
  unfold scan_cell. rewrite Hget, bind_Ok_l.
  by rewrite bool_decide_eq_true_2.
Qed.

Lemma min_entropy_co_ords_Ok (rng rng' : Rng) (co_ords : Coordinates) :
  min_entropy_co_ords m rng = Ok (co_ords, rng') →
  uncollapsed m co_ords ∨
  (co_ords = (0, 0) ∧ ∀ c, in_grid (output_size m) c → collapsed m c).
Proof.
  rewrite min_entropy_co_ords_scan.
  intros (st & Hscan & [= <- <-])%bind_Ok.
  pose proof (scan_rows_ok _ _ Hscan) as Hok. unfold scan_ok in Hok.
  destruct (st.1.1) as [e|] eqn:Hmin; [by left|]. right.
  split; [done|]. intros c Hc.
  destruct (scan_rows_seen _ _ c Hc Hscan) as [[e He]|Hcol]; [|done].
  congruence.
Qed.

(** C6. The co-ordinates [min_entropy_co_ords] returns are those of a
    cell of the grid whose possibility set does not have size 1 (and
    whose entropy was computed), except when every cell of the grid is
    collapsed: then, and only then, it returns the default [(0, 0)],
    without consuming any random draw. *)
Theorem min_entropy_co_ords_uncollapsed (rng : Rng) :
  (∀ co_ords rng',
     min_entropy_co_ords m rng = Ok (co_ords, rng') →
     uncollapsed m co_ords ∨
     (co_ords = (0, 0) ∧ ∀ c, in_grid (output_size m) c → collapsed m c)) ∧
  ((∀ c, in_grid (output_size m) c → collapsed m c) →
   min_entropy_co_ords m rng = Ok ((0, 0), rng)).
Proof.
  split.
  - intros co rng'. apply min_entropy_co_ords_Ok.
  - intros Hall.
    by rewrite min_entropy_co_ords_scan, scan_rows_all_collapsed.
Qed.
End min_entropy.

(** ** Termination of [propagate] *)

Lemma set_at_insert (M : CoefficientMatrix) (i j : nat) (v : Coefficients)
    (row : list Coefficients) :
  M !! i = Some row → set_at M i j v = <[i := <[j := v]> row]> M.
Proof.
  intros Hr. unfold set_at. apply list_eq. intros k.
  destruct (decide (k = i)) as [->|Hne].
  - rewrite list_lookup_insert_eq by (by eapply lookup_lt_Some).
    by rewrite list_lookup_alter_eq, Hr.
  - by rewrite list_lookup_insert_ne, list_lookup_alter_ne.
Qed.

Lemma sum_list_fmap_insert {A : Type} (f : A → nat) (l : list A) (j : nat)
    (a old : A) :
  l !! j = Some old →
  (sum_list (f <$> <[j := a]> l) + f old = sum_list (f <$> l) + f a)%nat.
Proof.
  revert j. induction l as [|b l IH]; intros [|j] Hj; csimpl in *; try done.
  - injection Hj as ->. lia.
  - specialize (IH j Hj). lia.
Qed.

Lemma total_size_set_at (wf : Wavefunction) (i j : nat) (s v : Coefficients)
    (w : Weights) :
  cell_at (coefficient_matrix wf) i j = Some s →
  (total_size (mkWavefunction (set_at (coefficient_matrix wf) i j v) w) + size s
   = total_size wf + size v)%nat.
Proof.
  unfold cell_at, total_size. simpl.
  destruct (coefficient_matrix wf !! i) as [row|] eqn:Hr; [|done]. simpl.
  intros Hs. rewrite (set_at_insert _ _ _ _ row) by done.
  pose proof (sum_list_fmap_insert
    (λ row : list Coefficients, sum_list (size <$> row))
    (coefficient_matrix wf) i (<[j := v]> row) row Hr) as Hout.
  pose proof (sum_list_fmap_insert size row j v s Hs) as Hin.
  simpl in Hout. lia.
Qed.

Lemma constrain_total_size (wf wf' : Wavefunction) (c : Coordinates) (t : Tile) :
  constrain wf c t = Ok wf' → (total_size wf' + 1 = total_size wf)%nat.
Proof.
  intros (i & j & s & _ & Hc & Ht & HM & Hw)%constrain_Ok.
  destruct wf' as [M' w']. simpl in *. subst M' w'.
  pose proof (total_size_set_at wf i j s (s ∖ {[ t ]}) (weights wf) Hc) as Hsz.
  assert (size s = (size ({[ t ]} : gset string) + size (s ∖ {[ t ]}))%nat)
    as Hsplit.
  { rewrite <- size_union by set_solver.
    f_equal. apply set_eq. intros t'. rewrite elem_of_union, elem_of_difference.
    rewrite elem_of_singleton. destruct (decide (t' = t)); naive_solver. }
  rewrite size_singleton in Hsplit. lia.
Qed.

Lemma prop_conserves_refl (st : prop_state) : prop_conserves st st.
Proof. split; [done|]. split; [apply shrinks_refl|done]. Qed.

Lemma prop_conserves_trans (st1 st2 st3 : prop_state) :
  prop_conserves st1 st2 → prop_conserves st2 st3 → prop_conserves st1 st3.
Proof.
  intros (Hn & Hs & Hw) (Hn' & Hs' & Hw'). split; [lia|].
  split; [by eapply shrinks_trans|congruence].
Qed.

Lemma propagate_tile_conserves (o : CompatibilityOracle) (cur other : Coordinates)
    (d : Direction) (st st' : prop_state) (t : Tile) :
  propagate_tile o cur d other st t = Ok st' → prop_conserves st st'.
Proof.
  destruct st as [wf stack]. unfold propagate_tile.
  intros (s & _ & Hrest)%bind_Ok. destruct (existsb _ _).
  - injection Hrest as <-. apply prop_conserves_refl.
  - apply bind_Ok in Hrest as (wf' & Hc & [= <-]).
    pose proof (constrain_total_size _ _ _ _ Hc).
    split; [simpl; lia|]. split; [by eapply constrain_shrinks|].
    by apply constrain_Ok in Hc as (? & ? & ? & _ & _ & _ & _ & ?).
Qed.

Lemma propagate_dir_conserves (o : CompatibilityOracle) (cur : Coordinates)
    (st st' : prop_state) (d : Direction) :
  propagate_dir o cur st d = Ok st' → prop_conserves st st'.
Proof.
  unfold propagate_dir. intros (s & _ & Hloop)%bind_Ok. revert Hloop.
  apply for_each_inv; [apply prop_conserves_refl|].
  intros t st1 st2 _ H1 Ht. eapply prop_conserves_trans; [exact H1|].
  by eapply propagate_tile_conserves.
Qed.

Lemma propagate_step_conserves (m : Model) (st st' : prop_state)
    (cur : Coordinates) :
  propagate_step m st cur = Ok st' → prop_conserves st st'.
Proof.
  unfold propagate_step. intros (s & _ & Hloop)%bind_Ok. revert Hloop.
  apply for_each_inv; [apply prop_conserves_refl|].
  intros t st1 st2 _ H1 Ht. eapply prop_conserves_trans; [exact H1|].
  by eapply propagate_dir_conserves.
Qed.

Lemma propagate_loop_terminates (m : Model) (fuel : nat) (wf : Wavefunction)
    (stack : list Coordinates) :
  (propagate_bound wf stack ≤ fuel)%nat →
  ∃ r, propagate_loop fuel m wf stack = Some r.
Proof.
  revert wf stack. induction fuel as [|fuel IH]; intros wf stack Hb.
  - destruct stack as [|c stack]; simpl; [eauto|].
    unfold propagate_bound in Hb. simpl in Hb. lia.
  - destruct stack as [|c stack]; simpl; [eauto|].
    destruct (propagate_step m (wf, stack) c) as [[wf' stack']|e] eqn:Hstep;
      [|eauto].
    apply IH. apply propagate_step_conserves in Hstep as (Hn & _).
    unfold propagate_bound in *. simpl in *. lia.
Qed.

Lemma propagate_loop_more_fuel (m : Model) (fuel fuel' : nat)
    (wf : Wavefunction) (stack : list Coordinates) (r : result Wavefunction) :
  propagate_loop fuel m wf stack = Some r → (fuel ≤ fuel')%nat →
  propagate_loop fuel' m wf stack = Some r.
Proof.
  revert fuel' wf stack. induction fuel as [|fuel IH]; intros fuel' wf stack.
  - destruct stack; simpl; [|done]. by destruct fuel'.
  - destruct stack as [|c stack]; [by destruct fuel'|].
    intros Hrun Hle. destruct fuel' as [|fuel']; [lia|]. simpl in *.
    destruct (propagate_step m (wf, stack) c) as [[wf' stack']|e]; [|done].
    apply IH; [done|lia].
Qed.

Lemma propagate_loop_shrinks (m : Model) (fuel : nat) (wf wf' : Wavefunction)
    (stack : list Coordinates) :
  propagate_loop fuel m wf stack = Some (Ok wf') →
  shrinks (coefficient_matrix wf) (coefficient_matrix wf') ∧
  weights wf' = weights wf.
Proof.
  revert wf stack. induction fuel as [|fuel IH]; intros wf stack.
  - destruct stack; simpl; [|done]. intros [= <-].
    split; [apply shrinks_refl|done].
  - destruct stack as [|c stack]; simpl.
    { intros [= <-]. split; [apply shrinks_refl|done]. }
    destruct (propagate_step m (wf, stack) c) as [[wf1 stack1]|e] eqn:Hstep;
      [|done].
    intros [Hs Hw]%IH. apply propagate_step_conserves in Hstep as (_ & Hs1 & Hw1).
    simpl in *. split; [by eapply shrinks_trans|congruence].
Qed.

(** ** Termination of [run] *)

Lemma sum_list_Forall2_le {A : Type} (R : A → A → Prop) (g : A → nat)
    (l l' : list A) :
  Forall2 R l l' → (∀ a b, R a b → (g b ≤ g a)%nat) →
  (sum_list (g <$> l') ≤ sum_list (g <$> l))%nat.
Proof.
  intros HF Hg. induction HF as [|a b l l' Hab _ IH]; csimpl; [done|].
  specialize (Hg a b Hab). lia.
Qed.

Lemma sum_list_Forall2_lt {A : Type} (R : A → A → Prop) (g : A → nat)
    (l l' : list A) (i : nat) (a b : A) :
  Forall2 R l l' → (∀ a b, R a b → (g b ≤ g a)%nat) →
  l !! i = Some a → l' !! i = Some b → (g b < g a)%nat →
  (sum_list (g <$> l') < sum_list (g <$> l))%nat.
Proof.
  intros HF Hg. revert i.
  induction HF as [|a' b' l l' Hab HF IH]; intros [|i] Ha Hb Hlt;
    csimpl in *; try done.
  - simplify_eq. pose proof (sum_list_Forall2_le R g l l' HF Hg). lia.
  - specialize (IH i Ha Hb Hlt). specialize (Hg a' b' Hab). lia.
Qed.

Lemma open_cell_mono (s s' : Coefficients) :
  s' ⊆ s → (open_cell s' ≤ open_cell s)%nat.
Proof.
  intros Hsub%subseteq_size. unfold open_cell.
  destruct (1 <? size s')%nat eqn:E', (1 <? size s)%nat eqn:E; try lia.
  apply Nat.ltb_lt in E'. apply Nat.ltb_ge in E. lia.
Qed.

Lemma open_row_mono (row row' : list Coefficients) :
  Forall2 (λ old new : Coefficients, new ⊆ old) row row' →
  (open_row row' ≤ open_row row)%nat.
Proof.
  intros HF. eapply sum_list_Forall2_le; [exact HF|]. apply open_cell_mono.
Qed.

Lemma shrinks_open_cells_lt (M M' : CoefficientMatrix) (i j : nat)
    (s s' : Coefficients) :
  shrinks M M' →
  cell_at M i j = Some s → (1 < size s)%nat →
  cell_at M' i j = Some s' → (size s' ≤ 1)%nat →
  (open_cells M' < open_cells M)%nat.
Proof.
  intros HF Hc Hs Hc' Hs'. unfold cell_at in Hc, Hc'.
  destruct (M !! i) as [row|] eqn:Hr; [|done].
  destruct (M' !! i) as [row'|] eqn:Hr'; [|done]. simpl in *.
  pose proof (Forall2_lookup_lr _ _ _ _ _ _ HF Hr Hr') as Hrow.
  apply (sum_list_Forall2_lt _ open_row M M' i row row' HF open_row_mono Hr Hr').
  apply (sum_list_Forall2_lt _ open_cell row row' j s s' Hrow open_cell_mono
           Hc Hc').
  unfold open_cell.
  apply Nat.ltb_lt in Hs. apply Nat.ltb_ge in Hs'. rewrite Hs, Hs'. lia.
Qed.

Lemma open_cells_pos (wf : Wavefunction) :
  is_fully_collapsed wf = false → (0 < open_cells (coefficient_matrix wf))%nat.
Proof.
  unfold is_fully_collapsed, open_cells.
  induction (coefficient_matrix wf) as [|row M IH]; csimpl; [done|].
  intros [Hrow|HM]%andb_false_iff; [|specialize (IH HM); lia].
  clear IH. unfold open_row.
  induction row as [|sq row IH]; csimpl in *; [done|].
  apply andb_false_iff in Hrow as [Hsq|Hrow]; [|specialize (IH Hrow); lia].
  apply negb_false_iff in Hsq.
  assert (open_cell sq = 1%nat) as ->; [|lia].
  unfold open_cell. by rewrite Hsq.
Qed.

Lemma open_cells_le_cell_count (wf : Wavefunction) :
  (open_cells (coefficient_matrix wf) ≤ cell_count wf)%nat.
Proof.
  unfold open_cells, cell_count.
  induction (coefficient_matrix wf) as [|row M IH]; csimpl; [done|].
  assert (open_row row ≤ length row)%nat; [|lia].
  clear. unfold open_row. induction row as [|sq row IH]; csimpl; [done|].
  assert (open_cell sq ≤ 1)%nat; [|lia].
  unfold open_cell. destruct (1 <? size sq)%nat; lia.
Qed.

Lemma shrinks_shape_ok (size : Z * Z) (M M' : CoefficientMatrix) :
  shrinks M M' → shape_ok size M → shape_ok size M'.
Proof.
  intros HF [Hh Hw]. split; [by rewrite <- (Forall2_length _ _ _ HF)|].
  clear Hh. induction HF as [|row row' M M' Hrow _ IH]; [done|].
  apply Forall_cons_1 in Hw as [Hlen Hw]. constructor; [|by apply IH].
  by rewrite <- (Forall2_length _ _ _ Hrow).
Qed.

Lemma get_in_grid (size : Z * Z) (wf : Wavefunction) (c : Coordinates)
    (s : Coefficients) :
  shape_ok size (coefficient_matrix wf) → in_grid size c →
  get wf c = Ok s ↔
  cell_at (coefficient_matrix wf) (Z.to_nat c.1) (Z.to_nat c.2) = Some s.
Proof.
  intros Hshape Hc. rewrite get_Ok, (locate_in_grid size) by done.
  split; [by intros (i & j & [= <- <-] & Hcell)|eauto].
Qed.

Lemma cell_at_in_grid (size : Z * Z) (M : CoefficientMatrix) (i j : nat) :
  shape_ok size M → is_Some (cell_at M i j) →
  in_grid size (Z.of_nat i, Z.of_nat j).
Proof.
  intros [Hh Hw] [s Hs]. unfold cell_at in Hs.
  destruct (M !! i) as [row|] eqn:Hr; [|done]. simpl in Hs.
  rewrite Forall_forall in Hw.
  pose proof (Hw row (list_elem_of_lookup_2 _ _ _ Hr)) as Hlen.
  apply lookup_lt_Some in Hr, Hs. unfold in_grid. simpl. lia.
Qed.

Lemma shannon_entropy_nonempty `{FloatOps F} (wf : Wavefunction)
    (c : Coordinates) (s : Coefficients) (e : F) :
  get wf c = Ok s → shannon_entropy wf c = Ok e → s ≠ ∅.
Proof.
  intros Hget He ->. unfold shannon_entropy in He.
  rewrite Hget, bind_Ok_l, elements_empty in He. simpl in He.
  unfold math_log in He. simpl in He. done.
Qed.

Lemma propagate_terminates (m : Model) (co_ords : Coordinates) :
  ∃ r, propagate m co_ords = Some r.
Proof.
  unfold propagate.
  destruct (propagate_loop_terminates m
              (propagate_bound (wavefunction m) [co_ords])
              (wavefunction m) [co_ords]) as [r ->]; [done|].
  destruct r; eauto.
Qed.

Lemma propagate_Ok (m m' : Model) (co_ords : Coordinates) :
  propagate m co_ords = Some (Ok m') →
  output_size m' = output_size m ∧
  compatibility_oracle m' = compatibility_oracle m ∧
  shrinks (coefficient_matrix (wavefunction m))
          (coefficient_matrix (wavefunction m')) ∧
  weights (wavefunction m') = weights (wavefunction m).
Proof.
  unfold propagate.
  destruct (propagate_loop _ m _ _) as [[wf|e]|] eqn:Hloop; [|done..].
  intros [= <-]. apply propagate_loop_shrinks in Hloop. done.
Qed.

Lemma all_collapsed_fully `{FloatOps F} (m : Model) :
  shape_ok (output_size m) (coefficient_matrix (wavefunction m)) →
  (∀ c, in_grid (output_size m) c → collapsed m c) →
  is_fully_collapsed (wavefunction m) = true.
Proof.
  intros Hshape Hall.
  apply is_fully_collapsed_true. apply Forall_forall. intros row Hrow.
  apply Forall_forall. intros sq Hsq.
  destruct (elem_of_cell_at _ _ _ Hrow Hsq) as (i' & j' & Hcell).
  assert (Hin : in_grid (output_size m) (Z.of_nat i', Z.of_nat j')).
  { eapply cell_at_in_grid; [done|]. by rewrite Hcell. }
  destruct (Hall _ Hin) as (s' & Hget & Hsize).
  apply (get_in_grid (output_size m)) in Hget; [|done..].
  simpl in Hget. rewrite !Nat2Z.id in Hget.
  assert (s' = sq) as -> by congruence. lia.
Qed.

Section run_termination.
Context `{FloatOps F}.

Lemma iterate_terminates (m : Model) (rng : Rng) :
  ∃ r, iterate (F:=F) m rng = Some r.
Proof.
  unfold iterate.
  destruct (min_entropy_co_ords m rng) as [[co rng1]|e]; [|eauto].
  destruct (draw rng1) as [r rng2].
  destruct (collapse (wavefunction m) co r) as [wf|e]; [|eauto].
  destruct (propagate_terminates (with_wavefunction m wf) co) as [[m'|e] ->];
    eauto.
Qed.

(** A call of [iterate] that returns was made at a cell with at least
    two possible tiles, which it leaves with at most one. *)
Lemma iterate_Ok (m m' : Model) (rng rng' : Rng) :
  shape_ok (output_size m) (coefficient_matrix (wavefunction m)) →
  is_fully_collapsed (wavefunction m) = false →
  iterate (F:=F) m rng = Some (Ok (m', rng')) →
  output_size m' = output_size m ∧
  compatibility_oracle m' = compatibility_oracle m ∧
  weights (wavefunction m') = weights (wavefunction m) ∧
  shrinks (coefficient_matrix (wavefunction m))
          (coefficient_matrix (wavefunction m')) ∧
  (open_cells (coefficient_matrix (wavefunction m')) <
   open_cells (coefficient_matrix (wavefunction m)))%nat.
Proof.
  intros Hshape Hopen. unfold iterate.
  destruct (min_entropy_co_ords m rng) as [[co rng1]|e] eqn:Hmin; [|done].
  destruct (draw rng1) as [r rng2].
  destruct (collapse (wavefunction m) co r) as [wf|e] eqn:Hcol; [|done].
  destruct (propagate (with_wavefunction m wf) co) as [[m1|e]|] eqn:Hprop;
    [|done..].
  intros [= <- <-].
  apply propagate_Ok in Hprop as (Hsz & Ho & Hs2 & Hw2). simpl in *.
  pose proof (collapse_shrinks _ _ _ _ Hcol) as Hs1.
  apply collapse_Ok in Hcol
    as (i & j & s & t & Hl & Hc & Ht & _ & HM & Hw1).
  split; [done|]. split; [done|]. split; [congruence|].
  split; [by eapply shrinks_trans|].
  destruct (min_entropy_co_ords_Ok m _ _ _ Hmin)
    as [(Hin & s0 & Hget & Hne1 & e & He)|[_ Hall]].
  - pose proof (shannon_entropy_nonempty _ _ _ _ Hget He) as Hne0.
    apply get_Ok in Hget as (i0 & j0 & Hl0 & Hc0).
    assert (i0 = i ∧ j0 = j) as [-> ->] by (split; congruence).
    assert (s0 = s) as -> by congruence.
    assert (Hcell1 : cell_at (coefficient_matrix wf) i j = Some {[ t ]}).
    { rewrite HM, cell_at_set_at by (by rewrite Hc). by rewrite decide_True. }
    pose proof (shrinks_cell _ _ i j Hs2) as Hcell2. rewrite Hcell1 in Hcell2.
    destruct (cell_at (coefficient_matrix (wavefunction m1)) i j)
      as [s2|] eqn:Hc2; [|done].
    eapply (shrinks_open_cells_lt _ _ i j s s2);
      [by eapply shrinks_trans|done| |done|].
    + assert (size s ≠ 0%nat); [|lia].
      intros H0. apply size_empty_iff in H0. apply Hne0.
      by apply leibniz_equiv.
    + apply subseteq_size in Hcell2. by rewrite size_singleton in Hcell2.
  - rewrite all_collapsed_fully in Hopen; done.
Qed.

Lemma run_loop_terminates (fuel : nat) (m : Model) (rng : Rng) :
  shape_ok (output_size m) (coefficient_matrix (wavefunction m)) →
  (open_cells (coefficient_matrix (wavefunction m)) ≤ fuel)%nat →
  ∃ r, run_loop (F:=F) fuel m rng = Some r.
Proof.
  revert m rng. induction fuel as [|fuel IH]; intros m rng Hshape Hfuel.
  - simpl. destruct (is_fully_collapsed (wavefunction m)) eqn:Hfc; [eauto|].
    apply open_cells_pos in Hfc. lia.
  - simpl. destruct (is_fully_collapsed (wavefunction m)) eqn:Hfc; [eauto|].
    destruct (iterate_terminates m rng) as [[[m' rng']|e] Hit];
      rewrite Hit; [|eauto].
    destruct (iterate_Ok _ _ _ _ Hshape Hfc Hit) as (Hsz & _ & _ & Hs & Hlt).
    apply IH; [|lia]. rewrite Hsz. by eapply shrinks_shape_ok.
Qed.

Lemma run_loop_more_fuel (fuel fuel' : nat) (m : Model) (rng : Rng)
    (r : result (list (list Tile))) :
  run_loop (F:=F) fuel m rng = Some r → (fuel ≤ fuel')%nat →
  run_loop (F:=F) fuel' m rng = Some r.
Proof.
  revert fuel' m rng. induction fuel as [|fuel IH]; intros fuel' m rng.
  - simpl. destruct (is_fully_collapsed (wavefunction m)) eqn:Hfc; [|done].
    intros Hr _. destruct fuel'; simpl; by rewrite Hfc.
  - intros Hrun Hle. destruct fuel' as [|fuel']; [lia|]. simpl in *.
    destruct (is_fully_collapsed (wavefunction m)); [done|].
    destruct (iterate m rng) as [[[m' rng']|e]|]; [|done..].
    apply IH; [done|lia].
Qed.

(** C4. The loop of [propagate] ends within as many turns as there are
    co-ordinates on the stack plus tiles still possible in the grid,
    whatever the wavefunction and the stack, so [propagate] always
    finishes; and on a model whose matrix has the shape of its output
    size, as [Model.__init__] builds it, [run] finishes, with a grid or
    an exception, after at most as many calls of [iterate] as the grid
    has cells. *)
Theorem propagate_and_run_terminate :
  (∀ m wf stack fuel,
     (propagate_bound wf stack ≤ fuel)%nat →
     ∃ r, propagate_loop fuel m wf stack = Some r ∧
          propagate_loop (propagate_bound wf stack) m wf stack = Some r) ∧
  (∀ m co_ords, ∃ r, propagate m co_ords = Some r) ∧
  (∀ m rng fuel,
     shape_ok (output_size m) (coefficient_matrix (wavefunction m)) →
     (cell_count (wavefunction m) ≤ fuel)%nat →
     ∃ r, run_loop (F:=F) fuel m rng = Some r ∧ run (F:=F) m rng = Some r) ∧
  (∀ size w o,
     shape_ok (output_size (Model_init size w o))
              (coefficient_matrix (wavefunction (Model_init size w o))) ∧
     cell_count (wavefunction (Model_init size w o)) =
       (Z.to_nat size.2 * Z.to_nat size.1)%nat).
Proof.
  split; [|split; [|split]].
  - intros m wf stack fuel Hfuel.
    destruct (propagate_loop_terminates m _ wf stack (Nat.le_refl _))
      as [r Hr].
    exists r. split; [|done]. by eapply propagate_loop_more_fuel.
  - apply propagate_terminates.
  - intros m rng fuel Hshape Hfuel.
    destruct (run_loop_terminates (cell_count (wavefunction m)) m rng)
      as [r Hr]; [done|apply open_cells_le_cell_count|].
    exists r. split; [|done]. by eapply run_loop_more_fuel.
  - intros size w o. split; [apply mk_shape_ok|].
    unfold cell_count. simpl. rewrite init_coefficient_matrix_eq.
    rewrite fmap_replicate, length_replicate, sum_list_replicate. done.
Qed.
End run_termination.

(** ** Local consistency *)

Lemma in_grid_cell (size : Z * Z) (M : CoefficientMatrix) (c : Coordinates) :
  shape_ok size M → in_grid size c →
  is_Some (cell_at M (Z.to_nat c.1) (Z.to_nat c.2)).
Proof.
  intros Hshape Hc. eapply locate_cell. by eapply locate_in_grid.
Qed.

Lemma get_tiles_at (size : Z * Z) (wf : Wavefunction) (c : Coordinates) :
  shape_ok size (coefficient_matrix wf) → in_grid size c →
  get wf c = Ok (tiles_at wf c).
Proof.
  intros Hshape Hc. apply (get_in_grid size); [done..|].
  unfold tiles_at.
  by destruct (in_grid_cell size _ c Hshape Hc) as [s ->].
Qed.

Lemma in_grid_to_nat_inj (size : Z * Z) (c c' : Coordinates) :
  in_grid size c → in_grid size c' →
  (Z.to_nat c'.1, Z.to_nat c'.2) = (Z.to_nat c.1, Z.to_nat c.2) → c' = c.
Proof.
  destruct c, c'. unfold in_grid. simpl. intros ? ? [= ? ?]. f_equal; lia.
Qed.

Lemma shrinks_tiles_at (wf wf' : Wavefunction) (c : Coordinates) :
  shrinks (coefficient_matrix wf) (coefficient_matrix wf') →
  tiles_at wf' c ⊆ tiles_at wf c.
Proof.
  intros Hs. unfold tiles_at.
  pose proof (shrinks_cell _ _ (Z.to_nat c.1) (Z.to_nat c.2) Hs) as Hc.
  destruct (cell_at (coefficient_matrix wf) _ _),
           (cell_at (coefficient_matrix wf') _ _); simpl; done.
Qed.

(** Writing into a cell of the grid changes that cell and no other. *)
Lemma tiles_at_set_at (size : Z * Z) (wf wf' : Wavefunction)
    (c c' : Coordinates) (v : Coefficients) :
  shape_ok size (coefficient_matrix wf) → in_grid size c → in_grid size c' →
  coefficient_matrix wf' =
    set_at (coefficient_matrix wf) (Z.to_nat c.1) (Z.to_nat c.2) v →
  tiles_at wf' c' = if decide (c' = c) then v else tiles_at wf c'.
Proof.
  intros Hshape Hc Hc' HM. unfold tiles_at. rewrite HM.
  rewrite cell_at_set_at by (by eapply in_grid_cell).
  destruct (decide (c' = c)) as [->|Hne].
  - by rewrite decide_True.
  - rewrite decide_False; [done|].
    intros Heq. apply Hne. by eapply in_grid_to_nat_inj.
Qed.

Lemma constrain_in_grid (size : Z * Z) (wf wf' : Wavefunction)
    (c : Coordinates) (t : Tile) :
  shape_ok size (coefficient_matrix wf) → in_grid size c →
  constrain wf c t = Ok wf' →
  t ∈ tiles_at wf c ∧
  shape_ok size (coefficient_matrix wf') ∧
  ∀ c', in_grid size c' →
        tiles_at wf' c' =
        if decide (c' = c) then tiles_at wf c ∖ {[ t ]} else tiles_at wf c'.
Proof.
  intros Hshape Hc Hcon.
  pose proof (constrain_shrinks _ _ _ _ Hcon) as Hs.
  apply constrain_Ok in Hcon as (i & j & s & Hl & Hcell & Ht & HM & _).
  rewrite (locate_in_grid size) in Hl by done. injection Hl as <- <-.
  assert (Hs0 : tiles_at wf c = s) by (unfold tiles_at; by rewrite Hcell).
  rewrite Hs0. split; [done|]. split; [by eapply shrinks_shape_ok|].
  intros c' Hc'. by eapply tiles_at_set_at.
Qed.

Lemma collapse_in_grid `{FloatOps F} (size : Z * Z) (wf wf' : Wavefunction)
    (c : Coordinates) (r : Q) :
  shape_ok size (coefficient_matrix wf) → in_grid size c →
  collapse wf c r = Ok wf' →
  shape_ok size (coefficient_matrix wf') ∧
  ∃ t, t ∈ tiles_at wf c ∧
       ∀ c', in_grid size c' →
             tiles_at wf' c' = if decide (c' = c) then {[ t ]} else tiles_at wf c'.
Proof.
  intros Hshape Hc Hcol.
  pose proof (collapse_shrinks _ _ _ _ Hcol) as Hs.
  apply collapse_Ok in Hcol as (i & j & s & t & Hl & Hcell & Ht & _ & HM & _).
  rewrite (locate_in_grid size) in Hl by done. injection Hl as <- <-.
  split; [by eapply shrinks_shape_ok|]. exists t. split.
  - unfold tiles_at. by rewrite Hcell.
  - intros c' Hc'. by eapply tiles_at_set_at.
Qed.

Section consistency.
Variable o : CompatibilityOracle.
Variable size : Z * Z.

Lemma valid_dirs_neighbour (c : Coordinates) (d : Direction) :
  in_grid size c → d ∈ valid_dirs c size →
  in_grid size (neighbour c d) ∧ neighbour c d ≠ c.
Proof.
  destruct c as [y x], size as [width height]. intros [Hy Hx] Hd.
  simpl in *.
  destruct (valid_dirs_in_grid y x width height d Hy Hx Hd) as [HD Hg].
  split; [done|].
  unfold neighbour, DIRS, UP, DOWN, LEFT, RIGHT in *. simpl.
  intros [= ? ?]. set_solver by lia.
Qed.

Lemma supported_mono (wf wf' : Wavefunction) (c : Coordinates) (d : Direction) :
  tiles_at wf' c = tiles_at wf c →
  tiles_at wf' (neighbour c d) ⊆ tiles_at wf (neighbour c d) →
  supported o wf c d → supported o wf' c d.
Proof.
  intros Hc Hn Hsup t' Ht'. rewrite Hc. apply Hsup. by apply Hn.
Qed.

Lemma settled_mono (wf wf' : Wavefunction) (c : Coordinates) :
  tiles_at wf' c = tiles_at wf c →
  (∀ c', in_grid size c' → tiles_at wf' c' ⊆ tiles_at wf c') →
  in_grid size c → settled o size wf c → settled o size wf' c.
Proof.
  intros Hc Hsub Hin Hset d Hd. eapply supported_mono; [done| |by apply Hset].
  apply Hsub. by apply valid_dirs_neighbour.
Qed.
End consistency.

Section propagation.
Variable o : CompatibilityOracle.
Variable size : Z * Z.

Notation shaped wf := (shape_ok size (coefficient_matrix wf)).

Lemma propagate_tile_spec (wf wf' : Wavefunction)
    (stack stack' : list Coordinates) (cur other : Coordinates)
    (d : Direction) (t : Tile) :
  shaped wf → in_grid size cur → in_grid size other →
  propagate_tile o cur d other (wf, stack) t = Ok (wf', stack') →
  (has_support o wf cur d t ∧ wf' = wf ∧ stack' = stack) ∨
  (¬ has_support o wf cur d t ∧ t ∈ tiles_at wf other ∧
   stack' = other :: stack ∧ shaped wf' ∧
   ∀ c, in_grid size c →
        tiles_at wf' c =
        if decide (c = other) then tiles_at wf other ∖ {[ t ]}
        else tiles_at wf c).
Proof.
  intros Hshape Hcur Hother. unfold propagate_tile.
  rewrite (get_tiles_at size) by done. rewrite bind_Ok_l.
  destruct (existsb _ _) eqn:Hex.
  - intros [= <- <-]. left. split; [|done].
    apply existsb_exists in Hex as (a & Ha & Hchk). exists a.
    split; [|done]. by apply elem_of_elements, list_elem_of_In.
  - intros (wf1 & Hcon & [= <- <-])%bind_Ok. right.
    destruct (constrain_in_grid size _ _ _ _ Hshape Hother Hcon)
      as (Ht & Hshape' & Htiles).
    split; [|done]. intros (a & Ha & Hchk).
    assert (existsb (λ cur_tile, check o cur_tile t d)
                    (elements (tiles_at wf cur)) = true); [|congruence].
    apply existsb_exists. exists a. split; [|done].
    by apply list_elem_of_In, elem_of_elements.
Qed.

Lemma dir_inv_step (wf : Wavefunction) (stack : list Coordinates)
    (cur other : Coordinates) (d : Direction) (pre : list Tile)
    (st st' : prop_state) (t : Tile) :
  in_grid size cur → in_grid size other → other ≠ cur →
  dir_inv o size wf stack cur other d pre st →
  propagate_tile o cur d other st t = Ok st' →
  dir_inv o size wf stack cur other d (pre ++ [t]) st'.
Proof.
  intros Hcur Hother Hne (Hshape & Hrest & Hsub & Hsup & Hstack).
  destruct st as [wf1 stack1], st' as [wf2 stack2]. simpl in *.
  assert (Hcur1 : tiles_at wf1 cur = tiles_at wf cur) by (by apply Hrest).
  intros Hstep. apply propagate_tile_spec in Hstep; [|done..].
  destruct Hstep as [(Hs & -> & ->)|(Hns & Ht & -> & Hshape2 & Htiles)].
  - split; [done|]. split; [done|]. split; [done|]. split; [|done].
    simpl. intros t' [Ht'| ->%list_elem_of_singleton]%elem_of_app Hin;
      [by apply Hsup|].
    unfold has_support in *. by rewrite <- Hcur1.
  - unfold dir_inv. simpl. split; [done|].
    assert (Hother2 : tiles_at wf2 other = tiles_at wf1 other ∖ {[ t ]}).
    { rewrite (Htiles other Hother). by rewrite decide_True. }
    split; [|split; [|split]].
    + intros c Hc Hco. rewrite (Htiles c Hc), decide_False by done.
      by apply Hrest.
    + rewrite Hother2. set_solver.
    + intros t' [Ht'| ->%list_elem_of_singleton]%elem_of_app Hin.
      * apply Hsup; [done|]. rewrite Hother2 in Hin. set_solver.
      * rewrite Hother2 in Hin. set_solver.
    + intros c. rewrite elem_of_cons, Hstack.
      assert (tiles_at wf2 other ≠ tiles_at wf other).
      { rewrite Hother2. intros Heq.
        assert (t ∈ tiles_at wf other) as Hin by (by apply Hsub).
        rewrite <- Heq in Hin. set_solver. }
      naive_solver.
Qed.

Lemma propagate_dir_spec (wf wf' : Wavefunction)
    (stack stack' : list Coordinates) (cur : Coordinates) (d : Direction) :
  shaped wf → in_grid size cur → d ∈ valid_dirs cur size →
  propagate_dir o cur (wf, stack) d = Ok (wf', stack') →
  shaped wf' ∧
  (∀ c, in_grid size c → c ≠ neighbour cur d →
        tiles_at wf' c = tiles_at wf c) ∧
  tiles_at wf' (neighbour cur d) ⊆ tiles_at wf (neighbour cur d) ∧
  supported o wf' cur d ∧
  (∀ c, c ∈ stack' ↔
        c ∈ stack ∨
        (c = neighbour cur d ∧
         tiles_at wf' (neighbour cur d) ≠ tiles_at wf (neighbour cur d))).
Proof.
  intros Hshape Hcur Hd.
  destruct (valid_dirs_neighbour size cur d Hcur Hd) as [Hother Hne].
  unfold propagate_dir. fold (neighbour cur d). cbn [fst].
  rewrite (get_tiles_at size) by done. rewrite bind_Ok_l.
  intros Hloop.
  assert (Hinv : dir_inv o size wf stack cur (neighbour cur d) d
                   (elements (tiles_at wf (neighbour cur d))) (wf', stack')).
  { revert Hloop. apply for_each_prefix_inv.
    - split; [done|]. split; [done|]. split; [done|].
      split; [by intros t ?%elem_of_nil|]. simpl. naive_solver.
    - intros pre t post st st' _. by apply dir_inv_step. }
  destruct Hinv as (Hshape' & Hrest & Hsub & Hsup & Hstack). simpl in *.
  split; [done|]. split; [done|]. split; [done|]. split; [|done].
  intros t' Ht'. rewrite (Hrest cur) by done.
  apply Hsup; [|done]. apply elem_of_elements. by apply Hsub.
Qed.
End propagation.

Section propagation_loop.
Variable m : Model.
Variable U : Coefficients.

Notation o := (compatibility_oracle m).
Notation size := (output_size m).
Notation shaped wf := (shape_ok size (coefficient_matrix wf)).

Lemma step_inv_step (wf0 : Wavefunction) (cur : Coordinates)
    (pre : list Direction) (st st' : prop_state) (d : Direction) :
  in_grid size cur → d ∈ valid_dirs cur size →
  step_inv m U wf0 cur pre st →
  propagate_dir o cur st d = Ok st' →
  step_inv m U wf0 cur (pre ++ [d]) st'.
Proof.
  intros Hcur Hd (Hshape & Hstk & Hcur0 & Hsup & Hinv) Hdir.
  destruct (valid_dirs_neighbour size cur d Hcur Hd) as [Hother Hne].
  pose proof (propagate_dir_conserves _ _ _ _ _ Hdir) as (_ & Hshr & _).
  destruct st as [wf1 stack1], st' as [wf2 stack2]. simpl in *.
  destruct (propagate_dir_spec o size _ _ _ _ _ _ Hshape Hcur Hd Hdir)
    as (Hshape2 & Hrest & Hsub & Hsupd & Hstack).
  assert (Hcur2 : tiles_at wf2 cur = tiles_at wf1 cur) by (by apply Hrest).
  unfold step_inv. simpl. split; [done|]. split; [|split; [|split]].
  - apply Forall_forall. intros c [Hc|[-> _]]%Hstack; [|done].
    rewrite Forall_forall in Hstk. by apply Hstk.
  - congruence.
  - intros d' [Hd'| ->%list_elem_of_singleton]%elem_of_app; [|done].
    eapply supported_mono; [done| |by apply Hsup].
    by apply shrinks_tiles_at.
  - intros c Hc Hcc.
    destruct (decide (tiles_at wf2 c = tiles_at wf1 c)) as [Heq|Hneq].
    + destruct (Hinv c Hc Hcc) as [Hin|[HU|Hset]].
      * left. apply Hstack. by left.
      * right. left. congruence.
      * right. right. eapply settled_mono; [done| |done..].
        intros c' _. by apply shrinks_tiles_at.
    + left. apply Hstack. right.
      destruct (decide (c = neighbour cur d)) as [->|Hcn]; [done|].
      exfalso. apply Hneq. by apply Hrest.
Qed.

Lemma propagate_step_spec (wf wf' : Wavefunction)
    (stack stack' : list Coordinates) (cur : Coordinates) :
  shaped wf → Forall (in_grid size) (cur :: stack) →
  prop_inv o size U wf (cur :: stack) →
  propagate_step m (wf, stack) cur = Ok (wf', stack') →
  shaped wf' ∧ Forall (in_grid size) stack' ∧ prop_inv o size U wf' stack'.
Proof.
  intros Hshape [Hcur Hstk]%Forall_cons_1 Hinv.
  unfold propagate_step. intros (s & _ & Hloop)%bind_Ok.
  assert (Hend : step_inv m U wf cur (valid_dirs cur size) (wf', stack')).
  { revert Hloop. apply for_each_prefix_inv.
    - split; [done|]. split; [done|]. split; [done|].
      split; [by intros d ?%elem_of_nil|].
      intros c Hc Hcc. destruct (Hinv c Hc) as [Hin|H']; [|by right].
      left. set_solver.
    - intros pre d post st st' Hsplit. apply step_inv_step; [done|].
      rewrite Hsplit. set_solver. }
  destruct Hend as (Hshape' & Hstk' & _ & Hsup & Hinv'). simpl in *.
  split; [done|]. split; [done|]. intros c Hc.
  destruct (decide (c = cur)) as [->|Hcc]; [|by apply Hinv'].
  right. right. intros d Hd. by apply Hsup.
Qed.

Lemma propagate_loop_inv (fuel : nat) (wf wf' : Wavefunction)
    (stack : list Coordinates) :
  shaped wf → Forall (in_grid size) stack → prop_inv o size U wf stack →
  propagate_loop fuel m wf stack = Some (Ok wf') →
  shaped wf' ∧ prop_inv o size U wf' [].
Proof.
  revert wf stack.
  induction fuel as [|fuel IH]; intros wf stack Hshape Hstk Hinv.
  - destruct stack; simpl; [|done]. by intros [= <-].
  - destruct stack as [|cur stack]; simpl; [by intros [= <-]|].
    destruct (propagate_step m (wf, stack) cur) as [[wf1 stack1]|e] eqn:Hstep;
      [|done].
    destruct (propagate_step_spec _ _ _ _ _ Hshape Hstk Hinv Hstep)
      as (Hshape1 & Hstk1 & Hinv1).
    by apply IH.
Qed.
End propagation_loop.

(** ** Consistency of the grid that [run] returns *)

Lemma for_each_append {A B : Type} (R : A → B → Prop)
    (f : A → result B) (l : list A) (acc : list B) :
  (∀ a b, f a = Ok b → R a b) →
  for_each (λ acc a, b ← f a; Ok (acc ++ [b])) l [] = Ok acc →
  Forall2 R l acc.
Proof.
  intros Hf. apply (for_each_prefix_inv (λ pre acc, Forall2 R pre acc));
    [constructor|].
  intros pre a post st st' _ Hpre (b & Hb & [= <-])%bind_Ok.
  apply Forall2_app; [done|]. constructor; [by apply Hf|constructor].
Qed.

Lemma Forall2_py_range_lookup {B : Type} (R : Z → B → Prop) (n : Z)
    (l : list B) (i : nat) (b : B) :
  Forall2 R (py_range n) l → l !! i = Some b → R (Z.of_nat i) b.
Proof.
  intros HF Hb.
  destruct (Forall2_lookup_r _ _ _ _ _ HF Hb) as (z & Hz & HR).
  unfold py_range in Hz. rewrite list_lookup_fmap in Hz.
  destruct (seq 0 (Z.to_nat n) !! i) as [k|] eqn:Hk; [|done].
  apply lookup_seq in Hk as [-> _]. simpl in Hz. by simplify_eq.
Qed.

Lemma get_all_collapsed_Ok (wf : Wavefunction) (grid : list (list Tile))
    (i j : nat) (a : Tile) :
  get_all_collapsed wf = Ok grid →
  grid !! i ≫= (λ row, row !! j) = Some a →
  get_collapsed wf (Z.of_nat i, Z.of_nat j) = Ok a.
Proof.
  unfold get_all_collapsed. intros (row0 & _ & Hloop)%bind_Ok Ha.
  destruct (grid !! i) as [row|] eqn:Hrow; [|done]. simpl in Ha.
  apply (for_each_append
           (λ y row, Forall2 (λ x t, get_collapsed wf (y, x) = Ok t)
                             (py_range (Z.of_nat (length row0))) row)
           (λ y, for_each (λ row x, t ← get_collapsed wf (y, x); Ok (row ++ [t]))
                          (py_range (Z.of_nat (length row0))) [])) in Hloop.
  - pose proof (Forall2_py_range_lookup _ _ _ _ _ Hloop Hrow) as Hr.
    by apply (Forall2_py_range_lookup _ _ _ _ _ Hr Ha).
  - intros y r. by apply for_each_append.
Qed.

Lemma get_collapsed_Ok (wf : Wavefunction) (c : Coordinates) (a : Tile) :
  get_collapsed wf c = Ok a → get wf c = Ok {[ a ]}.
Proof.
  unfold get_collapsed. intros (s & Hget & Hrest)%bind_Ok.
  case_bool_decide as Hsz; [|done].
  destruct (elements s) as [|t l] eqn:Hel; [done|]. injection Hrest as ->.
  rewrite Hget. f_equal.
  apply size_1_elem_of in Hsz as [t Ht]. apply leibniz_equiv in Ht. subst s.
  rewrite elements_singleton in Hel. by simplify_eq.
Qed.

Lemma grid_at_tiles_at (size : Z * Z) (wf : Wavefunction)
    (grid : list (list Tile)) (c : Coordinates) (a : Tile) :
  shape_ok size (coefficient_matrix wf) →
  get_all_collapsed wf = Ok grid →
  grid_at grid c = Some a →
  in_grid size c ∧ tiles_at wf c = {[ a ]}.
Proof.
  intros Hshape Hall. unfold grid_at. case_bool_decide as Hnn; [|done].
  intros Ha. eapply get_all_collapsed_Ok in Ha; [|done].
  rewrite !Z2Nat.id in Ha by lia. apply get_collapsed_Ok in Ha.
  replace (c.1, c.2) with c in Ha by (by destruct c).
  apply get_Ok in Ha as (i & j & Hl & Hc).
  assert (i = Z.to_nat c.1 ∧ j = Z.to_nat c.2) as [-> ->].
  { unfold locate in Hl. apply bind_Ok in Hl as (i' & Hi & Hl).
    destruct (coefficient_matrix wf !! i') as [row|]; [|done].
    apply bind_Ok in Hl as (j' & Hj & [= <- <-]).
    rewrite norm_index_nonneg in Hi, Hj.
    - split; congruence.
    - apply norm_index_lt in Hj as ?.
      unfold norm_index in Hj. repeat case_bool_decide; try done; lia.
    - unfold norm_index in Hi. repeat case_bool_decide; try done; lia. }
  split.
  - replace c with (Z.of_nat (Z.to_nat c.1), Z.of_nat (Z.to_nat c.2))
      by (destruct c; simpl in *; f_equal; lia).
    eapply cell_at_in_grid; [done|]. by rewrite Hc.
  - unfold tiles_at. by rewrite Hc.
Qed.

Section run_consistency.
Context `{FloatOps F}.
Variable U : Coefficients.

Lemma Model_init_inv (size : Z * Z) (w : Weights) (o : CompatibilityOracle) :
  U = list_to_set (keys w) → run_inv U (Model_init size w o).
Proof.
  intros HU. split; [apply mk_shape_ok|]. intros c Hc. right. left.
  rewrite HU. simpl. unfold tiles_at.
  destruct (in_grid_cell size _ c (mk_shape_ok size w) Hc) as [s Hs].
  rewrite Hs. simpl.
  destruct (cell_at_elem_of _ _ _ _ Hs) as (row & Hrow & Hin).
  pose proof (mk_cells size w) as Hcells. rewrite Forall_forall in Hcells.
  specialize (Hcells row Hrow). rewrite Forall_forall in Hcells.
  by apply Hcells.
Qed.

Lemma iterate_inv (m m' : Model) (rng rng' : Rng) :
  run_inv U m → is_fully_collapsed (wavefunction m) = false →
  iterate (F:=F) m rng = Some (Ok (m', rng')) →
  run_inv U m' ∧ output_size m' = output_size m ∧
  compatibility_oracle m' = compatibility_oracle m.
Proof.
  intros [Hshape Hinv] Hopen. unfold iterate.
  destruct (min_entropy_co_ords m rng) as [[co rng1]|e] eqn:Hmin; [|done].
  destruct (draw rng1) as [r rng2].
  destruct (collapse (wavefunction m) co r) as [wf1|e] eqn:Hcol; [|done].
  unfold propagate.
  destruct (propagate_loop _ _ _ _) as [[wf2|e]|] eqn:Hloop; [|done..].
  intros [= <- <-]. simpl. split; [|done].
  assert (Hco : in_grid (output_size m) co).
  { destruct (min_entropy_co_ords_Ok m _ _ _ Hmin) as [[Hin _]|[_ Hall]];
      [done|].
    rewrite all_collapsed_fully in Hopen; done. }
  pose proof (collapse_shrinks _ _ _ _ Hcol) as Hshr.
  destruct (collapse_in_grid _ _ _ _ _ Hshape Hco Hcol)
    as (Hshape1 & t & Ht & Htiles).
  unfold run_inv. simpl.
  apply (propagate_loop_inv (with_wavefunction m wf1) U) in Hloop;
    [done|done|by apply Forall_singleton|].
  simpl. intros c Hc.
  destruct (decide (c = co)) as [->|Hne]; [left; set_solver|].
  assert (Hsame : tiles_at wf1 c = tiles_at (wavefunction m) c).
  { rewrite (Htiles c Hc). by rewrite decide_False. }
  destruct (Hinv c Hc) as [Hin|[HU|Hset]]; [by apply elem_of_nil in Hin| |].
  - right. left. congruence.
  - right. right. eapply settled_mono; [done| |done..].
    intros c' _. by apply shrinks_tiles_at.
Qed.

Lemma run_loop_inv (fuel : nat) (m : Model) (rng : Rng)
    (grid : list (list Tile)) :
  run_inv U m → run_loop (F:=F) fuel m rng = Some (Ok grid) →
  ∃ m', run_inv U m' ∧ output_size m' = output_size m ∧
        compatibility_oracle m' = compatibility_oracle m ∧
        get_all_collapsed (wavefunction m') = Ok grid.
Proof.
  revert m rng. induction fuel as [|fuel IH]; intros m rng Hinv; simpl.
  - destruct (is_fully_collapsed (wavefunction m)); [|done].
    intros [= Hg]. by exists m.
  - destruct (is_fully_collapsed (wavefunction m)) eqn:Hfc.
    { intros [= Hg]. by exists m. }
    destruct (iterate m rng) as [[[m1 rng1]|e]|] eqn:Hit; [|done..].
    destruct (iterate_inv _ _ _ _ Hinv Hfc Hit) as (Hinv1 & Hsz & Ho).
    intros (m' & Hinv' & Hsz' & Ho' & Hg)%(IH _ _ Hinv1).
    exists m'. split; [done|]. split; [congruence|]. split; [congruence|done].
Qed.

Lemma consistent_grid (m : Model) (grid : list (list Tile))
    (c : Coordinates) (d : Direction) (a b : Tile) :
  run_inv U m → size U ≠ 1%nat →
  get_all_collapsed (wavefunction m) = Ok grid →
  d ∈ DIRS → grid_at grid c = Some a → grid_at grid (neighbour c d) = Some b →
  check (compatibility_oracle m) a b d = true.
Proof.
  intros [Hshape Hinv] HU Hgrid Hd Ha Hb.
  destruct (grid_at_tiles_at _ _ _ _ _ Hshape Hgrid Ha) as [Hc Hta].
  destruct (grid_at_tiles_at _ _ _ _ _ Hshape Hgrid Hb) as [Hn Htb].
  assert (Hvalid : d ∈ valid_dirs c (output_size m)).
  { destruct c as [y x], (output_size m) as [width height].
    apply elem_of_valid_dirs.
    unfold in_grid, neighbour, DIRS, UP, DOWN, LEFT, RIGHT in *. simpl in *.
    set_solver by lia. }
  destruct (Hinv c Hc) as [Hin|[HcU|Hset]]; [by apply elem_of_nil in Hin| |].
  - exfalso. apply HU. rewrite <- HcU, Hta. apply size_singleton.
  - destruct (Hset d Hvalid b) as (a' & Ha' & Hchk); [rewrite Htb; set_solver|].
    rewrite Hta in Ha'. apply elem_of_singleton in Ha' as ->. done.
Qed.
End run_consistency.

(** C1, as the code has it.  When the weights do not have exactly one
    key, every two adjacent cells of a grid that [run] returns hold tiles
    whose triple with the direction from the first to the second is in
    the relation of the oracle.  ([run] is [run_loop] with as much fuel as
    the grid has cells.) *)
Theorem run_locally_consistent `{FloatOps F} (dims : Z * Z) (w : Weights)
    (o : CompatibilityOracle) (rng : Rng) (fuel : nat)
    (grid : list (list Tile)) :
  size (list_to_set (keys w) : Coefficients) ≠ 1%nat →
  run_loop (F:=F) fuel (Model_init dims w o) rng = Some (Ok grid) →
  ∀ c d tileA tileB,
    d ∈ DIRS →
    grid_at grid c = Some tileA →
    grid_at grid (neighbour c d) = Some tileB →
    (tileA, tileB, d) ∈ data o.
Proof.
  intros HU Hrun c d a b Hd Ha Hb.
  destruct (run_loop_inv (list_to_set (keys w)) fuel _ rng grid
              (Model_init_inv _ dims w o eq_refl) Hrun)
    as (m' & Hinv & _ & Ho & Hgrid).
  pose proof (consistent_grid _ m' grid c d a b Hinv HU Hgrid Hd Ha Hb) as Hchk.
  rewrite Ho in Hchk. simpl in Hchk. unfold check in Hchk.
  by apply bool_decide_eq_true in Hchk.
Qed.

(** ** The 1×2 scenario *)

Lemma for_each_total {A S : Type} (P : S → Prop) (body : S → A → result S)
    (l : list A) (s : S) :
  P s →
  (∀ a st, a ∈ l → P st → ∃ st', body st a = Ok st' ∧ P st') →
  ∃ s', for_each body l s = Ok s' ∧ P s'.
Proof.
  revert s. induction l as [|a l IH]; intros s Hs Hbody; simpl; [eauto|].
  destruct (Hbody a s) as (s1 & -> & Hs1); [set_solver|done|].
  rewrite bind_Ok_l. apply IH; [done|].
  intros b st Hb. apply Hbody. set_solver.
Qed.

(** The scan of [min_entropy_co_ords] does not raise when every cell of
    the grid exists and has an entropy. *)
Lemma min_entropy_co_ords_total `{FloatOps F} (m : Model) (rng : Rng) :
  (∀ c, in_grid (output_size m) c →
        ∃ s (e : F), get (wavefunction m) c = Ok s ∧
                     shannon_entropy (wavefunction m) c = Ok e) →
  ∃ co rng', min_entropy_co_ords (F:=F) m rng = Ok (co, rng').
Proof.
  intros Hcells. rewrite min_entropy_co_ords_scan.
  destruct (for_each_total (λ _, True)
              (λ st y, for_each (scan_cell m y) (py_range (output_size m).1) st)
              (py_range (output_size m).2) (None, (0, 0), rng) I)
    as (st & Hst & _).
  - intros y st Hy%elem_of_py_range _.
    apply (for_each_total (λ _, True)); [done|].
    intros x [[mn co] rg] Hx%elem_of_py_range _.
    destruct (Hcells (y, x)) as (s & e & Hget & He); [done|].
    unfold scan_cell. rewrite Hget, bind_Ok_l, He, bind_Ok_l.
    case_bool_decide; [eauto|]. simpl.
    destruct mn as [e0|]; [destruct (flt _ e0)|]; eauto.
  - unfold scan_rows. rewrite Hst. simpl. eauto.
Qed.

Lemma scenario_min_entropy `{FloatOps F} (rng : Rng) :
  ∃ co rng', min_entropy_co_ords (F:=F) scenario_model rng = Ok (co, rng') ∧
             (co = (0, 0) ∨ co = (0, 1)).
Proof.
  destruct (min_entropy_co_ords_total scenario_model rng) as (co & rng' & Hmin).
  - intros [y x] [Hy Hx]. simpl in Hy, Hx.
    assert (y = 0) as -> by lia.
    assert (x = 0 ∨ x = 1) as [-> | ->] by lia; eexists _, _; split;
      vm_compute; reflexivity.
  - exists co, rng'. split; [done|].
    destruct (min_entropy_co_ords_Ok _ _ _ _ Hmin) as [[[Hy Hx] _]|[-> _]];
      [|by left].
    destruct co as [y x]. simpl in Hy, Hx.
    assert (y = 0) as -> by lia.
    assert (x = 0 ∨ x = 1) as [-> | ->] by lia; auto.
Qed.

Lemma scenario_pick `{FloatOps F} (v : F) :
  pick [("X"%string, 1); ("Y"%string, 1)] v "X"%string = Ok "X"%string ∨
  pick [("X"%string, 1); ("Y"%string, 1)] v "X"%string = Ok "Y"%string.
Proof.
  cbn [pick]. rewrite (py_float_fits 1) by (by vm_compute).
  rewrite !bind_Ok_l. cbv zeta.
  destruct (flt _ _); [by left|]. destruct (flt _ _); [by right|by left].
Qed.

(** The first [collapse] of the scenario leaves ["X"] or ["Y"] in the
    cell, the other cell keeping both tiles. *)
Lemma scenario_collapse `{FloatOps F} (i j : nat) (co : Coordinates) (r : Q) :
  locate (coefficient_matrix (wavefunction scenario_model)) co = Ok (i, j) →
  get (wavefunction scenario_model) co = Ok U_XY →
  ∃ t, (t = "X"%string ∨ t = "Y"%string) ∧
       collapse (wavefunction scenario_model) co r =
       Ok (mkWavefunction
             (set_at (coefficient_matrix (wavefunction scenario_model)) i j {[ t ]})
             (weights (wavefunction scenario_model))).
Proof.
  intros Hl Hget.
  assert (Hf : filtered_tiles_with_weights (wavefunction scenario_model) U_XY =
               [("X"%string, 1); ("Y"%string, 1)]) by (by vm_compute).
  rewrite (collapse_eq _ co U_XY r i j Hget Hl), Hf.
  rewrite py_float_fits by (by vm_compute).
  rewrite bind_Ok_l, py_index_head, bind_Ok_l. cbn [fst].
  destruct (scenario_pick
              (fmul (float_of_draw r)
                    (float_of_int
                       (py_sum [("X"%string, 1); ("Y"%string, 1)].*2))))
    as [-> | ->]; rewrite bind_Ok_l; eexists; (split; [|reflexivity]); auto.
Qed.

(** Outcome of [run] once the first cell and its tile are chosen. *)
Lemma scenario_after_collapse `{FloatOps F} (rng : Rng) (co : Coordinates)
    (i j : nat) (t : Tile) :
  (co = (0, 0) ∧ i = 0%nat ∧ j = 0%nat) ∨ (co = (0, 1) ∧ i = 0%nat ∧ j = 1%nat) →
  t = "X"%string ∨ t = "Y"%string →
  ∃ m', propagate
          (with_wavefunction scenario_model
             (mkWavefunction
                (set_at (coefficient_matrix (wavefunction scenario_model)) i j
                        {[ t ]})
                (weights (wavefunction scenario_model)))) co = Some (Ok m') ∧
        is_fully_collapsed (wavefunction m') = true ∧
        (get_all_collapsed (wavefunction m') = Ok [["X"%string; "Y"%string]] ∨
         get_all_collapsed (wavefunction m') = Raise AssertionError).
Proof.
  intros [(-> & -> & ->)|(-> & -> & ->)] [-> | ->];
    eexists; (split; [vm_compute; reflexivity|]);
    (split; [vm_compute; reflexivity|]).
  - left. vm_compute. reflexivity.
  - right. vm_compute. reflexivity.
  - right. vm_compute. reflexivity.
  - left. vm_compute. reflexivity.
Qed.

(** C9, as the code has it.  On the 1×2 grid with the oracle
    [{(X, Y, RIGHT), (Y, X, LEFT)}] and weights [{X: 1, Y: 1}], whatever
    the random draws and the floating-point arithmetic, [run] either
    returns the grid [[X, Y]] or stops on the assertion of
    [get_collapsed], the propagation having emptied both cells; it
    returns no other grid. *)
Theorem scenario_run `{FloatOps F} (rng : Rng) :
  run (F:=F) scenario_model rng = Some (Ok [["X"%string; "Y"%string]]) ∨
  run (F:=F) scenario_model rng = Some (Raise AssertionError).
Proof.
  unfold run.
  change (cell_count (wavefunction scenario_model)) with 2%nat.
  cbn [run_loop].
  change (is_fully_collapsed (wavefunction scenario_model)) with false.
  cbv iota. unfold iterate.
  destruct (scenario_min_entropy rng) as (co & rng1 & -> & Hco).
  destruct (draw rng1) as [r rng2].
  assert (∃ i j, locate (coefficient_matrix (wavefunction scenario_model)) co
                 = Ok (i, j) ∧
                 get (wavefunction scenario_model) co = Ok U_XY ∧
                 ((co = (0, 0) ∧ i = 0%nat ∧ j = 0%nat) ∨
                  (co = (0, 1) ∧ i = 0%nat ∧ j = 1%nat)))
    as (i & j & Hl & Hget & Hij).
  { destruct Hco as [-> | ->]; [exists 0%nat, 0%nat|exists 0%nat, 1%nat];
      (split; [by vm_compute|]); (split; [by vm_compute|]); auto. }
  destruct (scenario_collapse i j co r Hl Hget) as (t & Ht & ->).
  destruct (scenario_after_collapse rng2 co i j t Hij Ht)
    as (m' & -> & Hfc & Hgrid).
  rewrite Hfc. destruct Hgrid as [-> | ->]; auto.
Qed.

(** Draws with which the scenario ends in a contradiction: the cell
    [(0, 0)] is collapsed to ["Y"], which nothing may follow on the
    right, and [run] raises instead of returning a grid. *)
Lemma scenario_run_contradiction :
  run (F:=Q) scenario_model (λ _, 2 # 3)%Q = Some (Raise AssertionError).
Proof. vm_compute. reflexivity. Qed.

(** C1 as stated fails when there is a single tile: nothing is ever
    collapsed or propagated, [run] returns the grid [[X, X]] without an
    exception, and the triple [(X, X, RIGHT)] of its two adjacent cells is
    not in the relation. *)
Lemma single_tile_grid_inconsistent :
  run (F:=Q) single_tile_model (λ _, 0%Q) = Some (Ok [["X"%string; "X"%string]]) ∧
  RIGHT ∈ DIRS ∧
  grid_at [["X"%string; "X"%string]] (0, 0) = Some "X"%string ∧
  grid_at [["X"%string; "X"%string]] (neighbour (0, 0) RIGHT) = Some "X"%string ∧
  ("X"%string, "X"%string, RIGHT) ∉ data (compatibility_oracle single_tile_model).
Proof.
  split; [by vm_compute|]. split; [unfold DIRS; set_solver|].
  split; [by vm_compute|]. split; [by vm_compute|].
  simpl. set_solver.
Qed.

Lemma RIGHT_in_DIRS : RIGHT ∈ DIRS.
Proof.
  unfold DIRS. do 3 apply list_elem_of_further. apply list_elem_of_here.
Defined.

Lemma run_locally_consistent_witness :
  ("X"%string, "Y"%string, RIGHT) ∈ data scenario_oracle.
Proof.
  apply (run_locally_consistent (F:=Q) (2, 1)
           [("X"%string, 1); ("Y"%string, 1)] scenario_oracle
           (λ _, 1 # 3)%Q 2 [["X"%string; "Y"%string]]
           ltac:(vm_compute; discriminate)
           ltac:(vm_compute; reflexivity)
           (0, 0) RIGHT "X"%string "Y"%string RIGHT_in_DIRS);
    vm_compute; reflexivity.
Defined.

Lemma possibilities_only_shrink_witness :
  shrinks (coefficient_matrix (wavefunction scenario_model))
          [[{[ "X"%string ]}; {[ "Y"%string ]}]].
Proof.
  apply (possibilities_only_shrink
           [OpConstrain (0, 1) "X"%string; OpCollapse (0, 0) (1 # 3)%Q]
           (wavefunction scenario_model)
           (mkWavefunction [[{[ "X"%string ]}; {[ "Y"%string ]}]]
                           [("X"%string, 1); ("Y"%string, 1)])).
  vm_compute. reflexivity.
Defined.

Lemma propagate_and_run_terminate_witness :
  ∃ r, run_loop (F:=Q) 5 scenario_model (λ _, 1 # 3)%Q = Some r ∧
       run (F:=Q) scenario_model (λ _, 1 # 3)%Q = Some r.
Proof.
  apply (propagate_and_run_terminate (F:=Q)).
  - apply mk_shape_ok.
  - vm_compute. lia.
Defined.

Lemma U_XY_nonempty : U_XY ≠ ∅.
Proof.
  intros Hempty. apply (not_elem_of_empty (C := Coefficients) "X"%string).
  rewrite <- Hempty. unfold U_XY. apply elem_of_list_to_set, list_elem_of_here.
Defined.


Lemma min_entropy_co_ords_uncollapsed_witness :
  min_entropy_co_ords (F:=Q) collapsed_model (λ _, 1 # 3)%Q =
  Ok ((0, 0), (λ _, 1 # 3)%Q).
Proof.
  apply (min_entropy_co_ords_uncollapsed (F:=Q) collapsed_model).
  intros [y x] [Hy Hx]. simpl in Hy, Hx.
  assert (y = 0) as -> by lia. assert (x = 0) as -> by lia.
  exists {[ "X"%string ]}. split; vm_compute; reflexivity.
Defined.

Lemma constrain_removes_or_raises_witness :
  "Z"%string ∉ U_XY ↔
  constrain (wavefunction scenario_model) (0, 1) "Z"%string = Raise KeyError.
Proof.
  apply (constrain_removes_or_raises (wavefunction scenario_model) (0, 1)
           "Z"%string U_XY).
  vm_compute. reflexivity.
Defined.

Lemma possible_tiles_have_weights_witness :
  shannon_entropy (F:=Q) (wavefunction scenario_model) (0, 0) ≠ Raise KeyError.
Proof.
  destruct (possible_tiles_have_weights (F:=Q)) as (Hmk & _ & _ & Hlookup).
  apply Hlookup. apply (Hmk (2, 1) [("X"%string, 1); ("Y"%string, 1)]).
Defined.

Lemma scenario_run_witness :
  run (F:=Q) scenario_model (λ _, 1 # 3)%Q = Some (Ok [["X"%string; "Y"%string]]) ∨
  run (F:=Q) scenario_model (λ _, 1 # 3)%Q = Some (Raise AssertionError).
Proof. apply (scenario_run (F:=Q)). Defined.

(** * Further properties *)

(** ** [valid_dirs] *)

Lemma valid_dirs_NoDup (c : Coordinates) (size : Z * Z) :
  NoDup (valid_dirs c size).
Proof.
  destruct c as [y x], size as [width height]. unfold valid_dirs.
  assert (Hsub : NoDup DIRS).
  { unfold DIRS, UP, DOWN, LEFT, RIGHT. repeat constructor; set_solver. }
  unfold DIRS in Hsub.
  repeat case_bool_decide; simpl;
    repeat match goal with
           | H : NoDup (_ :: _) |- _ => apply NoDup_cons in H as [? ?]
           end;
    repeat constructor; set_solver.
Qed.

(** X1. From a cell of the grid, [valid_dirs] lists, each once, exactly
    the directions of [DIRS] whose neighbour is a cell of the grid. *)
Theorem valid_dirs_exactly_neighbours (y x width height : Z) :
  0 ≤ y < height → 0 ≤ x < width →
  NoDup (valid_dirs (y, x) (width, height)) ∧
  ∀ d, d ∈ valid_dirs (y, x) (width, height) ↔
       d ∈ DIRS ∧ in_grid (width, height) (neighbour (y, x) d).
Proof.
  intros Hy Hx. split; [apply valid_dirs_NoDup|].
  intros d. rewrite elem_of_valid_dirs.
  unfold DIRS, in_grid, neighbour, UP, DOWN, LEFT, RIGHT. simpl.
  rewrite !elem_of_cons, elem_of_nil. split.
  - intros [[-> ?]|[[-> ?]|[[-> ?]|[-> ?]]]]; simpl; (split; [tauto|lia]).
  - intros [[->|[->|[->|[->|[]]]]] Hin]; simpl in Hin;
      [left|right; left|right; right; left|right; right; right];
      (split; [done|lia]).
Qed.

Lemma valid_dirs_exactly_neighbours_witness :
  RIGHT ∈ valid_dirs (0, 0) (2, 1) ↔
  RIGHT ∈ DIRS ∧ in_grid (2, 1) (neighbour (0, 0) RIGHT).
Proof.
  apply (valid_dirs_exactly_neighbours 0 0 2 1); lia.
Defined.

Lemma opposite_valid (c : Coordinates) (size : Z * Z) (d : Direction) :
  in_grid size c → d ∈ valid_dirs c size →
  opposite d ∈ valid_dirs (neighbour c d) size ∧
  neighbour (neighbour c d) (opposite d) = c.
Proof.
  destruct c as [y x], size as [width height]. intros [Hy Hx] Hd.
  simpl in Hy, Hx. apply elem_of_valid_dirs in Hd.
  unfold neighbour, opposite, UP, DOWN, LEFT, RIGHT in *. simpl.
  split.
  - apply elem_of_valid_dirs. unfold UP, DOWN, LEFT, RIGHT.
    destruct Hd as [[-> ?]|[[-> ?]|[[-> ?]|[-> ?]]]]; simpl;
      [right; left|left|right; right; right|right; right; left];
      (split; [done|lia]).
  - f_equal; lia.
Qed.

(** X2. Adjacency is symmetric: when a direction is valid at a cell of
    the grid, the opposite direction is valid at the neighbour and leads
    back to the cell. *)
Theorem valid_dirs_opposite (c : Coordinates) (size : Z * Z) (d : Direction) :
  in_grid size c → d ∈ valid_dirs c size →
  opposite d ∈ valid_dirs (neighbour c d) size ∧
  neighbour (neighbour c d) (opposite d) = c.
Proof. apply opposite_valid. Qed.

Lemma valid_dirs_opposite_witness :
  opposite RIGHT ∈ valid_dirs (neighbour (0, 0) RIGHT) (2, 1) ∧
  neighbour (neighbour (0, 0) RIGHT) (opposite RIGHT) = (0, 0).
Proof.
  apply (valid_dirs_opposite (0, 0) (2, 1) RIGHT).
  - unfold in_grid. simpl. lia.
  - vm_compute. apply list_elem_of_here.
Defined.

(** ** [get_collapsed] and [get_all_collapsed] *)

(** X3. At a cell that exists, [get_collapsed] returns a tile exactly
    when it is the only possible tile of the cell, and fails its
    assertion exactly when the cell does not have one possible tile. *)
Theorem get_collapsed_singleton (wf : Wavefunction) (c : Coordinates)
    (s : Coefficients) :
  get wf c = Ok s →
  (∀ t, get_collapsed wf c = Ok t ↔ s = {[ t ]}) ∧
  (get_collapsed wf c = Raise AssertionError ↔ size s ≠ 1%nat).
Proof.
  intros Hget. split.
  - intros t. split.
    + intros Hc. apply get_collapsed_Ok in Hc. congruence.
    + intros ->. unfold get_collapsed. rewrite Hget, bind_Ok_l.
      rewrite bool_decide_eq_true_2 by apply size_singleton.
      by rewrite elements_singleton.
  - unfold get_collapsed. rewrite Hget, bind_Ok_l.
    case_bool_decide as Hsz; [|done].
    destruct (elements s) as [|t l] eqn:Hel; [|done].
    apply elements_empty_iff in Hel. apply leibniz_equiv in Hel. subst s.
    by rewrite size_empty in Hsz.
Qed.

Lemma get_collapsed_singleton_witness :
  get_collapsed (wavefunction scenario_model) (0, 0) = Raise AssertionError ↔
  size U_XY ≠ 1%nat.
Proof.
  apply (get_collapsed_singleton (wavefunction scenario_model) (0, 0) U_XY).
  vm_compute. reflexivity.
Defined.

Lemma length_py_range (n : Z) : length (py_range n) = Z.to_nat n.
Proof. unfold py_range. by rewrite length_fmap, length_seq. Qed.

Lemma get_all_collapsed_Forall2 (wf : Wavefunction) (grid : list (list Tile)) :
  get_all_collapsed wf = Ok grid →
  ∃ row0,
    py_index (coefficient_matrix wf) 0 = Ok row0 ∧
    Forall2 (λ y row,
               Forall2 (λ x t, get_collapsed wf (y, x) = Ok t)
                       (py_range (Z.of_nat (length row0))) row)
            (py_range (Z.of_nat (length (coefficient_matrix wf)))) grid.
Proof.
  unfold get_all_collapsed. intros (row0 & Hrow0 & Hloop)%bind_Ok.
  exists row0. split; [done|].
  apply (for_each_append _
           (λ y, for_each (λ row x, t ← get_collapsed wf (y, x); Ok (row ++ [t]))
                          (py_range (Z.of_nat (length row0))) [])); [|done].
  intros y r. by apply for_each_append.
Qed.

Lemma shape_ok_row0 (size : Z * Z) (M : CoefficientMatrix) :
  shape_ok size M → 0 < size.2 →
  ∃ row0, py_index M 0 = Ok row0 ∧ length row0 = Z.to_nat size.1.
Proof.
  intros [Hh Hw] Hpos. destruct M as [|row0 M]; [simpl in Hh; lia|].
  exists row0. split.
  - apply py_index_Ok. exists 0%nat. split; [|done].
    apply norm_index_nonneg. simpl. lia.
  - by apply Forall_cons_1 in Hw as [? _].
Qed.

Lemma get_all_collapsed_rectangular (size : Z * Z) (wf : Wavefunction)
    (grid : list (list Tile)) :
  shape_ok size (coefficient_matrix wf) → 0 < size.2 →
  get_all_collapsed wf = Ok grid → rectangular size grid.
Proof.
  intros Hshape Hpos (row0 & Hrow0 & HF)%get_all_collapsed_Forall2.
  destruct (shape_ok_row0 _ _ Hshape Hpos) as (row0' & Hrow0' & Hlen).
  assert (row0' = row0) as -> by congruence.
  destruct Hshape as [Hh _]. split.
  - apply Forall2_length in HF. rewrite length_py_range in HF. lia.
  - apply Forall_forall. intros row [i Hi]%list_elem_of_lookup_1.
    destruct (Forall2_lookup_r _ _ _ _ _ HF Hi) as (y & _ & Hrow).
    apply Forall2_length in Hrow. rewrite length_py_range in Hrow. lia.
Qed.

Lemma rectangular_grid_at (size : Z * Z) (grid : list (list Tile))
    (c : Coordinates) :
  rectangular size grid → in_grid size c → is_Some (grid_at grid c).
Proof.
  intros [Hh Hw] [Hy Hx]. unfold grid_at.
  rewrite bool_decide_eq_true_2 by lia.
  destruct (lookup_lt_is_Some_2 grid (Z.to_nat c.1)) as [row Hr]; [lia|].
  rewrite Hr. simpl. apply lookup_lt_is_Some_2.
  rewrite Forall_forall in Hw.
  rewrite (Hw row) by (by eapply list_elem_of_lookup_2). lia.
Qed.

Lemma get_collapsed_in_grid (dims : Z * Z) (wf : Wavefunction)
    (c : Coordinates) :
  shape_ok dims (coefficient_matrix wf) → in_grid dims c →
  (size (tiles_at wf c) = 1%nat → ∃ t, get_collapsed wf c = Ok t) ∧
  (∀ e, get_collapsed wf c = Raise e → e = AssertionError).
Proof.
  intros Hshape Hc. unfold get_collapsed.
  rewrite (get_tiles_at dims) by done. rewrite bind_Ok_l. split.
  - intros Hsz. rewrite bool_decide_eq_true_2 by done.
    destruct (elements (tiles_at wf c)) as [|t l] eqn:Hel; [|eauto].
    apply elements_empty_iff in Hel. apply leibniz_equiv in Hel.
    rewrite Hel, size_empty in Hsz. lia.
  - intros e. case_bool_decide; [|congruence].
    destruct (elements (tiles_at wf c)); congruence.
Qed.

Lemma get_all_collapsed_range (dims : Z * Z) (wf : Wavefunction)
    (row0 : list Coefficients) (y x : Z) :
  shape_ok dims (coefficient_matrix wf) →
  py_index (coefficient_matrix wf) 0 = Ok row0 →
  y ∈ py_range (Z.of_nat (length (coefficient_matrix wf))) →
  x ∈ py_range (Z.of_nat (length row0)) →
  in_grid dims (y, x).
Proof.
  intros Hshape Hrow0 Hy%elem_of_py_range Hx%elem_of_py_range.
  assert (0 < dims.2) as Hpos by (destruct Hshape as [Hh _]; lia).
  destruct (shape_ok_row0 _ _ Hshape Hpos) as (row0' & Hrow0' & Hlen).
  assert (row0' = row0) as -> by congruence.
  destruct Hshape as [Hh _]. unfold in_grid. simpl. lia.
Qed.

Lemma get_all_collapsed_total (dims : Z * Z) (wf : Wavefunction) :
  shape_ok dims (coefficient_matrix wf) → 0 < dims.2 →
  (∀ c, in_grid dims c → size (tiles_at wf c) = 1%nat) →
  ∃ grid, get_all_collapsed wf = Ok grid.
Proof.
  intros Hshape Hpos Hall.
  destruct (shape_ok_row0 _ _ Hshape Hpos) as (row0 & Hrow0 & Hlen).
  unfold get_all_collapsed. rewrite Hrow0, bind_Ok_l.
  destruct (for_each_total (λ _, True)
              (λ collapsed y,
                 row ← for_each (λ row x,
                           t ← get_collapsed wf (y, x); Ok (row ++ [t]))
                        (py_range (Z.of_nat (length row0))) [];
                 Ok (collapsed ++ [row]))
              (py_range (Z.of_nat (length (coefficient_matrix wf)))) [] I)
    as (grid & Hgrid & _); [|eauto].
  intros y acc Hy _.
  destruct (for_each_total (λ _, True)
              (λ row x, t ← get_collapsed wf (y, x); Ok (row ++ [t]))
              (py_range (Z.of_nat (length row0))) [] I)
    as (row & Hrow & _).
  - intros x r Hx _.
    pose proof (get_all_collapsed_range dims wf row0 y x Hshape Hrow0 Hy Hx)
      as Hin.
    destruct (get_collapsed_in_grid dims wf (y, x) Hshape Hin) as [Hok _].
    destruct Hok as [t ->]; [by apply Hall|].
    rewrite bind_Ok_l. eauto.
  - rewrite Hrow, bind_Ok_l. eauto.
Qed.

Lemma get_all_collapsed_Raise (dims : Z * Z) (wf : Wavefunction) (e : PyError) :
  shape_ok dims (coefficient_matrix wf) → 0 < dims.2 →
  get_all_collapsed wf = Raise e → e = AssertionError.
Proof.
  intros Hshape Hpos Hgrid.
  destruct (shape_ok_row0 _ _ Hshape Hpos) as (row0 & Hrow0 & Hlen).
  unfold get_all_collapsed in Hgrid. rewrite Hrow0, bind_Ok_l in Hgrid.
  apply for_each_Raise in Hgrid as (y & acc & Hy & Hbody).
  destruct (for_each _ (py_range (Z.of_nat (length row0))) [])
    as [row|e'] eqn:Hrow; [done|].
  simpl in Hbody. injection Hbody as ->.
  apply for_each_Raise in Hrow as (x & r & Hx & Hcell).
  destruct (get_collapsed wf (y, x)) as [t|e'] eqn:Hgc; [done|].
  simpl in Hcell. injection Hcell as ->.
  eapply (get_collapsed_in_grid dims wf (y, x)); [done| |done].
  by eapply get_all_collapsed_range.
Qed.

Lemma get_all_collapsed_content (dims : Z * Z) (wf : Wavefunction)
    (grid : list (list Tile)) :
  shape_ok dims (coefficient_matrix wf) → 0 < dims.2 →
  get_all_collapsed wf = Ok grid →
  rectangular dims grid ∧
  ∀ c, in_grid dims c → ∃ t, grid_at grid c = Some t ∧ tiles_at wf c = {[ t ]}.
Proof.
  intros Hshape Hpos Hgrid.
  pose proof (get_all_collapsed_rectangular _ _ _ Hshape Hpos Hgrid) as Hrect.
  split; [done|]. intros c Hc.
  destruct (rectangular_grid_at _ _ c Hrect Hc) as [t Ht]. exists t.
  split; [done|]. by eapply grid_at_tiles_at.
Qed.

(** With a cell that has not exactly one possible tile,
    [get_all_collapsed] fails the assertion of [get_collapsed]. *)
Lemma get_all_collapsed_assertion (dims : Z * Z) (wf : Wavefunction)
    (c : Coordinates) :
  shape_ok dims (coefficient_matrix wf) →
  in_grid dims c → size (tiles_at wf c) ≠ 1%nat →
  get_all_collapsed wf = Raise AssertionError.
Proof.
  intros Hshape Hc Hsz.
  assert (0 < dims.2) as Hpos by (destruct Hc; lia).
  destruct (get_all_collapsed wf) as [grid|e] eqn:Hgrid.
  - exfalso.
    destruct (get_all_collapsed_content _ _ _ Hshape Hpos Hgrid) as [_ Hcells].
    destruct (Hcells c Hc) as (t & _ & Ht). apply Hsz.
    rewrite Ht. apply size_singleton.
  - f_equal. by eapply get_all_collapsed_Raise.
Qed.

(** X4. On a matrix that has the shape of a grid with at least one row,
    [get_all_collapsed] returns a grid of that shape holding, cell by
    cell, the only possible tile, when every cell has exactly one; and it
    fails the assertion of [get_collapsed] when some cell has not. *)
Theorem get_all_collapsed_grid (dims : Z * Z) (wf : Wavefunction) :
  shape_ok dims (coefficient_matrix wf) → 0 < dims.2 →
  ((∀ c, in_grid dims c → size (tiles_at wf c) = 1%nat) →
   ∃ grid, get_all_collapsed wf = Ok grid ∧ rectangular dims grid ∧
           ∀ c, in_grid dims c →
                ∃ t, grid_at grid c = Some t ∧ tiles_at wf c = {[ t ]}) ∧
  ((∃ c, in_grid dims c ∧ size (tiles_at wf c) ≠ 1%nat) →
   get_all_collapsed wf = Raise AssertionError).
Proof.
  intros Hshape Hpos. split.
  - intros Hall.
    destruct (get_all_collapsed_total _ _ Hshape Hpos Hall) as [grid Hgrid].
    exists grid. split; [done|]. by apply (get_all_collapsed_content dims).
  - intros (c & Hc & Hsz). by eapply get_all_collapsed_assertion.
Qed.

Lemma get_all_collapsed_grid_witness :
  get_all_collapsed (wavefunction scenario_model) = Raise AssertionError.
Proof.
  apply (get_all_collapsed_grid (2, 1) (wavefunction scenario_model)
           (mk_shape_ok _ _) ltac:(simpl; lia)).
  exists (0, 0). split; [unfold in_grid; simpl; lia|].
  vm_compute. discriminate.
Defined.

(** X5. A model whose output size has no row does not return the empty
    grid: [run] raises [IndexError], from [get_all_collapsed] reading the
    first row of the matrix. *)
Theorem run_without_rows `{FloatOps F} (dims : Z * Z) (w : Weights)
    (o : CompatibilityOracle) (rng : Rng) :
  dims.2 ≤ 0 →
  run (F:=F) (Model_init dims w o) rng = Some (Raise IndexError).
Proof.
  intros Hh.
  assert (HM : wavefunction (Model_init dims w o) = mkWavefunction [] w).
  { simpl. unfold mk. rewrite init_coefficient_matrix_eq.
    by replace (Z.to_nat dims.2) with 0%nat by lia. }
  unfold run. rewrite HM. change (cell_count _) with 0%nat.
  cbn [run_loop]. rewrite HM. done.
Qed.

Lemma run_without_rows_witness :
  run (F:=Q) (Model_init (3, 0) [("X"%string, 1)] (mkOracle ∅)) (λ _, 0%Q) =
  Some (Raise IndexError).
Proof.
  apply (run_without_rows (F:=Q) (3, 0)). simpl. lia.
Defined.

(** ** [collapse] at the edges *)

Lemma set_at_id (M : CoefficientMatrix) (i j : nat) (v : Coefficients) :
  cell_at M i j = Some v → set_at M i j v = M.
Proof.
  unfold cell_at. destruct (M !! i) as [row|] eqn:Hr; [|done]. simpl.
  intros Hv. rewrite (set_at_insert _ _ _ _ row) by done.
  rewrite (list_insert_id row) by done. by apply list_insert_id.
Qed.

(** X6. At a cell that exists, [collapse] raises nothing but [IndexError]
    and [OverflowError]: [IndexError] exactly when no possible tile of the
    cell has a weight, which is the case of a cell emptied by a
    contradiction, and [OverflowError] only when the sum of the weights of
    the possible tiles, or one of them, does not convert to [float]. *)
Theorem collapse_without_candidate `{FloatOps F} (wf : Wavefunction)
    (c : Coordinates) (s : Coefficients) (r : Q) :
  get wf c = Ok s →
  (collapse wf c r = Raise IndexError ↔ ∀ t, t ∈ s → t ∉ keys (weights wf)) ∧
  (s = ∅ → collapse wf c r = Raise IndexError) ∧
  (∀ e, collapse wf c r = Raise e → e = IndexError ∨ e = OverflowError) ∧
  (collapse wf c r = Raise OverflowError →
   ¬ fits (py_sum (filtered_tiles_with_weights wf s).*2) ∨
   ∃ tw, tw ∈ filtered_tiles_with_weights wf s ∧ ¬ fits tw.2).
Proof.
  intros Hget.
  assert (Hraise : (∀ t, t ∈ s → t ∉ keys (weights wf)) →
                   collapse wf c r = Raise IndexError).
  { intros Hno%filtered_nil. by apply (collapse_no_candidate wf c s r Hget). }
  split; [split; [|done]|split; [|split]].
  - intros Hr. apply filtered_nil.
    by apply (collapse_Raise wf c s r _ Hget) in Hr as [[_ ?]|[? _]].
  - intros ->. apply Hraise. set_solver.
  - intros e He.
    apply (collapse_Raise wf c s r _ Hget) in He as [[-> _]|[-> _]]; auto.
  - intros Hr.
    by apply (collapse_Raise wf c s r _ Hget) in Hr as [[? _]|[_ ?]].
Qed.

Lemma collapse_without_candidate_witness :
  collapse (F:=Q) wf_contradiction (0, 0) (1 # 2)%Q = Raise IndexError.
Proof.
  apply (collapse_without_candidate (F:=Q) wf_contradiction (0, 0) ∅ (1 # 2)%Q);
    reflexivity.
Defined.

(** X7. Collapsing a cell that is already collapsed to a tile with a
    weight changes nothing, whatever the draw: the call returns with the
    wavefunction as it was when the weight of the tile converts to
    [float], and raises [OverflowError] otherwise. *)
Theorem collapse_collapsed_cell `{FloatOps F} (wf : Wavefunction)
    (c : Coordinates) (t : Tile) (r : Q) :
  get wf c = Ok {[ t ]} → t ∈ keys (weights wf) →
  (collapse wf c r = Ok wf ∨ collapse wf c r = Raise OverflowError) ∧
  (fits (py_sum (filtered_tiles_with_weights wf {[ t ]}).*2) →
   Forall (λ tw : Tile * Z, fits tw.2) (filtered_tiles_with_weights wf {[ t ]}) →
   collapse wf c r = Ok wf).
Proof.
  intros Hget Hk.
  assert (Hsame : ∀ wf', collapse wf c r = Ok wf' → wf' = wf).
  { intros wf' Hcol. apply collapse_Ok in Hcol
      as (i & j & s & chosen & Hl & Hc & Hch & _ & HM & Hw).
    apply get_Ok in Hget as (i' & j' & Hl' & Hc').
    assert (i' = i ∧ j' = j) as [-> ->] by (split; congruence).
    assert (s = {[ t ]}) as -> by congruence.
    apply elem_of_singleton in Hch as ->.
    rewrite set_at_id in HM by done.
    destruct wf, wf'. simpl in *. by subst. }
  assert (Hne : filtered_tiles_with_weights wf {[ t ]} ≠ []).
  { intros Hnil. apply (proj1 (filtered_nil wf {[ t ]}) Hnil t); set_solver. }
  split.
  - destruct (collapse wf c r) as [wf'|e] eqn:Hcol.
    + left. f_equal. by apply Hsame.
    + right. f_equal.
      by apply (collapse_Raise wf c {[ t ]} r _ Hget) in Hcol as [[_ ?]|[? _]].
  - intros Htotal Hall.
    destruct (collapse_fits wf c {[ t ]} r Hget Hne Htotal Hall) as [wf' Hcol].
    rewrite Hcol. f_equal. by apply Hsame.
Qed.

Lemma collapse_collapsed_cell_witness :
  collapse (F:=Q) (wavefunction collapsed_model) (0, 0) (1 # 2)%Q =
  Ok (wavefunction collapsed_model).
Proof.
  apply (collapse_collapsed_cell (F:=Q) (wavefunction collapsed_model) (0, 0)
           "X"%string (1 # 2)%Q).
  - vm_compute. reflexivity.
  - simpl. apply list_elem_of_here.
  - vm_compute. reflexivity.
  - repeat constructor.
Defined.

(** ** More on [propagate] *)

Lemma constrain_present (wf : Wavefunction) (c : Coordinates) (t : Tile)
    (s : Coefficients) :
  get wf c = Ok s → t ∈ s → ∃ wf', constrain wf c t = Ok wf'.
Proof.
  intros Hget Ht. unfold constrain. rewrite Hget, bind_Ok_l.
  rewrite bool_decide_eq_true_2 by done. rewrite set_cell_locate.
  apply get_Ok in Hget as (i & j & -> & _). eauto.
Qed.

Lemma supported_existsb (o : CompatibilityOracle) (wf : Wavefunction)
    (cur : Coordinates) (d : Direction) (t : Tile) :
  existsb (λ cur_tile, check o cur_tile t d) (elements (tiles_at wf cur)) = true
  ↔ has_support o wf cur d t.
Proof.
  rewrite existsb_exists. unfold has_support. split.
  - intros (a & Ha & Hchk). exists a. split; [|done].
    by apply elem_of_elements, list_elem_of_In.
  - intros (a & Ha & Hchk). exists a. split; [|done].
    by apply list_elem_of_In, elem_of_elements.
Qed.

Section propagation_total.
Variable m : Model.

Notation o := (compatibility_oracle m).
Notation dims := (output_size m).
Notation shaped wf := (shape_ok dims (coefficient_matrix wf)).

Lemma propagate_tiles_total (l : list Tile) (wf : Wavefunction)
    (stack : list Coordinates) (cur other : Coordinates) (d : Direction) :
  shaped wf → in_grid dims cur → in_grid dims other →
  NoDup l → (∀ t, t ∈ l → t ∈ tiles_at wf other) →
  ∃ st', for_each (propagate_tile o cur d other) l (wf, stack) = Ok st'.
Proof.
  revert wf stack.
  induction l as [|t l IH]; intros wf stack Hshape Hcur Hother Hnd Hin;
    cbn [for_each]; [eauto|].
  apply NoDup_cons in Hnd as [Hnotin Hnd].
  destruct (propagate_tile o cur d other (wf, stack) t) as [[wf1 stack1]|e]
    eqn:Hstep.
  - rewrite bind_Ok_l.
    apply propagate_tile_spec with (size := dims) in Hstep; [|done..].
    destruct Hstep as [(_ & -> & ->)|(_ & _ & -> & Hshape1 & Htiles)].
    + apply IH; [done..|]. intros t' Ht'. apply Hin. set_solver.
    + apply IH; [done..|]. intros t' Ht'.
      rewrite (Htiles other Hother), decide_True by done.
      apply elem_of_difference. split; [apply Hin; set_solver|].
      intros ->%elem_of_singleton. done.
  - exfalso. unfold propagate_tile in Hstep.
    rewrite (get_tiles_at dims) in Hstep by done.
    rewrite bind_Ok_l in Hstep. destruct (existsb _ _); [done|].
    destruct (constrain_present wf other t (tiles_at wf other)) as [wf' Hwf'].
    + by apply (get_tiles_at dims).
    + apply Hin. set_solver.
    + by rewrite Hwf' in Hstep.
Qed.

Lemma propagate_dir_total (wf : Wavefunction) (stack : list Coordinates)
    (cur : Coordinates) (d : Direction) :
  shaped wf → in_grid dims cur → d ∈ valid_dirs cur dims →
  ∃ st', propagate_dir o cur (wf, stack) d = Ok st'.
Proof.
  intros Hshape Hcur Hd.
  destruct (valid_dirs_neighbour dims cur d Hcur Hd) as [Hother _].
  unfold propagate_dir. fold (neighbour cur d). cbn [fst].
  rewrite (get_tiles_at dims) by done. rewrite bind_Ok_l.
  apply propagate_tiles_total; [done..|apply NoDup_elements|].
  intros t Ht. by apply elem_of_elements.
Qed.

(** The stack stays within the grid. *)
Lemma propagate_dir_grid (wf wf' : Wavefunction)
    (stack stack' : list Coordinates) (cur : Coordinates) (d : Direction) :
  shaped wf → in_grid dims cur → d ∈ valid_dirs cur dims →
  Forall (in_grid dims) stack →
  propagate_dir o cur (wf, stack) d = Ok (wf', stack') →
  shaped wf' ∧ Forall (in_grid dims) stack'.
Proof.
  intros Hshape Hcur Hd Hstk Hdir.
  destruct (valid_dirs_neighbour dims cur d Hcur Hd) as [Hother _].
  destruct (propagate_dir_spec o dims _ _ _ _ _ _ Hshape Hcur Hd Hdir)
    as (Hshape' & _ & _ & _ & Hstack).
  split; [done|]. apply Forall_forall. intros c [Hc|[-> _]]%Hstack; [|done].
  rewrite Forall_forall in Hstk. by apply Hstk.
Qed.

Lemma propagate_step_total (wf : Wavefunction) (stack : list Coordinates)
    (cur : Coordinates) :
  shaped wf → in_grid dims cur → Forall (in_grid dims) stack →
  ∃ wf' stack', propagate_step m (wf, stack) cur = Ok (wf', stack') ∧
                shaped wf' ∧ Forall (in_grid dims) stack'.
Proof.
  intros Hshape Hcur Hstk. unfold propagate_step. cbn [fst].
  rewrite (get_tiles_at dims) by done. rewrite bind_Ok_l.
  destruct (for_each_total
              (λ st : prop_state, shaped st.1 ∧ Forall (in_grid dims) st.2)
              (propagate_dir o cur) (valid_dirs cur dims) (wf, stack))
    as ([wf' stack'] & Hrun & Hshape' & Hstk'); [done| |eauto].
  intros d [wf1 stack1] Hd [Hshape1 Hstk1]. simpl in *.
  destruct (propagate_dir_total wf1 stack1 cur d Hshape1 Hcur Hd)
    as [[wf2 stack2] Hdir].
  exists (wf2, stack2). split; [done|]. by eapply propagate_dir_grid.
Qed.

Lemma propagate_loop_total (fuel : nat) (wf : Wavefunction)
    (stack : list Coordinates) :
  shaped wf → Forall (in_grid dims) stack →
  (propagate_bound wf stack ≤ fuel)%nat →
  ∃ wf', propagate_loop fuel m wf stack = Some (Ok wf').
Proof.
  revert wf stack. induction fuel as [|fuel IH]; intros wf stack Hshape Hstk Hb.
  - destruct stack as [|c stack]; simpl; [eauto|].
    unfold propagate_bound in Hb. simpl in Hb. lia.
  - destruct stack as [|c stack]; simpl; [eauto|].
    apply Forall_cons_1 in Hstk as [Hc Hstk].
    destruct (propagate_step_total wf stack c Hshape Hc Hstk)
      as (wf1 & stack1 & Hstep & Hshape1 & Hstk1).
    rewrite Hstep. apply IH; [done..|].
    apply propagate_step_conserves in Hstep as (Hn & _).
    unfold propagate_bound in *. simpl in *. lia.
Qed.

(** X8. Started at a cell of the grid, on a matrix of the shape of the
    grid, [propagate] raises no exception: it never indexes outside the
    matrix and never removes a tile that is absent.  It returns a
    wavefunction of the same shape and weights whose cells are subsets of
    what they were. *)
Theorem propagate_never_raises (co_ords : Coordinates) :
  shaped (wavefunction m) → in_grid dims co_ords →
  ∃ m', propagate m co_ords = Some (Ok m') ∧
        shaped (wavefunction m') ∧
        shrinks (coefficient_matrix (wavefunction m))
                (coefficient_matrix (wavefunction m')) ∧
        weights (wavefunction m') = weights (wavefunction m) ∧
        output_size m' = dims ∧ compatibility_oracle m' = o.
Proof.
  intros Hshape Hc.
  destruct (propagate_loop_total
              (propagate_bound (wavefunction m) [co_ords])
              (wavefunction m) [co_ords] Hshape)
    as [wf' Hloop]; [by apply Forall_singleton|done|].
  exists (with_wavefunction m wf'). unfold propagate. rewrite Hloop.
  split; [done|]. apply propagate_loop_shrinks in Hloop as [Hs Hw].
  simpl. split; [by eapply shrinks_shape_ok|]. done.
Qed.

(** *** Solutions *)

Variable g : Coordinates → Tile.
Hypothesis g_solution : solution o dims g.

Lemma propagate_dir_within (wf wf' : Wavefunction)
    (stack stack' : list Coordinates) (cur : Coordinates) (d : Direction) :
  shaped wf → in_grid dims cur → d ∈ valid_dirs cur dims →
  within dims wf g →
  propagate_dir o cur (wf, stack) d = Ok (wf', stack') →
  within dims wf' g.
Proof.
  intros Hshape Hcur Hd Hin.
  destruct (valid_dirs_neighbour dims cur d Hcur Hd) as [Hother Hne].
  unfold propagate_dir. fold (neighbour cur d). cbn [fst].
  intros (s & _ & Hloop)%bind_Ok.
  assert (Hend : shaped (wf', stack').1 ∧ within dims (wf', stack').1 g);
    [|by destruct Hend].
  revert Hloop.
  apply (for_each_inv (λ st : prop_state, shaped st.1 ∧ within dims st.1 g));
    [done|].
  intros t [wf1 stack1] [wf2 stack2] _ [Hshape1 Hin1] Hstep. simpl in *.
  apply propagate_tile_spec with (size := dims) in Hstep; [|done..].
  destruct Hstep as [(_ & -> & ->)|(Hns & _ & -> & Hshape2 & Htiles)]; [done|].
  split; [done|]. intros c Hc. rewrite (Htiles c Hc).
  destruct (decide (c = neighbour cur d)) as [->|Hcn]; [|by apply Hin1].
  apply elem_of_difference. split; [by apply Hin1|].
  intros Heq%elem_of_singleton. apply Hns. exists (g cur).
  split; [by apply Hin1|]. rewrite <- Heq. by apply g_solution.
Qed.

Lemma propagate_loop_within (fuel : nat) (wf wf' : Wavefunction)
    (stack : list Coordinates) :
  shaped wf → Forall (in_grid dims) stack → within dims wf g →
  propagate_loop fuel m wf stack = Some (Ok wf') →
  within dims wf' g.
Proof.
  revert wf stack. induction fuel as [|fuel IH]; intros wf stack Hshape Hstk Hin.
  - destruct stack; simpl; [|done]. by intros [= <-].
  - destruct stack as [|cur stack]; simpl; [by intros [= <-]|].
    apply Forall_cons_1 in Hstk as [Hcur Hstk].
    destruct (propagate_step m (wf, stack) cur) as [[wf1 stack1]|e] eqn:Hstep;
      [|done].
    assert (Hend : (shaped (wf1, stack1).1 ∧
                    Forall (in_grid dims) (wf1, stack1).2) ∧
                   within dims (wf1, stack1).1 g).
    { unfold propagate_step in Hstep.
      apply bind_Ok in Hstep as (s & _ & Hloop). revert Hloop.
      apply (for_each_inv
               (λ st : prop_state,
                  (shaped st.1 ∧ Forall (in_grid dims) st.2) ∧
                  within dims st.1 g)); [done|].
      intros d [wf2 stack2] [wf3 stack3] Hd [[Hshape2 Hstk2] Hin2] Hdir.
      simpl in *. split; [by eapply propagate_dir_grid|].
      by eapply propagate_dir_within. }
    destruct Hend as [[Hshape1 Hstk1] Hin1]. simpl in *. by apply IH.
Qed.

(** X9. [propagate] never removes a tile that a solution uses: an
    assignment of tiles in which all adjacent cells of the grid are
    compatible, and which only uses tiles that are possible, still only
    uses possible tiles afterwards; in particular no cell has been
    emptied. *)
Theorem propagate_keeps_solutions (co_ords : Coordinates) (m' : Model) :
  shaped (wavefunction m) → in_grid dims co_ords →
  within dims (wavefunction m) g →
  propagate m co_ords = Some (Ok m') →
  within dims (wavefunction m') g ∧
  ∀ c, in_grid dims c → tiles_at (wavefunction m') c ≠ ∅.
Proof.
  intros Hshape Hc Hin. unfold propagate.
  destruct (propagate_loop _ m _ _) as [[wf'|e]|] eqn:Hloop; [|done..].
  intros [= <-]. simpl.
  apply propagate_loop_within in Hloop; [|done|by apply Forall_singleton|done].
  split; [done|]. intros c Hcg Hempty.
  specialize (Hloop c Hcg). rewrite Hempty in Hloop. set_solver.
Qed.
End propagation_total.

(** X10. When every possible tile of every neighbour of a cell of the
    grid is compatible with some possible tile of the cell, [propagate]
    from that cell changes nothing. *)
Theorem propagate_supported_cell (m : Model) (co_ords : Coordinates) :
  shape_ok (output_size m) (coefficient_matrix (wavefunction m)) →
  in_grid (output_size m) co_ords →
  settled (compatibility_oracle m) (output_size m) (wavefunction m) co_ords →
  propagate m co_ords = Some (Ok m).
Proof.
  intros Hshape Hc Hset.
  assert (Hstep : propagate_step m (wavefunction m, []) co_ords =
                  Ok (wavefunction m, [])).
  { unfold propagate_step. cbn [fst].
    rewrite (get_tiles_at (output_size m)) by done. rewrite bind_Ok_l.
    apply for_each_skip. intros d Hd.
    destruct (valid_dirs_neighbour _ co_ords d Hc Hd) as [Hother _].
    unfold propagate_dir. fold (neighbour co_ords d). cbn [fst].
    rewrite (get_tiles_at (output_size m)) by done. rewrite bind_Ok_l.
    apply for_each_skip. intros t Ht%elem_of_elements.
    unfold propagate_tile.
    rewrite (get_tiles_at (output_size m)) by done. rewrite bind_Ok_l.
    replace (existsb _ _) with true; [done|]. symmetry.
    apply supported_existsb. by apply Hset. }
  unfold propagate, propagate_bound. simpl. rewrite Hstep.
  clear. destruct (total_size (wavefunction m)); by destruct m.
Qed.

Lemma propagate_supported_cell_witness :
  propagate solved_model (0, 0) = Some (Ok solved_model).
Proof.
  apply (propagate_supported_cell solved_model (0, 0)).
  - split; [reflexivity|]. repeat constructor.
  - unfold in_grid. simpl. lia.
  - intros d Hd. vm_compute in Hd. apply list_elem_of_singleton in Hd as ->.
    intros t' Ht'.
    change (tiles_at (wavefunction solved_model) (neighbour (0, 0) (0, 1)))
      with ({[ "Y"%string ]} : Coefficients) in Ht'.
    apply elem_of_singleton in Ht' as ->.
    exists "X"%string. split; [|by vm_compute].
    change (tiles_at (wavefunction solved_model) (0, 0))
      with ({[ "X"%string ]} : Coefficients).
    by apply elem_of_singleton.
Defined.

Lemma scenario_in_grid_00 : in_grid (2, 1) (0, 0).
Proof. unfold in_grid. simpl. lia. Defined.

Lemma propagate_never_raises_witness :
  ∃ m', propagate scenario_model (0, 0) = Some (Ok m') ∧
        shape_ok (2, 1) (coefficient_matrix (wavefunction m')) ∧
        shrinks (coefficient_matrix (wavefunction scenario_model))
                (coefficient_matrix (wavefunction m')) ∧
        weights (wavefunction m') = weights (wavefunction scenario_model) ∧
        output_size m' = (2, 1) ∧ compatibility_oracle m' = scenario_oracle.
Proof.
  apply (propagate_never_raises scenario_model (0, 0) (mk_shape_ok _ _)
           scenario_in_grid_00).
Defined.

(** The assignment of the scenario: ["X"] in the first column, ["Y"]
    elsewhere. *)
Lemma scenario_solution :
  solution scenario_oracle (2, 1)
           (λ c, if bool_decide (c.2 = 0) then "X"%string else "Y"%string).
Proof.
  intros [y x] d [Hy Hx] Hd. simpl in Hy, Hx.
  assert (y = 0) as -> by lia.
  assert (x = 0 ∨ x = 1) as [-> | ->] by lia; vm_compute in Hd;
    apply list_elem_of_singleton in Hd as ->; vm_compute; reflexivity.
Defined.

Lemma scenario_within :
  within (2, 1) (wavefunction scenario_model)
         (λ c, if bool_decide (c.2 = 0) then "X"%string else "Y"%string).
Proof.
  intros [y x] [Hy Hx]. simpl in Hy, Hx.
  assert (y = 0) as -> by lia.
  assert (x = 0 ∨ x = 1) as [-> | ->] by lia; simpl;
    change (tiles_at (wavefunction scenario_model) _) with U_XY;
    unfold U_XY; apply elem_of_list_to_set; set_solver.
Defined.

Lemma propagate_keeps_solutions_witness :
  within (2, 1)
         (mkWavefunction [[{[ "X"%string ]}; {[ "Y"%string ]}]]
                         [("X"%string, 1); ("Y"%string, 1)])
         (λ c, if bool_decide (c.2 = 0) then "X"%string else "Y"%string).
Proof.
  apply (propagate_keeps_solutions scenario_model _ scenario_solution (0, 0)
           (mkModel (2, 1) scenario_oracle
              (mkWavefunction [[{[ "X"%string ]}; {[ "Y"%string ]}]]
                              [("X"%string, 1); ("Y"%string, 1)]))
           (mk_shape_ok _ _) scenario_in_grid_00 scenario_within).
  vm_compute. reflexivity.
Defined.

(** ** [shannon_entropy] and contradictions *)

Lemma dict_get_elem (w : Weights) (t : Tile) (v : Z) :
  dict_get w t = Ok v → (t, v) ∈ w.
Proof.
  induction w as [|[k v'] w IH]; simpl; [done|].
  case_decide as Hk; [intros [= <-]; subst; set_solver|].
  intros Hw. apply IH in Hw. set_solver.
Qed.

Lemma shannon_entropy_empty `{FloatOps F} (wf : Wavefunction) (c : Coordinates) :
  get wf c = Ok ∅ → shannon_entropy (F:=F) wf c = Raise ValueError.
Proof.
  intros Hget. unfold shannon_entropy.
  rewrite Hget, bind_Ok_l, elements_empty. done.
Qed.

Lemma py_sum_app (l1 l2 : list Z) : py_sum (l1 ++ l2) = py_sum l1 + py_sum l2.
Proof.
  induction l1 as [|a l1 IH]; [done|].
  change (a + py_sum (l1 ++ l2) = a + py_sum l1 + py_sum l2). lia.
Qed.

Lemma py_sum_Permutation (l1 l2 : list Z) : l1 ≡ₚ l2 → py_sum l1 = py_sum l2.
Proof.
  induction 1 as [|a l1 l2 _ IH|a b l|l1 l2 l3 _ IH1 _ IH2]; [done| | |congruence].
  - change (a + py_sum l1 = a + py_sum l2). lia.
  - change (b + (a + py_sum l) = a + (b + py_sum l)). lia.
Qed.

Lemma py_sum_nonneg (l : list (Tile * Z)) :
  Forall (λ tw : Tile * Z, 0 ≤ tw.2) l → 0 ≤ py_sum l.*2.
Proof.
  induction l as [|[t w] l IH]; intros Hl; [done|].
  apply Forall_cons_1 in Hl as [Hw Hl]. simpl in Hw.
  specialize (IH Hl). change (0 ≤ w + py_sum l.*2). lia.
Qed.

(** With weights that are not negative, the weights of some of the
    entries add up to at most the sum of all. *)
Lemma py_sum_submseteq (l1 l2 : list (Tile * Z)) :
  l1 ⊆+ l2 → Forall (λ tw : Tile * Z, 0 ≤ tw.2) l2 →
  0 ≤ py_sum l1.*2 ≤ py_sum l2.*2.
Proof.
  intros [k Hk]%submseteq_Permutation Hpos.
  rewrite (py_sum_Permutation l2.*2 (l1 ++ k).*2) by (by rewrite Hk).
  rewrite Hk in Hpos. apply Forall_app in Hpos as [H1 H2].
  rewrite fmap_app, py_sum_app.
  apply py_sum_nonneg in H1, H2. lia.
Qed.

Lemma small_weights_sum (w l : list (Tile * Z)) :
  small_weights w → l ⊆+ w → fits (py_sum l.*2).
Proof.
  intros [Hpos Hsum] Hl. unfold fits.
  pose proof (py_sum_submseteq l w Hl Hpos). lia.
Qed.

Lemma small_weights_fits (w : Weights) (tw : Tile * Z) :
  small_weights w → tw ∈ w → fits tw.2.
Proof.
  intros Hsmall Hin.
  assert (Hsub : [tw] ⊆+ w).
  { apply NoDup_submseteq; [apply NoDup_singleton|].
    by intros x ->%list_elem_of_singleton. }
  pose proof (small_weights_sum w [tw] Hsmall Hsub) as Hfits.
  unfold fits in *. change (py_sum [tw].*2) with (tw.2 + 0) in Hfits.
  by rewrite Z.add_0_r in Hfits.
Qed.

Lemma positive_small_weights (w : Weights) :
  positive_weights w → py_sum w.*2 < float_limit → small_weights w.
Proof.
  intros Hpos Hsum. split; [|done].
  eapply Forall_impl; [exact Hpos|]. intros tw. simpl. lia.
Qed.

(** What the loop of [shannon_entropy] has added up when it ends: the
    weights of the tiles, each positive and converted to [float]. *)
Lemma shannon_sums_Ok `{FloatOps F} (w : Weights) (l : list Tile)
    (acc acc' : Z * F) :
  for_each (λ (acc : Z * F) option,
              weight ← dict_get w option;
              log_weight ← math_log weight;
              float_weight ← py_float weight;
              Ok (acc.1 + weight, fadd acc.2 (fmul float_weight log_weight)))
           l acc = Ok acc' →
  ∃ tvs : list (Tile * Z),
    tvs.*1 = l ∧
    (∀ tv, tv ∈ tvs → tv ∈ w ∧ 0 < tv.2 ∧ fits tv.2) ∧
    acc'.1 = acc.1 + py_sum tvs.*2.
Proof.
  revert acc. induction l as [|t l IH]; intros acc; cbn [for_each].
  - intros [= <-]. exists []. split; [done|]. split; [set_solver|].
    change (py_sum [].*2) with 0. lia.
  - intros (acc1 & Hbody & Hrest)%bind_Ok.
    apply bind_Ok in Hbody as (v & Hv & Hbody).
    apply bind_Ok in Hbody as (lw & Hlw & Hbody).
    apply bind_Ok in Hbody as (fw & [Hfits _]%py_float_Ok & [= <-]).
    apply IH in Hrest as (tvs & Htvs & Hin & Hsum). simpl in Hsum.
    exists ((t, v) :: tvs). split; [by rewrite <- Htvs|]. split.
    + intros tv [->|Htv]%elem_of_cons; [|by apply Hin].
      split; [by apply dict_get_elem|]. split; [|done]. simpl.
      unfold math_log in Hlw. case_bool_decide; [done|lia].
    + change (py_sum ((t, v) :: tvs).*2) with (v + py_sum tvs.*2). lia.
Qed.

Lemma shannon_sums_total `{FloatOps F} (w : Weights) (l : list Tile)
    (acc : Z * F) :
  positive_weights w → (∀ tw, tw ∈ w → fits tw.2) →
  (∀ t, t ∈ l → t ∈ keys w) →
  ∃ acc',
    for_each (λ (acc : Z * F) option,
                weight ← dict_get w option;
                log_weight ← math_log weight;
                float_weight ← py_float weight;
                Ok (acc.1 + weight, fadd acc.2 (fmul float_weight log_weight)))
             l acc = Ok acc' ∧
    acc.1 + Z.of_nat (length l) ≤ acc'.1.
Proof.
  intros Hpos Hfits. revert acc. induction l as [|t l IH]; intros acc Hkeys.
  - exists acc. split; [done|]. simpl. lia.
  - destruct (dict_get_Ok w t) as [v Hv]; [apply Hkeys; set_solver|].
    pose proof (dict_get_elem _ _ _ Hv) as Hin.
    assert (0 < v) as Hv0.
    { unfold positive_weights in Hpos.
      rewrite Forall_forall in Hpos. by apply (Hpos (t, v)). }
    cbn [for_each]. rewrite Hv, bind_Ok_l. unfold math_log.
    rewrite bool_decide_eq_false_2 by lia. rewrite bind_Ok_l.
    rewrite (py_float_fits v) by (by apply (Hfits (t, v))).
    rewrite !bind_Ok_l.
    destruct (IH (acc.1 + v,
                  fadd acc.2 (fmul (float_of_int v) (flog (float_of_int v)))))
      as (acc' & Hrun & Hle); [intros t' Ht'; apply Hkeys; set_solver|].
    exists acc'. split; [done|]. simpl in *. lia.
Qed.

(** The sum that [shannon_entropy] divides by converts to [float] when
    the weights are small. *)
Lemma shannon_sum_fits (w : Weights) (s : Coefficients)
    (tvs : list (Tile * Z)) :
  small_weights w → tvs.*1 = elements s → (∀ tv, tv ∈ tvs → tv ∈ w) →
  fits (py_sum tvs.*2).
Proof.
  intros Hsmall Htvs Hin. apply (small_weights_sum w); [done|].
  apply NoDup_submseteq; [|done].
  apply (NoDup_fmap_1 fst). rewrite Htvs. apply NoDup_elements.
Qed.

Lemma shannon_entropy_Raise `{FloatOps F} (wf : Wavefunction) (c : Coordinates)
    (s : Coefficients) (e : PyError) :
  get wf c = Ok s → (∀ t, t ∈ s → t ∈ keys (weights wf)) →
  shannon_entropy (F:=F) wf c = Raise e →
  e = ValueError ∨ (e = OverflowError ∧ ¬ small_weights (weights wf)).
Proof.
  intros Hget Hkeys. unfold shannon_entropy. rewrite Hget, bind_Ok_l.
  destruct (for_each _ (elements s) _) as [sums|e'] eqn:Hloop.
  - rewrite bind_Ok_l. destruct (math_log sums.1) as [l|e'] eqn:Hlog.
    + rewrite bind_Ok_l.
      destruct (py_float sums.1) as [fs|e'] eqn:Hfs; [done|].
      simpl. intros [= <-]. apply py_float_Raise in Hfs as [Hno ->].
      right. split; [done|]. intros Hsmall. apply Hno.
      apply shannon_sums_Ok in Hloop as (tvs & Htvs & Hin & ->). simpl.
      apply (shannon_sum_fits (weights wf) s); [done..|].
      intros tv Htv. by apply Hin.
    + simpl. intros [= <-]. left. by eapply math_log_Raise.
  - simpl. intros [= <-].
    apply for_each_Raise in Hloop as (t & acc & Ht & Hbody).
    apply elem_of_elements, Hkeys, dict_get_Ok in Ht as [v Hv].
    rewrite Hv, bind_Ok_l in Hbody.
    destruct (math_log v) as [l|e] eqn:Hlog.
    + rewrite bind_Ok_l in Hbody.
      destruct (py_float v) as [fv|e] eqn:Hfv; [done|].
      simpl in Hbody. injection Hbody as <-.
      apply py_float_Raise in Hfv as [Hno ->].
      right. split; [done|]. intros Hsmall. apply Hno.
      apply (small_weights_fits (weights wf) (t, v) Hsmall).
      by apply dict_get_elem.
    + simpl in Hbody. injection Hbody as <-. left. by eapply math_log_Raise.
Qed.

Lemma shannon_entropy_positive `{FloatOps F} (wf : Wavefunction)
    (c : Coordinates) (s : Coefficients) :
  positive_weights (weights wf) → small_weights (weights wf) →
  get wf c = Ok s →
  (∀ t, t ∈ s → t ∈ keys (weights wf)) → s ≠ ∅ →
  ∃ e : F, shannon_entropy wf c = Ok e.
Proof.
  intros Hpos Hsmall Hget Hkeys Hne.
  unfold shannon_entropy. rewrite Hget, bind_Ok_l.
  destruct (shannon_sums_total (weights wf) (elements s) (0, float_of_int 0) Hpos)
    as (sums & Hloop & Hle);
    [intros tw; by apply small_weights_fits
    |by intros t Ht%elem_of_elements; apply Hkeys|].
  rewrite Hloop, bind_Ok_l. unfold math_log.
  assert (elements s ≠ []) as Hel.
  { intros Hel%elements_empty_iff. apply Hne. by apply leibniz_equiv. }
  rewrite bool_decide_eq_false_2;
    [|simpl in Hle; destruct (elements s); [done|]; simpl in Hle; lia].
  rewrite bind_Ok_l, py_float_fits; [rewrite bind_Ok_l; eauto|].
  apply shannon_sums_Ok in Hloop as (tvs & Htvs & Hin & ->). simpl.
  apply (shannon_sum_fits (weights wf) s); [done..|].
  intros tv Htv. by apply Hin.
Qed.

(** X11. At a cell that exists, [shannon_entropy] raises [ValueError]
    when the cell is empty.  When the possible tiles of the cell have
    weights it raises nothing but [ValueError] and [OverflowError], and
    [OverflowError] only if some weight is negative or the sum of the
    weights does not convert to [float]; and with positive weights whose
    sum converts it raises only if the cell is empty. *)
Theorem shannon_entropy_errors `{FloatOps F} (wf : Wavefunction)
    (c : Coordinates) (s : Coefficients) :
  get wf c = Ok s →
  (s = ∅ → shannon_entropy (F:=F) wf c = Raise ValueError) ∧
  ((∀ t, t ∈ s → t ∈ keys (weights wf)) →
   (∀ e, shannon_entropy (F:=F) wf c = Raise e →
         e = ValueError ∨
         (e = OverflowError ∧ ¬ small_weights (weights wf))) ∧
   (positive_weights (weights wf) →
    py_sum (weights wf).*2 < float_limit → s ≠ ∅ →
    ∃ e : F, shannon_entropy wf c = Ok e)).
Proof.
  intros Hget. split.
  - intros ->. by apply shannon_entropy_empty.
  - intros Hkeys. split.
    + intros e. by eapply shannon_entropy_Raise.
    + intros Hpos Hsum Hne.
      eapply shannon_entropy_positive; [done| |done..].
      by apply positive_small_weights.
Qed.

Lemma shannon_entropy_errors_witness :
  shannon_entropy (F:=Q) wf_contradiction (0, 0) = Raise ValueError.
Proof.
  apply (shannon_entropy_errors (F:=Q) wf_contradiction (0, 0) ∅);
    reflexivity.
Defined.

Lemma tiles_at_keys (wf : Wavefunction) (c : Coordinates) (t : Tile) :
  tiles_have_weights wf → t ∈ tiles_at wf c → t ∈ keys (weights wf).
Proof.
  intros Hinv. unfold tiles_at.
  destruct (cell_at _ _ _) as [s|] eqn:Hc; simpl; [|set_solver].
  by eapply tiles_have_weights_cell.
Qed.

Section outcomes.
Context `{FloatOps F}.
Variable m : Model.

Notation dims := (output_size m).
Notation wf := (wavefunction m).

Hypothesis shaped : shape_ok dims (coefficient_matrix wf).

Lemma scan_cell_Raise (y x : Z) (st : scan_state F) (e : PyError) :
  in_grid dims (y, x) →
  scan_cell m y st x = Raise e →
  size (tiles_at wf (y, x)) ≠ 1%nat ∧
  shannon_entropy (F:=F) wf (y, x) = Raise e.
Proof.
  intros Hin. destruct st as [[mn co] rg]. unfold scan_cell.
  rewrite (get_tiles_at dims) by done. rewrite bind_Ok_l.
  case_bool_decide as Hsz; [done|].
  destruct (shannon_entropy wf (y, x)) as [en|e'] eqn:Hen.
  - rewrite bind_Ok_l. simpl. destruct mn as [e0|]; [destruct (flt _ e0)|]; done.
  - simpl. by intros [= <-].
Qed.

Lemma min_entropy_co_ords_Raise (rng : Rng) (e : PyError) :
  min_entropy_co_ords (F:=F) m rng = Raise e →
  ∃ c, in_grid dims c ∧ shannon_entropy (F:=F) wf c = Raise e.
Proof.
  rewrite min_entropy_co_ords_scan.
  destruct (scan_rows m rng) as [st|e'] eqn:Hscan; [done|].
  simpl. intros [= <-]. unfold scan_rows in Hscan.
  apply for_each_Raise in Hscan as (y & st & Hy%elem_of_py_range & Hrow).
  apply for_each_Raise in Hrow as (x & st' & Hx%elem_of_py_range & Hcell).
  exists (y, x). split; [done|]. by eapply scan_cell_Raise.
Qed.

Lemma min_entropy_co_ords_empty_cell (rng : Rng) (c : Coordinates) :
  in_grid dims c → tiles_at wf c = ∅ →
  ∃ e, min_entropy_co_ords (F:=F) m rng = Raise e.
Proof.
  intros Hc Hempty.
  destruct (min_entropy_co_ords m rng) as [[co rng']|e] eqn:Hmin; [|eauto].
  exfalso. rewrite min_entropy_co_ords_scan in Hmin.
  apply bind_Ok in Hmin as (st & Hscan & _). unfold scan_rows in Hscan.
  destruct c as [y x]. destruct Hc as [Hy Hx]. simpl in Hy, Hx.
  revert Hscan.
  apply (for_each_elem (λ _, False) _ _ y); [by apply elem_of_py_range| |done].
  intros st1 st2.
  apply (for_each_elem (λ _, False) _ _ x); [by apply elem_of_py_range| |done].
  intros [[mn co'] rg] st4. unfold scan_cell.
  rewrite (get_tiles_at dims) by done. rewrite bind_Ok_l, Hempty.
  rewrite bool_decide_eq_false_2 by (rewrite size_empty; lia).
  rewrite shannon_entropy_empty; [done|].
  rewrite <- Hempty. by apply (get_tiles_at dims).
Qed.

Lemma filtered_small_weights (s : Coefficients) :
  small_weights (weights wf) →
  fits (py_sum (filtered_tiles_with_weights wf s).*2) ∧
  Forall (λ tw : Tile * Z, fits tw.2) (filtered_tiles_with_weights wf s).
Proof.
  intros Hsmall. split.
  - apply (small_weights_sum (weights wf)); [done|].
    apply sublist_submseteq, sublist_filter.
  - apply Forall_forall. intros tw [_ Hin]%list_elem_of_filter.
    by apply (small_weights_fits (weights wf)).
Qed.

(** What a call of [iterate] made before the wavefunction is fully
    collapsed comes to, when the possible tiles have weights. *)
Lemma iterate_outcome (rng : Rng) :
  tiles_have_weights wf → is_fully_collapsed wf = false →
  (∃ c e, in_grid dims c ∧ iterate (F:=F) m rng = Some (Raise e) ∧
          shannon_entropy (F:=F) wf c = Raise e ∧
          (e = ValueError ∨
           (e = OverflowError ∧ ¬ small_weights (weights wf)))) ∨
  (iterate (F:=F) m rng = Some (Raise OverflowError) ∧
   ¬ small_weights (weights wf)) ∨
  (∃ m' rng',
     iterate (F:=F) m rng = Some (Ok (m', rng')) ∧
     shape_ok (output_size m') (coefficient_matrix (wavefunction m')) ∧
     tiles_have_weights (wavefunction m') ∧
     output_size m' = dims ∧
     compatibility_oracle m' = compatibility_oracle m ∧
     weights (wavefunction m') = weights wf).
Proof.
  intros Hkeys Hopen. unfold iterate.
  destruct (min_entropy_co_ords m rng) as [[co rng1]|e] eqn:Hmin.
  - right.
    destruct (min_entropy_co_ords_Ok m _ _ _ Hmin)
      as [(Hco & s & Hget & Hsz & en & Hen)|[_ Hall]];
      [|rewrite all_collapsed_fully in Hopen; done].
    destruct (draw rng1) as [r rng2].
    pose proof (shannon_entropy_nonempty _ _ _ _ Hget Hen) as Hne.
    apply set_choose_L in Hne as [t Ht].
    assert (Hcand : filtered_tiles_with_weights wf s ≠ []).
    { intros Hnil. apply (proj1 (filtered_nil wf s) Hnil t); [done|].
      pose proof Hget as Hg. apply get_Ok in Hg as (i & j & _ & Hc).
      by eapply tiles_have_weights_cell. }
    destruct (collapse wf co r) as [wf1|e] eqn:Hcol.
    + right.
      destruct (collapse_in_grid _ _ _ _ _ shaped Hco Hcol) as (Hshape1 & _).
      pose proof (collapse_shrinks _ _ _ _ Hcol) as Hs1.
      assert (Hw1 : weights wf1 = weights wf).
      { by apply collapse_Ok in Hcol as (? & ? & ? & ? & _ & _ & _ & _ & _ & ?). }
      unfold propagate.
      destruct (propagate_loop_total (with_wavefunction m wf1)
                  (propagate_bound wf1 [co]) wf1 [co])
        as [wf2 Hloop]; [done|by apply Forall_singleton|done|].
      change (wavefunction (with_wavefunction m wf1)) with wf1.
      rewrite Hloop. exists (with_wavefunction m wf2), rng2.
      split; [done|]. apply propagate_loop_shrinks in Hloop as [Hs2 Hw2].
      simpl. split; [by eapply shrinks_shape_ok|].
      split; [|split; [done|split; [done|congruence]]].
      eapply tiles_have_weights_shrinks; [exact Hs2|done|].
      by eapply tiles_have_weights_shrinks.
    + left.
      apply (collapse_Raise wf co s r e Hget) in Hcol
        as [[_ Hnil]|[-> Hbig]]; [done|].
      split; [done|]. intros Hsmall.
      destruct (filtered_small_weights s Hsmall) as [Htotal Hall].
      destruct Hbig as [Hno|(tw & Hin & Hno)]; [done|].
      rewrite Forall_forall in Hall. by apply Hno, Hall.
  - left. destruct (min_entropy_co_ords_Raise _ _ Hmin) as (c & Hc & Hen).
    exists c, e. split; [done|]. split; [done|]. split; [done|].
    eapply (shannon_entropy_Raise wf c); [by apply (get_tiles_at dims)| |done].
    intros t. by apply tiles_at_keys.
Qed.
End outcomes.

(** ** Outcomes of [run] *)

Lemma cell_count_pos (dims : Z * Z) (wf : Wavefunction) (c : Coordinates) :
  shape_ok dims (coefficient_matrix wf) → in_grid dims c →
  (0 < cell_count wf)%nat.
Proof.
  intros Hshape Hc.
  destruct (in_grid_cell dims _ c Hshape Hc) as [s Hs].
  unfold cell_at in Hs. unfold cell_count.
  destruct (coefficient_matrix wf !! Z.to_nat c.1) as [row|] eqn:Hr; [|done].
  simpl in Hs. apply lookup_lt_Some in Hs.
  clear Hshape. revert Hr. generalize (Z.to_nat c.1).
  induction (coefficient_matrix wf) as [|row' M IH]; intros [|i] Hr;
    csimpl in *; try done.
  - simplify_eq. lia.
  - specialize (IH i Hr). lia.
Qed.

Lemma run_loop_outcome `{FloatOps F} (fuel : nat) (m : Model) (rng : Rng)
    (r : result (list (list Tile))) :
  shape_ok (output_size m) (coefficient_matrix (wavefunction m)) →
  tiles_have_weights (wavefunction m) → 0 < (output_size m).2 →
  run_loop (F:=F) fuel m rng = Some r →
  (∃ grid, r = Ok grid) ∨ r = Raise AssertionError ∨ r = Raise ValueError ∨
  (r = Raise OverflowError ∧ ¬ small_weights (weights (wavefunction m))).
Proof.
  revert m rng. induction fuel as [|fuel IH]; intros m rng Hshape Hkeys Hpos;
    simpl; destruct (is_fully_collapsed (wavefunction m)) eqn:Hfc;
    try done.
  - intros [= <-]. destruct (get_all_collapsed _) as [grid|e] eqn:Hg; [eauto|].
    right. left. f_equal. by eapply get_all_collapsed_Raise.
  - intros [= <-]. destruct (get_all_collapsed _) as [grid|e] eqn:Hg; [eauto|].
    right. left. f_equal. by eapply get_all_collapsed_Raise.
  - destruct (iterate_outcome m Hshape rng Hkeys Hfc)
      as [(c & e & _ & -> & _ & [->|[-> Hbig]])
         |[[-> Hbig]|(m' & rng' & -> & Hshape' & Hkeys' & Hsz & _ & Hw)]].
    + intros [= <-]. auto.
    + intros [= <-]. auto.
    + intros [= <-]. auto.
    + rewrite <- Hw. apply IH; [done..|]. by rewrite Hsz.
Qed.

Lemma run_loop_final `{FloatOps F} (fuel : nat) (m : Model) (rng : Rng)
    (grid : list (list Tile)) :
  shape_ok (output_size m) (coefficient_matrix (wavefunction m)) →
  tiles_have_weights (wavefunction m) →
  run_loop (F:=F) fuel m rng = Some (Ok grid) →
  ∃ m', shape_ok (output_size m) (coefficient_matrix (wavefunction m')) ∧
        tiles_have_weights (wavefunction m') ∧
        weights (wavefunction m') = weights (wavefunction m) ∧
        get_all_collapsed (wavefunction m') = Ok grid.
Proof.
  revert m rng. induction fuel as [|fuel IH]; intros m rng Hshape Hkeys;
    simpl; destruct (is_fully_collapsed (wavefunction m)) eqn:Hfc;
    try done.
  - intros [= Hg]. by exists m.
  - intros [= Hg]. by exists m.
  - destruct (iterate_outcome m Hshape rng Hkeys Hfc)
      as [(c & e & _ & -> & _)
         |[[-> _]|(m1 & rng1 & -> & Hshape1 & Hkeys1 & Hsz & _ & Hw)]];
      [done..|].
    intros (m' & Hshape' & Hkeys' & Hw' & Hg)%IH; [|done..].
    exists m'. rewrite <- Hsz. split; [done|]. split; [done|].
    split; [congruence|done].
Qed.

(** X12. A contradiction is fatal: on a model whose matrix has the shape
    of its output size and has an empty cell, [run] returns no grid but
    raises; when the possible tiles have weights the exception is
    [AssertionError], [ValueError] or [OverflowError], the last only if
    some weight is negative or the sum of the weights does not convert to
    [float]. *)
Theorem run_after_contradiction `{FloatOps F} (m : Model) (rng : Rng)
    (c : Coordinates) :
  shape_ok (output_size m) (coefficient_matrix (wavefunction m)) →
  in_grid (output_size m) c → tiles_at (wavefunction m) c = ∅ →
  ∃ e, run (F:=F) m rng = Some (Raise e) ∧
       (tiles_have_weights (wavefunction m) →
        e = AssertionError ∨ e = ValueError ∨
        (e = OverflowError ∧ ¬ small_weights (weights (wavefunction m)))).
Proof.
  intros Hshape Hc Hempty.
  assert (∃ e, run (F:=F) m rng = Some (Raise e)) as [e He].
  { unfold run. pose proof (cell_count_pos _ _ c Hshape Hc) as Hpos.
    destruct (cell_count (wavefunction m)) as [|n]; [lia|]. simpl.
    destruct (is_fully_collapsed (wavefunction m)).
    - exists AssertionError. f_equal.
      apply (get_all_collapsed_assertion (output_size m) _ c); [done..|].
      by rewrite Hempty, size_empty.
    - unfold iterate.
      destruct (min_entropy_co_ords_empty_cell m Hshape rng c Hc Hempty)
        as [e ->]. eauto. }
  exists e. split; [done|]. intros Hkeys.
  assert (0 < (output_size m).2) as Hpos by (destruct Hc; lia).
  destruct (run_loop_outcome _ m rng _ Hshape Hkeys Hpos He)
    as [[grid Hg]|[Hr|[Hr|[Hr Hbig]]]]; [done|injection Hr as ->; auto..].
Qed.

Lemma run_after_contradiction_witness :
  ∃ e, run (F:=Q) (mkModel (1, 1) (mkOracle ∅) wf_contradiction) (λ _, 0%Q)
       = Some (Raise e) ∧
       (tiles_have_weights wf_contradiction →
        e = AssertionError ∨ e = ValueError ∨
        (e = OverflowError ∧ ¬ small_weights (weights wf_contradiction))).
Proof.
  apply (run_after_contradiction (F:=Q)
           (mkModel (1, 1) (mkOracle ∅) wf_contradiction) (λ _, 0%Q) (0, 0)).
  - split; [reflexivity|]. repeat constructor.
  - unfold in_grid. simpl. lia.
  - reflexivity.
Defined.

(** X13. A model built by [Model.__init__] with at least one row either
    yields a grid or stops on [AssertionError], [ValueError] or
    [OverflowError]: [run] raises no [IndexError] and no [KeyError],
    whatever the weights, the oracle and the draws; and it raises
    [OverflowError] only if some weight is negative or the sum of the
    weights does not convert to [float]. *)
Theorem run_outcomes `{FloatOps F} (dims : Z * Z) (w : Weights)
    (o : CompatibilityOracle) (rng : Rng) :
  0 < dims.2 →
  (∃ grid, run (F:=F) (Model_init dims w o) rng = Some (Ok grid)) ∨
  run (F:=F) (Model_init dims w o) rng = Some (Raise AssertionError) ∨
  run (F:=F) (Model_init dims w o) rng = Some (Raise ValueError) ∨
  (run (F:=F) (Model_init dims w o) rng = Some (Raise OverflowError) ∧
   ¬ small_weights w).
Proof.
  intros Hpos.
  destruct (run_loop_terminates
              (cell_count (wavefunction (Model_init dims w o)))
              (Model_init dims w o) rng (mk_shape_ok _ _)
              (open_cells_le_cell_count _)) as [r Hr].
  unfold run. rewrite Hr.
  destruct (run_loop_outcome _ (Model_init dims w o) rng r
              (mk_shape_ok dims w) (mk_tiles_have_weights dims w) Hpos Hr)
    as [[grid ->]|[-> |[-> |[-> Hbig]]]]; eauto.
Qed.

Lemma run_outcomes_witness :
  (∃ grid, run (F:=Q) scenario_model (λ _, 2 # 3)%Q = Some (Ok grid)) ∨
  run (F:=Q) scenario_model (λ _, 2 # 3)%Q = Some (Raise AssertionError) ∨
  run (F:=Q) scenario_model (λ _, 2 # 3)%Q = Some (Raise ValueError) ∨
  (run (F:=Q) scenario_model (λ _, 2 # 3)%Q = Some (Raise OverflowError) ∧
   ¬ small_weights [("X"%string, 1); ("Y"%string, 1)]).
Proof.
  apply (run_outcomes (F:=Q) (2, 1)). simpl. lia.
Defined.

(** X14. With positive weights whose sum converts to [float], [iterate]
    raises only after a contradiction: called on a wavefunction of the
    shape of the output size whose possible tiles have weights, that is
    not fully collapsed and has no empty cell, it returns, leaving the
    shape, the weights and the oracle as they were. *)
Theorem iterate_without_contradiction `{FloatOps F} (m : Model) (rng : Rng) :
  shape_ok (output_size m) (coefficient_matrix (wavefunction m)) →
  tiles_have_weights (wavefunction m) →
  positive_weights (weights (wavefunction m)) →
  py_sum (weights (wavefunction m)).*2 < float_limit →
  (∀ c, in_grid (output_size m) c → tiles_at (wavefunction m) c ≠ ∅) →
  is_fully_collapsed (wavefunction m) = false →
  ∃ m' rng',
    iterate (F:=F) m rng = Some (Ok (m', rng')) ∧
    shape_ok (output_size m') (coefficient_matrix (wavefunction m')) ∧
    tiles_have_weights (wavefunction m') ∧
    output_size m' = output_size m ∧
    compatibility_oracle m' = compatibility_oracle m ∧
    weights (wavefunction m') = weights (wavefunction m).
Proof.
  intros Hshape Hkeys Hpos Hsum Hne Hopen.
  pose proof (positive_small_weights _ Hpos Hsum) as Hsmall.
  destruct (iterate_outcome m Hshape rng Hkeys Hopen)
    as [(c & e & Hc & _ & Hen & _)|[[_ Hbig]|Hok]]; [|done..].
  exfalso.
  destruct (shannon_entropy_positive (wavefunction m) c
              (tiles_at (wavefunction m) c) Hpos Hsmall) as [en He].
  - by apply (get_tiles_at (output_size m)).
  - intros t. by apply tiles_at_keys.
  - by apply Hne.
  - congruence.
Qed.

Lemma scenario_positive_weights :
  positive_weights (weights (wavefunction scenario_model)).
Proof. repeat constructor. Defined.

Lemma scenario_no_empty_cell (c : Coordinates) :
  in_grid (2, 1) c → tiles_at (wavefunction scenario_model) c ≠ ∅.
Proof.
  destruct c as [y x]. intros [Hy Hx]. simpl in Hy, Hx.
  assert (y = 0) as -> by lia.
  assert (x = 0 ∨ x = 1) as [-> | ->] by lia;
    change (tiles_at (wavefunction scenario_model) _) with U_XY;
    apply U_XY_nonempty.
Defined.

Lemma iterate_without_contradiction_witness :
  ∃ m' rng',
    iterate (F:=Q) scenario_model (λ _, 1 # 4)%Q = Some (Ok (m', rng')) ∧
    shape_ok (output_size m') (coefficient_matrix (wavefunction m')) ∧
    tiles_have_weights (wavefunction m') ∧
    output_size m' = (2, 1) ∧
    compatibility_oracle m' = scenario_oracle ∧
    weights (wavefunction m') = weights (wavefunction scenario_model).
Proof.
  apply (iterate_without_contradiction (F:=Q) scenario_model (λ _, 1 # 4)%Q
           (mk_shape_ok _ _) (mk_tiles_have_weights _ _)
           scenario_positive_weights ltac:(vm_compute; reflexivity)
           scenario_no_empty_cell).
  reflexivity.
Defined.

(** X15. A grid that [run] returns has as many rows and columns as the
    output size says, and each of its tiles is a key of the weights. *)
Theorem run_grid_shape `{FloatOps F} (dims : Z * Z) (w : Weights)
    (o : CompatibilityOracle) (rng : Rng) (fuel : nat)
    (grid : list (list Tile)) :
  run_loop (F:=F) fuel (Model_init dims w o) rng = Some (Ok grid) →
  0 < dims.2 ∧ rectangular dims grid ∧
  ∀ c t, grid_at grid c = Some t → in_grid dims c ∧ t ∈ keys w.
Proof.
  intros Hrun.
  destruct (run_loop_final fuel (Model_init dims w o) rng grid
              (mk_shape_ok dims w) (mk_tiles_have_weights dims w) Hrun)
    as (m' & Hshape & Hkeys & Hw & Hgrid).
  simpl in Hshape, Hw.
  assert (0 < dims.2) as Hpos.
  { unfold get_all_collapsed in Hgrid.
    apply bind_Ok in Hgrid as (row0 & Hrow0 & _).
    apply py_index_Ok in Hrow0 as (j & Hj & _). apply norm_index_lt in Hj.
    destruct Hshape as [Hh _]. lia. }
  split; [done|].
  split; [by eapply get_all_collapsed_rectangular|].
  intros c t Ht.
  destruct (grid_at_tiles_at _ _ _ _ _ Hshape Hgrid Ht) as [Hc Htiles].
  split; [done|]. rewrite <- Hw.
  apply (tiles_at_keys _ c); [done|]. rewrite Htiles. set_solver.
Qed.

Lemma run_grid_shape_witness :
  0 < 1 ∧ rectangular (2, 1) [["X"%string; "Y"%string]] ∧
  ∀ c t, grid_at [["X"%string; "Y"%string]] c = Some t →
         in_grid (2, 1) c ∧ t ∈ keys [("X"%string, 1); ("Y"%string, 1)].
Proof.
  apply (run_grid_shape (F:=Q) (2, 1) [("X"%string, 1); ("Y"%string, 1)]
           scenario_oracle (λ _, 1 # 3)%Q 2).
  vm_compute. reflexivity.
Defined.

Lemma mk_tiles_at (dims : Z * Z) (w : Weights) (c : Coordinates) :
  in_grid dims c → tiles_at (mk dims w) c = list_to_set (keys w).
Proof.
  intros Hc. unfold tiles_at.
  destruct (in_grid_cell dims _ c (mk_shape_ok dims w) Hc) as [s Hs].
  rewrite Hs. simpl.
  destruct (cell_at_elem_of _ _ _ _ Hs) as (row & Hrow & Hin).
  pose proof (mk_cells dims w) as Hcells. rewrite Forall_forall in Hcells.
  specialize (Hcells row Hrow). rewrite Forall_forall in Hcells.
  by apply Hcells.
Qed.

Lemma rectangular_const (dims : Z * Z) (grid : list (list Tile)) (t : Tile) :
  rectangular dims grid →
  (∀ c, in_grid dims c → grid_at grid c = Some t) →
  grid = replicate (Z.to_nat dims.2) (replicate (Z.to_nat dims.1) t).
Proof.
  intros [Hh Hw] Hall. rewrite Forall_forall in Hw.
  apply list_eq. intros i.
  destruct (decide (i < Z.to_nat dims.2)%nat) as [Hi|Hi].
  - rewrite lookup_replicate_2 by done.
    destruct (lookup_lt_is_Some_2 grid i) as [row Hrow]; [lia|].
    rewrite Hrow. f_equal.
    pose proof (Hw row (list_elem_of_lookup_2 _ _ _ Hrow)) as Hlen.
    apply list_eq. intros j.
    destruct (decide (j < Z.to_nat dims.1)%nat) as [Hj|Hj].
    + rewrite lookup_replicate_2 by done.
      specialize (Hall (Z.of_nat i, Z.of_nat j)). unfold grid_at in Hall.
      simpl in Hall. rewrite bool_decide_eq_true_2 in Hall by lia.
      rewrite !Nat2Z.id, Hrow in Hall. apply Hall.
      unfold in_grid. simpl. lia.
    + rewrite lookup_ge_None_2 by lia.
      symmetry. apply lookup_replicate_None. lia.
  - rewrite lookup_ge_None_2 by lia.
    symmetry. apply lookup_replicate_None. lia.
Qed.

(** X16. With a single tile and at least one row, [run] returns at once
    the grid filled with that tile, whatever the weight, the oracle and
    the draws: no cell is ever collapsed and the oracle is not
    consulted. *)
Theorem run_single_tile `{FloatOps F} (dims : Z * Z) (t : Tile) (n : Z)
    (o : CompatibilityOracle) (rng : Rng) :
  0 < dims.2 →
  run (F:=F) (Model_init dims [(t, n)] o) rng =
  Some (Ok (replicate (Z.to_nat dims.2) (replicate (Z.to_nat dims.1) t))).
Proof.
  intros Hpos. set (m := Model_init dims [(t, n)] o).
  assert (Hshape : shape_ok dims (coefficient_matrix (wavefunction m)))
    by apply mk_shape_ok.
  assert (Htiles : ∀ c, in_grid dims c → tiles_at (wavefunction m) c = {[ t ]}).
  { intros c Hc. unfold m. simpl. rewrite mk_tiles_at by done.
    simpl. by rewrite union_empty_r_L. }
  assert (Hfc : is_fully_collapsed (wavefunction m) = true).
  { apply (all_collapsed_fully (F:=F) m); [done|]. intros c Hc.
    exists {[ t ]}. split; [|apply size_singleton].
    rewrite <- (Htiles c Hc). by apply (get_tiles_at dims). }
  assert (Hrun : run (F:=F) m rng = Some (get_all_collapsed (wavefunction m))).
  { unfold run.
    destruct (cell_count (wavefunction m)); cbn [run_loop]; by rewrite Hfc. }
  rewrite Hrun.
  destruct (get_all_collapsed_total dims (wavefunction m) Hshape Hpos)
    as [grid Hgrid].
  { intros c Hc. rewrite (Htiles c Hc). apply size_singleton. }
  rewrite Hgrid. do 2 f_equal.
  destruct (get_all_collapsed_content dims _ _ Hshape Hpos Hgrid)
    as [Hrect Hcells].
  apply rectangular_const; [done|]. intros c Hc.
  destruct (Hcells c Hc) as (t' & Ht' & Heq).
  rewrite (Htiles c Hc) in Heq.
  assert (t' = t) as -> by set_solver. done.
Qed.

Lemma run_single_tile_witness :
  run (F:=Q) (Model_init (1, 1) [("X"%string, 5)] (mkOracle ∅)) (λ _, 0%Q) =
  Some (Ok [["X"%string]]).
Proof.
  apply (run_single_tile (F:=Q) (1, 1) "X"%string 5 (mkOracle ∅) (λ _, 0%Q)).
  simpl. lia.
Defined.

(** X17. A call of [iterate] that returns, made on a model whose matrix
    has the shape of the output size and is not fully collapsed, leaves
    every cell a subset of what it was, leaves the weights, the oracle and
    the size as they were, and leaves fewer cells with more than one
    possible tile. *)
Theorem iterate_closes_a_cell `{FloatOps F} (m m' : Model) (rng rng' : Rng) :
  shape_ok (output_size m) (coefficient_matrix (wavefunction m)) →
  is_fully_collapsed (wavefunction m) = false →
  iterate (F:=F) m rng = Some (Ok (m', rng')) →
  output_size m' = output_size m ∧
  compatibility_oracle m' = compatibility_oracle m ∧
  weights (wavefunction m') = weights (wavefunction m) ∧
  shrinks (coefficient_matrix (wavefunction m))
          (coefficient_matrix (wavefunction m')) ∧
  (open_cells (coefficient_matrix (wavefunction m')) <
   open_cells (coefficient_matrix (wavefunction m)))%nat.
Proof. apply iterate_Ok. Qed.

Lemma iterate_closes_a_cell_witness :
  (open_cells [[{[ "X"%string ]}; {[ "Y"%string ]}]] <
   open_cells (coefficient_matrix (wavefunction scenario_model)))%nat.
Proof.
  apply (iterate_closes_a_cell (F:=Q) scenario_model
           (mkModel (2, 1) scenario_oracle
              (mkWavefunction [[{[ "X"%string ]}; {[ "Y"%string ]}]]
                              [("X"%string, 1); ("Y"%string, 1)]))
           (λ _, 1 # 3)%Q (λ _, 1 # 3)%Q (mk_shape_ok _ _) eq_refl).
  vm_compute. reflexivity.
Defined.

(** ** The example parser *)

Lemma py_range_lookup (n : Z) (k : nat) (i : Z) :
  py_range n !! k = Some i ↔ i = Z.of_nat k ∧ (k < Z.to_nat n)%nat.
Proof.
  unfold py_range. rewrite list_lookup_fmap. split.
  - destruct (seq 0 (Z.to_nat n) !! k) as [k'|] eqn:Hk; [|done].
    apply lookup_seq in Hk as [-> Hlt]. simpl. by intros [= <-].
  - intros [-> Hlt]. by rewrite lookup_seq_lt.
Qed.

Lemma elem_of_enumerate {A : Type} (l : list A) (i : Z) (a : A) :
  (i, a) ∈ enumerate l ↔ 0 ≤ i ∧ l !! Z.to_nat i = Some a.
Proof.
  unfold enumerate. rewrite list_elem_of_lookup. split.
  - intros [k Hk]. apply lookup_zip_with_Some in Hk as (i' & a' & [= <- <-] & Hi & Ha).
    apply py_range_lookup in Hi as [-> _]. rewrite Nat2Z.id. split; [lia|done].
  - intros [Hi Ha]. exists (Z.to_nat i). apply lookup_zip_with_Some.
    exists i, a. split; [done|]. split; [|done].
    apply py_range_lookup. split; [lia|].
    apply lookup_lt_Some in Ha. lia.
Qed.

Lemma enumerate_snd {A : Type} (l : list A) : (enumerate l).*2 = l.
Proof.
  unfold enumerate. apply snd_zip. rewrite length_py_range. lia.
Qed.

Lemma dict_get_Raise (w : Weights) (t : Tile) (e : PyError) :
  dict_get w t = Raise e → e = KeyError ∧ t ∉ keys w.
Proof.
  unfold keys. induction w as [|[k v] w IH]; simpl.
  - intros [= <-]. split; [done|]. apply not_elem_of_nil.
  - case_decide as Hk; [done|]. intros [-> Hn]%IH. split; [done|].
    rewrite not_elem_of_cons. done.
Qed.

Lemma dict_get_set_eq (w : Weights) (k : Tile) (v : Z) :
  dict_get (dict_set w k v) k = Ok v.
Proof.
  induction w as [|[k' v'] w IH]; simpl.
  - by rewrite decide_True.
  - case_decide; simpl; [by rewrite decide_True|]. by rewrite decide_False.
Qed.

Lemma dict_get_set_ne (w : Weights) (k k' : Tile) (v : Z) :
  k' ≠ k → dict_get (dict_set w k v) k' = dict_get w k'.
Proof.
  intros Hne. induction w as [|[k0 v0] w IH]; simpl.
  - by rewrite decide_False.
  - case_decide as Hk; simpl.
    + subst k0. by rewrite !decide_False.
    + case_decide; [done|]. apply IH.
Qed.

Lemma elem_of_keys_dict_set (w : Weights) (k t : Tile) (v : Z) :
  t ∈ keys (dict_set w k v) ↔ t = k ∨ t ∈ keys w.
Proof.
  unfold keys. induction w as [|[k0 v0] w IH]; csimpl.
  - rewrite list_elem_of_singleton, elem_of_nil. tauto.
  - case_decide as Hk; csimpl; rewrite !elem_of_cons.
    + subst k0. tauto.
    + rewrite IH. tauto.
Qed.

Lemma NoDup_keys_dict_set (w : Weights) (k : Tile) (v : Z) :
  NoDup (keys w) → NoDup (keys (dict_set w k v)).
Proof.
  unfold keys. induction w as [|[k0 v0] w IH]; csimpl.
  - intros _. apply NoDup_singleton.
  - intros [Hnotin Hnd]%NoDup_cons. case_decide as Hk; csimpl.
    + subst k0. by apply NoDup_cons.
    + apply NoDup_cons. split; [|by apply IH].
      intros [?|?]%(elem_of_keys_dict_set w k k0 v); [congruence|done].
Qed.

Lemma py_sum_dict_set_new (w : Weights) (k : Tile) (v : Z) :
  k ∉ keys w → py_sum (dict_set w k v).*2 = py_sum w.*2 + v.
Proof.
  unfold keys. induction w as [|[k0 v0] w IH]; csimpl; [intros _; lia|].
  intros [Hne Hnotin]%not_elem_of_cons.
  rewrite decide_False by done. csimpl. specialize (IH Hnotin).
  change (v0 + py_sum (dict_set w k v).*2 = v0 + py_sum w.*2 + v). lia.
Qed.

Lemma py_sum_dict_set_old (w : Weights) (k : Tile) (v v0 : Z) :
  dict_get w k = Ok v0 → py_sum (dict_set w k v).*2 = py_sum w.*2 - v0 + v.
Proof.
  induction w as [|[k1 v1] w IH]; csimpl; [done|].
  case_decide as Hk; csimpl.
  - intros [= ->]. change (v + py_sum w.*2 = v0 + py_sum w.*2 - v0 + v). lia.
  - intros Hget. specialize (IH Hget).
    change (v1 + py_sum (dict_set w k v).*2 = v1 + py_sum w.*2 - v0 + v). lia.
Qed.

Lemma dict_get_of_elem (w : Weights) (t : Tile) (v : Z) :
  NoDup (keys w) → (t, v) ∈ w → dict_get w t = Ok v.
Proof.
  unfold keys. induction w as [|[k0 v0] w IH]; csimpl;
    [by intros _ ?%elem_of_nil|].
  intros [Hnotin Hnd]%NoDup_cons [[= -> ->]|Hin]%elem_of_cons.
  - by rewrite decide_True.
  - case_decide as Hk; [|by apply IH]. subst k0. exfalso. apply Hnotin.
    apply list_elem_of_fmap. by exists (t, v).
Qed.

Lemma parse_cell_Ok (matrix : list (list Tile)) (dims : Z * Z) (y x : Z)
    (t : Tile) (comp comp' : gset Compatibility) (w w' : Weights) :
  parse_cell matrix dims y (comp, w) (x, t) = Ok (comp', w') →
  ∃ w1 count,
    w1 = (if bool_decide (t ∈ keys w) then w else dict_set w t 0) ∧
    dict_get w1 t = Ok count ∧
    w' = dict_set w1 t (count + 1) ∧
    for_each (parse_dir matrix y x t) (valid_dirs (y, x) dims) comp = Ok comp'.
Proof.
  unfold parse_cell. intros (count & Hcount & Hrest)%bind_Ok.
  apply bind_Ok in Hrest as (comp1 & Hcomp & [= <- <-]).
  eexists _, count. done.
Qed.

Lemma filter_eq_not_in (t : Tile) (seen : list Tile) :
  t ∉ seen → filter (λ t', t' = t) seen = [].
Proof.
  induction seen as [|a seen IH]; [done|].
  intros [Hne Hnotin]%not_elem_of_cons.
  rewrite filter_cons, decide_False by congruence. by apply IH.
Qed.

Lemma filter_eq_in (t : Tile) (seen : list Tile) :
  t ∈ seen → (0 < length (filter (λ t', t' = t) seen))%nat.
Proof.
  intros Hin.
  assert (t ∈ filter (λ t', t' = t) seen) as Hf by (by apply list_elem_of_filter).
  destruct (filter _ seen); [by apply elem_of_nil in Hf|simpl; lia].
Qed.

Lemma counts_step (seen : list Tile) (w w1 : Weights) (t : Tile) :
  counts seen w →
  w1 = (if bool_decide (t ∈ keys w) then w else dict_set w t 0) →
  dict_get w1 t = Ok (Z.of_nat (length (filter (λ t', t' = t) seen))) ∧
  counts (seen ++ [t])
         (dict_set w1 t (Z.of_nat (length (filter (λ t', t' = t) seen)) + 1)).
Proof.
  intros (Hnd & Hkeys & Hget & Hsum) ->.
  set (c := Z.of_nat (length (filter (λ t', t' = t) seen))).
  assert (H1 : dict_get (if bool_decide (t ∈ keys w) then w else dict_set w t 0) t
               = Ok c ∧
               NoDup (keys (if bool_decide (t ∈ keys w) then w
                            else dict_set w t 0)) ∧
               (∀ t', t' ≠ t →
                  dict_get (if bool_decide (t ∈ keys w) then w
                            else dict_set w t 0) t' = dict_get w t') ∧
               (∀ t', t' ∈ keys (if bool_decide (t ∈ keys w) then w
                                 else dict_set w t 0) ↔ t' = t ∨ t' ∈ seen) ∧
               py_sum (if bool_decide (t ∈ keys w) then w
                       else dict_set w t 0).*2 = Z.of_nat (length seen)).
  { case_bool_decide as Hin.
    - split; [apply Hget; by apply Hkeys|]. split; [done|]. split; [done|].
      split; [|done]. intros t'. rewrite Hkeys. split; [auto|].
      intros [->|?]; [by apply Hkeys|done].
    - split.
      { rewrite dict_get_set_eq. unfold c.
        rewrite filter_eq_not_in; [done|]. by rewrite <- Hkeys. }
      split; [by apply NoDup_keys_dict_set|].
      split; [intros t' Hne; by apply dict_get_set_ne|].
      split; [intros t'; by rewrite elem_of_keys_dict_set, Hkeys|].
      rewrite py_sum_dict_set_new by done. lia. }
  destruct H1 as (Hc & Hnd1 & Hother & Hkeys1 & Hsum1).
  split; [done|]. split; [by apply NoDup_keys_dict_set|].
  split; [|split].
  - intros t'. rewrite elem_of_keys_dict_set, Hkeys1, elem_of_app.
    rewrite list_elem_of_singleton. tauto.
  - intros t' Ht'. rewrite filter_app, length_app.
    destruct (decide (t' = t)) as [->|Hne].
    + rewrite dict_get_set_eq. f_equal.
      rewrite filter_cons, decide_True by done. simpl. unfold c. lia.
    + rewrite dict_get_set_ne, Hother by done.
      rewrite filter_cons, decide_False by congruence. simpl.
      rewrite Nat.add_0_r. apply Hget.
      apply elem_of_app in Ht' as [?|?%list_elem_of_singleton]; done.
  - rewrite (py_sum_dict_set_old _ _ _ c) by done.
    rewrite Hsum1, length_app. simpl. lia.
Qed.

Lemma parse_cell_counts (matrix : list (list Tile)) (dims : Z * Z) (y : Z)
    (seen : list Tile) (st st' : parse_state) (cell : Z * Tile) :
  counts seen st.2 → parse_cell matrix dims y st cell = Ok st' →
  counts (seen ++ [cell.2]) st'.2.
Proof.
  destruct st as [comp w], st' as [comp' w'], cell as [x t]. simpl.
  intros Hcounts (w1 & count & Hw1 & Hcount & -> & _)%parse_cell_Ok.
  destruct (counts_step seen w w1 t Hcounts Hw1) as [Hc Hnew].
  assert (count = Z.of_nat (length (filter (λ t', t' = t) seen))) as ->
    by congruence.
  done.
Qed.

Lemma parse_row_counts (matrix : list (list Tile)) (dims : Z * Z) (y : Z)
    (seen : list Tile) (row : list Tile) (st st' : parse_state) :
  counts seen st.2 →
  for_each (parse_cell matrix dims y) (enumerate row) st = Ok st' →
  counts (seen ++ row) st'.2.
Proof.
  intros Hcounts Hloop. rewrite <- (enumerate_snd row). revert Hloop.
  apply (for_each_prefix_inv
           (λ (pre : list (Z * Tile)) (s : parse_state),
              counts (seen ++ pre.*2) s.2)).
  - by rewrite app_nil_r.
  - intros pre cell post s s' _ Hpre Hcell.
    rewrite fmap_app, app_assoc. by eapply parse_cell_counts.
Qed.

Lemma parse_example_matrix_counts (matrix : list (list Tile))
    (st : parse_state) :
  parse_example_matrix matrix = Ok st → counts (concat matrix) st.2.
Proof.
  unfold parse_example_matrix. intros (row0 & _ & Hloop)%bind_Ok.
  rewrite <- (enumerate_snd matrix) at 1. revert Hloop.
  apply (for_each_prefix_inv
           (λ (pre : list (Z * list Tile)) (s : parse_state),
              counts (concat pre.*2) s.2)).
  - split; [constructor|]. split; [done|]. split; [|done].
    by intros t ?%elem_of_nil.
  - intros pre line post s s' _ Hpre Hrow.
    rewrite fmap_app, concat_app. simpl. rewrite app_nil_r.
    by eapply parse_row_counts.
Qed.

(** X18. The weights that [parse_example_matrix] returns count the
    tiles of the example: their keys are the distinct tiles of the
    matrix, each once, the weight of a tile is the number of cells that
    hold it, so every weight is positive, and the weights add up to the
    number of cells. *)
Theorem parse_example_matrix_weights (matrix : list (list Tile))
    (compatibilities : gset Compatibility) (w : Weights) :
  parse_example_matrix matrix = Ok (compatibilities, w) →
  NoDup (keys w) ∧
  (∀ t, t ∈ keys w ↔ t ∈ concat matrix) ∧
  (∀ t, t ∈ concat matrix → dict_get w t = Ok (occurrences t matrix)) ∧
  positive_weights w ∧
  py_sum w.*2 = Z.of_nat (length (concat matrix)).
Proof.
  intros (Hnd & Hkeys & Hget & Hsum)%parse_example_matrix_counts.
  simpl in *. split; [done|]. split; [done|]. split; [done|].
  split; [|done]. apply Forall_forall. intros [t v] Hin. simpl.
  assert (t ∈ concat matrix) as Ht.
  { apply Hkeys. apply list_elem_of_fmap. by exists (t, v). }
  specialize (Hget t Ht).
  rewrite (dict_get_of_elem w t v Hnd Hin) in Hget. injection Hget as ->.
  pose proof (filter_eq_in t _ Ht). lia.
Qed.

Lemma parse_example_matrix_weights_witness :
  py_sum [("A"%string, 2); ("B"%string, 1)].*2 =
  Z.of_nat (length (concat [["A"]; ["B"]; ["A"]]%string)).
Proof.
  apply (parse_example_matrix_weights [["A"]; ["B"]; ["A"]]%string
           (list_to_set [("A", "B", UP); ("B", "A", UP);
                         ("B", "A", DOWN); ("A", "B", DOWN)]%string)
           [("A"%string, 2); ("B"%string, 1)]).
  vm_compute. reflexivity.
Defined.

Lemma py_index_nonneg {A : Type} (l : list A) (i : Z) (a : A) :
  0 ≤ i → py_index l i = Ok a ↔ l !! Z.to_nat i = Some a.
Proof.
  intros Hi. rewrite py_index_Ok. split.
  - intros (j & Hj & Ha). unfold norm_index in Hj.
    rewrite (bool_decide_eq_false_2 (i < 0)) in Hj by lia.
    case_bool_decide; [|done]. by injection Hj as <-.
  - intros Ha. exists (Z.to_nat i). split; [|done].
    apply norm_index_nonneg. apply lookup_lt_Some in Ha. lia.
Qed.

Lemma grid_at_py_index (matrix : list (list Tile)) (y x : Z) (t : Tile) :
  0 ≤ y → 0 ≤ x →
  (row ← py_index matrix y; py_index row x) = Ok t ↔
  grid_at matrix (y, x) = Some t.
Proof.
  intros Hy Hx. unfold grid_at. simpl.
  rewrite bool_decide_eq_true_2 by done. rewrite bind_Ok. split.
  - intros (row & Hrow & Ht). apply py_index_nonneg in Hrow, Ht; [|done..].
    by rewrite Hrow.
  - destruct (matrix !! Z.to_nat y) as [row|] eqn:Hrow; [|done]. simpl.
    intros Ht. exists row. split; by apply py_index_nonneg.
Qed.

Section parser.
Variable matrix : list (list Tile).
Variable dims : Z * Z.
Hypothesis rect : rectangular dims matrix.
Hypothesis width_nonneg : 0 ≤ dims.1.

Lemma enumerate_in_grid (y x : Z) (row : list Tile) (t : Tile) :
  (y, row) ∈ enumerate matrix → (x, t) ∈ enumerate row →
  in_grid dims (y, x) ∧ grid_at matrix (y, x) = Some t.
Proof.
  intros [Hy Hrow]%elem_of_enumerate [Hx Ht]%elem_of_enumerate.
  destruct rect as [Hh Hw]. rewrite Forall_forall in Hw.
  pose proof (Hw row (list_elem_of_lookup_2 _ _ _ Hrow)) as Hlen.
  apply lookup_lt_Some in Hrow as Hylt. apply lookup_lt_Some in Ht as Hxlt.
  split; [unfold in_grid; simpl; lia|].
  unfold grid_at. simpl. rewrite bool_decide_eq_true_2 by done.
  by rewrite Hrow.
Qed.

Lemma in_grid_enumerate (c : Coordinates) :
  in_grid dims c →
  ∃ row t, (c.1, row) ∈ enumerate matrix ∧ (c.2, t) ∈ enumerate row ∧
           grid_at matrix c = Some t.
Proof.
  intros Hc. destruct (rectangular_grid_at dims matrix c rect Hc) as [t Ht].
  destruct Hc as [Hy Hx].
  unfold grid_at in Ht. rewrite bool_decide_eq_true_2 in Ht by lia.
  destruct (matrix !! Z.to_nat c.1) as [row|] eqn:Hrow; [|done].
  simpl in Ht. exists row, t. rewrite !elem_of_enumerate.
  split; [split; [lia|done]|]. split; [split; [lia|done]|].
  unfold grid_at. rewrite bool_decide_eq_true_2 by lia. by rewrite Hrow.
Qed.

Lemma parse_dir_spec (y x : Z) (t : Tile) (comp : gset Compatibility)
    (d : Direction) :
  in_grid dims (y, x) → d ∈ valid_dirs (y, x) dims →
  ∃ b, grid_at matrix (neighbour (y, x) d) = Some b ∧
       parse_dir matrix y x t comp d = Ok ({[ (t, b, d) ]} ∪ comp).
Proof.
  intros Hc Hd.
  destruct (valid_dirs_neighbour dims (y, x) d Hc Hd) as [[Hy Hx] _].
  destruct (rectangular_grid_at dims matrix (neighbour (y, x) d) rect)
    as [b Hb]; [done|].
  exists b. split; [done|]. unfold parse_dir. simpl in Hy, Hx.
  apply (proj2 (grid_at_py_index matrix (y + d.1) (x + d.2) b
                  ltac:(lia) ltac:(lia))) in Hb.
  apply bind_Ok in Hb as (row & Hrow & Hcell).
  by rewrite Hrow, bind_Ok_l, Hcell.
Qed.

(** The triples added at a cell. *)
Lemma parse_dirs_spec (y x : Z) (t : Tile) (comp : gset Compatibility) :
  in_grid dims (y, x) →
  ∃ comp',
    for_each (parse_dir matrix y x t) (valid_dirs (y, x) dims) comp = Ok comp' ∧
    ∀ tr, tr ∈ comp' ↔
          tr ∈ comp ∨
          (tr.1.1 = t ∧ tr.2 ∈ valid_dirs (y, x) dims ∧
           grid_at matrix (neighbour (y, x) tr.2) = Some tr.1.2).
Proof.
  intros Hc.
  assert (Hgen : ∀ l comp0,
            (∀ d, d ∈ l → d ∈ valid_dirs (y, x) dims) →
            ∃ comp',
              for_each (parse_dir matrix y x t) l comp0 = Ok comp' ∧
              ∀ tr, tr ∈ comp' ↔
                    tr ∈ comp0 ∨
                    (tr.1.1 = t ∧ tr.2 ∈ l ∧
                     grid_at matrix (neighbour (y, x) tr.2) = Some tr.1.2)).
  { induction l as [|d l IH]; intros comp0 Hl.
    - exists comp0. split; [done|]. intros tr. split; [auto|].
      intros [?|(_ & ?%elem_of_nil & _)]; done.
    - destruct (parse_dir_spec y x t comp0 d Hc) as (b & Hb & Hdir);
        [apply Hl; set_solver|].
      destruct (IH ({[ (t, b, d) ]} ∪ comp0)) as (comp' & Hrun & Hiff);
        [intros d' Hd'; apply Hl; set_solver|].
      exists comp'. cbn [for_each]. rewrite Hdir, bind_Ok_l.
      split; [done|]. intros [[a b'] d']. rewrite Hiff. simpl.
      rewrite elem_of_union, elem_of_singleton, elem_of_cons. split.
      + intros [[[= -> -> ->]|?]|(-> & ? & ?)]; auto.
      + intros [?|(-> & [->|?] & Hb')]; auto.
        left. left. congruence. }
  apply Hgen. auto.
Qed.

Lemma parse_cell_spec (y x : Z) (t : Tile) (comp : gset Compatibility)
    (w : Weights) :
  in_grid dims (y, x) →
  ∃ comp' w',
    parse_cell matrix dims y (comp, w) (x, t) = Ok (comp', w') ∧
    ∀ tr, tr ∈ comp' ↔
          tr ∈ comp ∨
          (tr.1.1 = t ∧ tr.2 ∈ valid_dirs (y, x) dims ∧
           grid_at matrix (neighbour (y, x) tr.2) = Some tr.1.2).
Proof.
  intros Hc. destruct (parse_dirs_spec y x t comp Hc) as (comp' & Hrun & Hiff).
  unfold parse_cell.
  set (w1 := if bool_decide (t ∈ keys w) then w else dict_set w t 0).
  destruct (dict_get_Ok w1 t) as [count Hcount].
  { unfold w1. case_bool_decide; [done|].
    apply elem_of_keys_dict_set. by left. }
  rewrite Hcount, bind_Ok_l, Hrun, bind_Ok_l. eauto.
Qed.

Lemma parse_cell_iff (y x : Z) (row : list Tile) (t : Tile)
    (st st' : parse_state) :
  (y, row) ∈ enumerate matrix → (x, t) ∈ enumerate row →
  parse_cell matrix dims y st (x, t) = Ok st' →
  ∀ tr, tr ∈ st'.1 ↔
        tr ∈ st.1 ∨
        (tr.1.1 = t ∧ tr.2 ∈ valid_dirs (y, x) dims ∧
         grid_at matrix (neighbour (y, x) tr.2) = Some tr.1.2).
Proof.
  intros Hy Hx Hcell. destruct st as [comp w].
  destruct (enumerate_in_grid y x row t Hy Hx) as [Hc Ht].
  destruct (parse_cell_spec y x t comp w Hc) as (comp' & w' & Hrun & Hiff).
  rewrite Hrun in Hcell. by injection Hcell as <-.
Qed.

Lemma parse_cell_total (y x : Z) (row : list Tile) (t : Tile)
    (st : parse_state) :
  (y, row) ∈ enumerate matrix → (x, t) ∈ enumerate row →
  ∃ st', parse_cell matrix dims y st (x, t) = Ok st'.
Proof.
  intros Hy Hx. destruct st as [comp w].
  destruct (enumerate_in_grid y x row t Hy Hx) as [Hc Ht].
  destruct (parse_cell_spec y x t comp w Hc) as (comp' & w' & Hrun & _).
  eauto.
Qed.

(** [parse_example_matrix] with the size written out. *)
Lemma parse_example_matrix_unfold :
  0 < dims.2 →
  parse_example_matrix matrix =
  for_each (λ st (line : Z * list Tile),
              for_each (parse_cell matrix dims line.1) (enumerate line.2) st)
           (enumerate matrix) (∅, []).
Proof.
  intros Hpos. destruct rect as [Hh Hw]. unfold parse_example_matrix.
  destruct matrix as [|row0 rest] eqn:Hm; [simpl in Hh; lia|].
  assert (Hrow0 : py_index (row0 :: rest) 0 = Ok row0).
  { apply py_index_Ok. exists 0%nat. split; [|done].
    apply norm_index_nonneg. simpl. lia. }
  rewrite Hrow0, bind_Ok_l.
  apply Forall_cons_1 in Hw as [Hlen _].
  replace (Z.of_nat (length row0), Z.of_nat (length (row0 :: rest)))
    with dims; [done|].
  destruct dims as [width height]. simpl in *. f_equal; lia.
Qed.

Lemma parse_example_matrix_Ok_rows (st : parse_state) :
  parse_example_matrix matrix = Ok st → 0 < dims.2.
Proof.
  unfold parse_example_matrix. intros (row0 & Hrow0 & _)%bind_Ok.
  apply py_index_Ok in Hrow0 as (j & Hj & _). apply norm_index_lt in Hj.
  destruct rect as [Hh _]. lia.
Qed.

Lemma parse_example_matrix_total :
  0 < dims.2 → ∃ st, parse_example_matrix matrix = Ok st.
Proof.
  intros Hpos. rewrite parse_example_matrix_unfold by done.
  destruct (for_each_total (λ _, True)
              (λ st (line : Z * list Tile),
                 for_each (parse_cell matrix dims line.1) (enumerate line.2) st)
              (enumerate matrix) (∅, []) I) as (st & Hst & _); [|eauto].
  intros [y row] st Hy _. simpl.
  apply (for_each_total (λ _, True)); [done|].
  intros [x t] st1 Hx _.
  destruct (parse_cell_total y x row t st1 Hy Hx) as [st2 Hst2]. eauto.
Qed.

Lemma parse_example_matrix_iff (st : parse_state) (tr : Compatibility) :
  parse_example_matrix matrix = Ok st →
  tr ∈ st.1 ↔ observed dims matrix tr.
Proof.
  intros Hparse.
  pose proof (parse_example_matrix_Ok_rows st Hparse) as Hpos.
  rewrite parse_example_matrix_unfold in Hparse by done. split.
  - revert tr. revert Hparse.
    apply (for_each_inv
             (λ s : parse_state, ∀ tr, tr ∈ s.1 → observed dims matrix tr));
      [by intros tr ?%elem_of_empty|].
    intros [y row] s1 s2 Hy Hs1. simpl.
    apply (for_each_inv
             (λ s : parse_state, ∀ tr, tr ∈ s.1 → observed dims matrix tr));
      [done|].
    intros [x t] s3 s4 Hx Hs3 Hcell tr0 Hin.
    apply (parse_cell_iff y x row t s3 s4 Hy Hx Hcell) in Hin
      as [Hin|(Ha & Hd & Hb)]; [by apply Hs3|].
    exists (y, x). rewrite Ha.
    by destruct (enumerate_in_grid y x row t Hy Hx).
  - intros ([y x] & Hc & Hd & Ha & Hb).
    destruct (in_grid_enumerate (y, x) Hc) as (row & t & Hy & Hx & Ht).
    simpl in Hy, Hx. assert (t = tr.1.1) as -> by congruence.
    revert Hparse.
    apply (for_each_elem (λ s : parse_state, tr ∈ s.1) _ _ (y, row)); [done| |].
    + intros s1 s2. simpl.
      apply (for_each_elem (λ s : parse_state, tr ∈ s.1) _ _ (x, tr.1.1));
        [done| |].
      * intros s3 s4 Hcell.
        apply (parse_cell_iff y x row _ s3 s4 Hy Hx Hcell). by right.
      * intros [x' t'] s3 s4 Hx' Hin Hcell.
        apply (parse_cell_iff y x' row t' s3 s4 Hy Hx' Hcell). by left.
    + intros [y' row'] s1 s2 Hy' Hin. simpl.
      apply (for_each_inv (λ s : parse_state, tr ∈ s.1)); [done|].
      intros [x' t'] s3 s4 Hx' Hin' Hcell.
      apply (parse_cell_iff y' x' row' t' s3 s4 Hy' Hx' Hcell). by left.
Qed.
End parser.

(** X19. [parse_example_matrix] raises [IndexError] on a matrix without
    rows, and returns on every rectangular matrix that has a row: there it
    never indexes outside the matrix and never misses a key. *)
Theorem parse_example_matrix_returns (matrix : list (list Tile))
    (dims : Z * Z) :
  parse_example_matrix [] = Raise IndexError ∧
  (rectangular dims matrix → 0 ≤ dims.1 → 0 < dims.2 →
   ∃ compatibilities w,
     parse_example_matrix matrix = Ok (compatibilities, w)).
Proof.
  split; [done|]. intros Hrect Hw Hh.
  destruct (parse_example_matrix_total matrix dims Hrect Hw Hh) as [[comp w] Hst].
  eauto.
Qed.

Lemma rectangular_3x1 : rectangular (1, 3) [["A"]; ["B"]; ["A"]]%string.
Proof. split; [reflexivity|]. repeat constructor. Defined.

Lemma parse_example_matrix_returns_witness :
  ∃ compatibilities w,
    parse_example_matrix [["A"]; ["B"]; ["A"]]%string = Ok (compatibilities, w).
Proof.
  apply (parse_example_matrix_returns [["A"]; ["B"]; ["A"]]%string (1, 3));
    [apply rectangular_3x1|simpl; lia..].
Defined.

(** X20. On a rectangular matrix the compatibilities that
    [parse_example_matrix] returns are exactly the triples read off the
    matrix: a tile of a cell, the tile of its neighbour in a valid
    direction, and that direction. *)
Theorem parse_example_matrix_compatibilities (matrix : list (list Tile))
    (dims : Z * Z) (compatibilities : gset Compatibility) (w : Weights) :
  rectangular dims matrix → 0 ≤ dims.1 →
  parse_example_matrix matrix = Ok (compatibilities, w) →
  ∀ tile1 tile2 d,
    (tile1, tile2, d) ∈ compatibilities ↔
    ∃ c, in_grid dims c ∧ d ∈ valid_dirs c dims ∧
         grid_at matrix c = Some tile1 ∧
         grid_at matrix (neighbour c d) = Some tile2.
Proof.
  intros Hrect Hw Hparse a b d.
  apply (parse_example_matrix_iff matrix dims Hrect Hw _ (a, b, d) Hparse).
Qed.

Lemma parse_example_matrix_compatibilities_witness :
  ("A"%string, "B"%string, UP) ∈
    (list_to_set [("A", "B", UP); ("B", "A", UP);
                  ("B", "A", DOWN); ("A", "B", DOWN)]%string
     : gset Compatibility) ↔
  ∃ c, in_grid (1, 3) c ∧ UP ∈ valid_dirs c (1, 3) ∧
       grid_at [["A"]; ["B"]; ["A"]]%string c = Some "A"%string ∧
       grid_at [["A"]; ["B"]; ["A"]]%string (neighbour c UP) = Some "B"%string.
Proof.
  apply (parse_example_matrix_compatibilities [["A"]; ["B"]; ["A"]]%string
           (1, 3) _ [("A"%string, 2); ("B"%string, 1)] rectangular_3x1).
  - simpl. lia.
  - vm_compute. reflexivity.
Defined.

(** X21. The compatibilities learned from a rectangular matrix are
    closed under turning round: with [(tile1, tile2, d)] they contain
    [(tile2, tile1, opposite d)]. *)
Theorem parse_example_matrix_symmetric (matrix : list (list Tile))
    (dims : Z * Z) (compatibilities : gset Compatibility) (w : Weights) :
  rectangular dims matrix → 0 ≤ dims.1 →
  parse_example_matrix matrix = Ok (compatibilities, w) →
  ∀ tile1 tile2 d,
    (tile1, tile2, d) ∈ compatibilities →
    (tile2, tile1, opposite d) ∈ compatibilities.
Proof.
  intros Hrect Hw Hparse a b d Hin.
  apply (parse_example_matrix_iff matrix dims Hrect Hw _ (a, b, d) Hparse) in Hin
    as (c & Hc & Hd & Ha & Hb). simpl in *.
  apply (parse_example_matrix_iff matrix dims Hrect Hw _ (b, a, opposite d) Hparse).
  destruct (opposite_valid c dims d Hc Hd) as [Hopp Hback].
  destruct (valid_dirs_neighbour dims c d Hc Hd) as [Hn _].
  exists (neighbour c d). simpl. rewrite Hback. done.
Qed.

Lemma parse_example_matrix_symmetric_witness :
  ("B"%string, "A"%string, opposite UP) ∈
    (list_to_set [("A", "B", UP); ("B", "A", UP);
                  ("B", "A", DOWN); ("A", "B", DOWN)]%string
     : gset Compatibility).
Proof.
  apply (parse_example_matrix_symmetric [["A"]; ["B"]; ["A"]]%string
           (1, 3)
           (list_to_set [("A", "B", UP); ("B", "A", UP);
                         ("B", "A", DOWN); ("A", "B", DOWN)]%string)
           [("A"%string, 2); ("B"%string, 1)] rectangular_3x1).
  - simpl. lia.
  - vm_compute. reflexivity.
  - apply elem_of_list_to_set, list_elem_of_here.
Defined.

(** X22. The example satisfies the rules learned from it: with the
    oracle made of the compatibilities of a rectangular matrix, the
    matrix itself is an assignment in which all adjacent cells are
    compatible. *)
Theorem parse_example_matrix_solution (matrix : list (list Tile))
    (dims : Z * Z) (compatibilities : gset Compatibility) (w : Weights) :
  rectangular dims matrix → 0 ≤ dims.1 →
  parse_example_matrix matrix = Ok (compatibilities, w) →
  solution (mkOracle compatibilities) dims
           (λ c, default EmptyString (grid_at matrix c)).
Proof.
  intros Hrect Hw Hparse c d Hc Hd.
  destruct (valid_dirs_neighbour dims c d Hc Hd) as [Hn _].
  destruct (rectangular_grid_at dims matrix c Hrect Hc) as [a Ha].
  destruct (rectangular_grid_at dims matrix _ Hrect Hn) as [b Hb].
  rewrite Ha, Hb. simpl. unfold check. simpl. apply bool_decide_eq_true.
  apply (parse_example_matrix_iff matrix dims Hrect Hw _ (a, b, d) Hparse).
  by exists c.
Qed.

Lemma parse_example_matrix_solution_witness :
  solution (mkOracle (list_to_set [("A", "B", UP); ("B", "A", UP);
                                   ("B", "A", DOWN); ("A", "B", DOWN)]%string))
           (1, 3)
           (λ c, default EmptyString (grid_at [["A"]; ["B"]; ["A"]]%string c)).
Proof.
  apply (parse_example_matrix_solution [["A"]; ["B"]; ["A"]]%string
           (1, 3) _ [("A"%string, 2); ("B"%string, 1)] rectangular_3x1).
  - simpl. lia.
  - vm_compute. reflexivity.
Defined.

Lemma render_row_coloured (reset : string) (colors : gmap string string)
    (row : list Tile) (acc : list string) :
  coloured colors row →
  for_each (λ output_row val,
              match colors !! val with
              | Some color =>
                  Ok (output_row ++ [String.append color (String.append val reset)])
              | None => Raise KeyError
              end)
           row acc =
  Ok (acc ++ ((λ t, String.append (default EmptyString (colors !! t))
                                  (String.append t reset)) <$> row)).
Proof.
  revert acc. induction row as [|t row IH]; intros acc Hrow; csimpl.
  - by rewrite app_nil_r.
  - apply Forall_cons_1 in Hrow as [[color Hcolor] Hrow].
    rewrite Hcolor, bind_Ok_l, IH by done. simpl.
    by rewrite <- app_assoc.
Qed.

Lemma render_row_uncoloured (reset : string) (colors : gmap string string)
    (row : list Tile) (acc : list string) :
  ¬ coloured colors row →
  for_each (λ output_row val,
              match colors !! val with
              | Some color =>
                  Ok (output_row ++ [String.append color (String.append val reset)])
              | None => Raise KeyError
              end)
           row acc =
  Raise KeyError.
Proof.
  revert acc. induction row as [|t row IH]; intros acc Hrow; csimpl.
  - destruct Hrow. constructor.
  - destruct (colors !! t) as [color|] eqn:Hcolor; [|done].
    rewrite bind_Ok_l. apply IH. intros Hrest. apply Hrow.
    constructor; [by rewrite Hcolor|done].
Qed.

(** X23. [render_colors] prints the rows in order, each on a line of its
    own after what was printed before, up to the first row that holds a
    tile without a colour: there it raises [KeyError] and prints nothing of
    that row; when every tile has a colour it prints every row and
    returns. *)
Theorem render_colors_prints (reset : string) (matrix : list (list Tile))
    (colors : gmap string string) (printed : list string) (k : nat) :
  (k ≤ length matrix)%nat →
  Forall (coloured colors) (take k matrix) →
  (∀ row, matrix !! k = Some row → ¬ coloured colors row) →
  render_colors reset matrix colors printed =
  (printed ++ (painted reset colors <$> take k matrix),
   if decide (k = length matrix) then Ok tt else Raise KeyError).
Proof.
  revert k printed.
  induction matrix as [|row rest IH]; intros k printed Hk Hpre Hbad.
  - simpl in Hk. assert (k = 0%nat) as -> by lia. simpl.
    by rewrite app_nil_r.
  - destruct k as [|k].
    + simpl. unfold render_row.
      rewrite render_row_uncoloured by (by apply Hbad).
      by rewrite app_nil_r.
    + simpl in Hk, Hpre. apply Forall_cons_1 in Hpre as [Hrow Hpre].
      cbn [render_colors]. unfold render_row.
      rewrite render_row_coloured by done.
      rewrite (IH k) by (done || lia). csimpl.
      rewrite <- app_assoc. f_equal.
      repeat case_decide; (done || lia).
Qed.

Lemma render_colors_prints_witness :
  render_colors "0"%string [["A"]; ["B"]; ["A"]]%string
                {[ "A"%string := "g"%string ]} [] =
  ([] ++ (painted "0"%string {[ "A"%string := "g"%string ]} <$>
          take 1 [["A"]; ["B"]; ["A"]]%string),
   if decide (1%nat = length [["A"]; ["B"]; ["A"]]%string)
   then Ok tt else Raise KeyError).
Proof.
  apply (render_colors_prints "0"%string [["A"]; ["B"]; ["A"]]%string
           {[ "A"%string := "g"%string ]} [] 1).
  - simpl. lia.
  - repeat constructor. by exists "g"%string.
  - intros row [= <-] Hrow. apply Forall_cons_1 in Hrow as [[c Hc] _].
    vm_compute in Hc. discriminate.
Defined.
